(** * node-woz-main-controller: telemetry decoder, frame codec and
      command/completion correlator

    A shallow embedding of [src/parsers/odometry.js] and
    [src/mainController.js] (both revisions of the latter), with the
    properties the protocol description states about them. *)

From Stdlib Require Import ZArith List String Ascii QArith Lia Bool.
From stdpp Require Import base list.
Import ListNotations.

Local Open Scope Z_scope.

(** ** JavaScript values met in the decoder

    The decoder indexes a byte array ([data[i]] is a number in 0..255, or
    [undefined] past the end), uses [||] for a default and multiplies. *)
Module Js.

Inductive value : Type :=
| VUndefined
| VNum (n : Z)
| VNaN.

(** [data[i]] on an array of bytes. *)
Definition index (data : list Z) (i : nat) : value :=
  match data !! i with
  | Some b => VNum b
  | None => VUndefined
  end.

(** ToBoolean: [0], [NaN] and [undefined] are falsy. *)
Definition truthy (v : value) : bool :=
  match v with
  | VNum n => negb (n =? 0)
  | VUndefined | VNaN => false
  end.

(** [a || b] *)
Definition or (a b : value) : value := if truthy a then a else b.

(** [a * b]: [undefined] converts to [NaN], which absorbs. *)
Definition mul (a b : value) : value :=
  match a, b with
  | VNum x, VNum y => VNum (x * y)
  | _, _ => VNaN
  end.

(** A text is the list of its code units, taken below 256.  The blanks
    [parseInt] skips at the start, among those: tab, line feed, vertical
    tab, form feed, carriage return, space and no-break space. *)
Definition is_blank (c : ascii) : bool :=
  let n := nat_of_ascii c in
  ((9 <=? n) && (n <=? 13) || (n =? 32) || (n =? 160))%nat.

Fixpoint skip_blanks (s : string) : string :=
  match s with
  | String c r => if is_blank c then skip_blanks r else s
  | EmptyString => s
  end.

(** The digits of [parseInt(s, 2)]: the longest prefix of binary digits is
    read; no digit at all gives [NaN] (here [None]). *)
Fixpoint parse_digits (s : string) (acc : Z) (seen : bool) : option Z :=
  match s with
  | EmptyString => if seen then Some acc else None
  | String c r =>
      if Ascii.eqb c "0" then parse_digits r (2 * acc) true
      else if Ascii.eqb c "1" then parse_digits r (2 * acc + 1) true
      else if seen then Some acc else None
  end.

(** [parseInt(s, 2)]: blanks at the start are skipped, one sign is taken,
    then the digits are read.  The number is kept exact (a double holds it
    exactly below 2^53). *)
Definition parseInt2 (s : string) : option Z :=
  match skip_blanks s with
  | String c r =>
      if Ascii.eqb c "-" then Z.opp <$> parse_digits r 0 false
      else if Ascii.eqb c "+" then parse_digits r 0 false
      else parse_digits (String c r) 0 false
  | EmptyString => None
  end.

(** [n.toString(2)] for an integer. *)
Fixpoint pos_digits (p : positive) : string :=
  match p with
  | xH => "1"
  | xO q => pos_digits q ++ "0"
  | xI q => pos_digits q ++ "1"
  end.

Definition toString2 (n : Z) : string :=
  match n with
  | Z0 => "0"
  | Zpos p => pos_digits p
  | Zneg p => "-" ++ pos_digits p
  end.

Fixpoint zeros (k : nat) : string :=
  match k with
  | O => EmptyString
  | S k' => String "0" (zeros k')
  end.

(** [s.padStart(w, '0')] *)
Definition padStart0 (w : nat) (s : string) : string :=
  zeros (w - String.length s) ++ s.

End Js.

(** ** Telemetry decoder ([src/parsers/odometry.js]) *)
Module Odometry.
Import Js.

Record telemetry : Type := {
  leftTicks : value;
  rightTicks : value;
  (** [None] is [NaN].  The quotient by 100 is kept exact. *)
  heading : option Q
}.

Section Decoder.

(** [robotlib.utils.math.parseDecToBinary], which the decoder imports, is
    not among the sources: it is a parameter.  [parseDecToBinary n] is the
    text it contributes to the template literal for the number [n]. *)
Variable parseDecToBinary : Z -> string.

(** What the helper does with [undefined], which it is handed when the
    payload has fewer than six entries: the text it contributes, or [None]
    when it throws. *)
Variable parseDecToBinary_undefined : option string.

(** [parseDecToBinary(data[i])] *)
Definition binary_of (data : list Z) (i : nat) : option string :=
  match data !! i with
  | Some n => Some (parseDecToBinary n)
  | None => parseDecToBinary_undefined
  end.

(** [None]: a call of the helper has thrown, and so has the decoder. *)
Definition odometry (data : list Z) : option telemetry :=
  let leftMotorDirection := Js.or (index data 0) (VNum (-1)) in
  let deltaLeftTicks := index data 1 in
  let rightMotorDirection := Js.or (index data 2) (VNum (-1)) in
  let deltaRightTicks := index data 3 in
  match binary_of data 4 with
  | None => None
  | Some headingPartMsb =>
      match binary_of data 5 with
      | None => None
      | Some headingPartLsb =>
          let heading :=
            (fun n => (n # 100)%Q)
              <$> parseInt2 (headingPartMsb ++ headingPartLsb) in
          Some {| leftTicks := Js.mul deltaLeftTicks leftMotorDirection;
                  rightTicks := Js.mul deltaRightTicks rightMotorDirection;
                  heading := heading |}
      end
  end.

End Decoder.

(** Two helpers a decimal-to-binary conversion can be, to read the decoder
    on: the digits of [n.toString(2)] as they are, and the same padded with
    zeros to eight digits. *)
Definition binary_digits (n : Z) : string := toString2 n.

Definition binary_digits8 (n : Z) : string := padStart0 8 (toString2 n).

(** The sign rule as the protocol description words it. *)
Definition direction_factor (dir : Z) : Z := if dir =? 0 then -1 else dir.

(** The usual big-endian combination of two bytes. *)
Definition big_endian16 (msb lsb : Z) : Z := msb * 256 + lsb.

Definition byte (b : Z) : Prop := 0 <= b <= 255.

End Odometry.

(** ** Frame codec

    [writeToSerialPort] frames every command with [cobs.encode(buf, true)];
    the inverse runs in the stream parser. *)
Module Cobs.

Definition delimiter : Z := 0.

Inductive FrameError : Type := Malformed.

(** Modelled from the spec: the stuffing transform of the [cobs] package,
    which is not among the sources.  Consistent Overhead Byte Stuffing: the
    payload is cut at every delimiter byte and after every 254 bytes without
    one, and each piece is sent behind a code byte holding its length plus
    one, so that the delimiter value does not occur in the output.  [run] is
    the piece collected so far. *)
Fixpoint stuff_go (buf run : list Z) : list Z :=
  match buf with
  | [] => (Z.of_nat (length run) + 1) :: run
  | b :: rest =>
      if b =? delimiter then
        (Z.of_nat (length run) + 1) :: run ++ stuff_go rest []
      else if Z.of_nat (length run) + 2 =? 0xFF then
        0xFF :: (run ++ [b]) ++ stuff_go rest []
      else stuff_go rest (run ++ [b])
  end.

Definition stuff (buf : list Z) : list Z := stuff_go buf [].

(** Modelled from the spec: [cobs.encode(buf, zeroFrame)]; with [zeroFrame]
    the stuffed bytes are sent between two delimiters. *)
Definition encode (buf : list Z) (zeroFrame : bool) : list Z :=
  if zeroFrame then delimiter :: stuff buf ++ [delimiter] else stuff buf.

(** Modelled from the spec: the inverse transform.  [left] counts the bytes
    still owed by the current piece, [zero_due] tells that the piece stood
    before a delimiter of the payload, restored when another piece follows.
    A delimiter inside the stuffed bytes or a piece cut short is
    malformed. *)
Fixpoint unstuff (buf : list Z) (left : nat) (zero_due : bool)
  : option (list Z) :=
  match buf with
  | [] => match left with O => Some [] | S _ => None end
  | b :: rest =>
      if b =? delimiter then None
      else
        match left with
        | S k => cons b <$> unstuff rest k zero_due
        | O =>
            (if zero_due then cons delimiter else id)
              <$> unstuff rest (Z.to_nat (b - 1)) (b <? 0xFF)
        end
  end.

Fixpoint skip_delimiters (w : list Z) : list Z :=
  match w with
  | b :: rest => if b =? delimiter then skip_delimiters rest else w
  | [] => []
  end.

(** The boundary delimiters on either side are not part of the frame. *)
Definition unframe (w : list Z) : list Z :=
  rev (skip_delimiters (rev (skip_delimiters w))).

(** The invariant of a frame on the wire: no delimiter among the stuffed
    bytes. *)
Definition no_delimiter (l : list Z) : Prop :=
  Forall (fun b => b <> delimiter) l.

(** Modelled from the spec: [decode], payload or [FrameError::Malformed]. *)
Definition decode (framed : list Z) : list Z + FrameError :=
  match unstuff (unframe framed) 0 false with
  | Some payload => inl payload
  | None => inr Malformed
  end.

End Cobs.

(** [Buffer.from(array)]: every entry is taken modulo 256. *)
Definition Buffer_from (data : list Z) : list Z :=
  map (fun x => x mod 256) data.

(** ** The controller ([src/mainController.js])

    The closure of [mainController(path)] holds two variables, [port] and
    [parser], that refer to objects shared with the event loop.  The model
    keeps those objects in a store, so that a listener attached to one parser
    object stays on it when the variable is assigned anew. *)
Module Controller.

(** A promise is known by its index in the store. *)
Abbreviation handle := nat (only parsing).

Inductive event : Type :=
| EvReady | EvOdometry | EvTargetReached
| EvError | EvDisconnect | EvClose | EvOpen.

(** The functions handed to [on], [off] and [setTimeout]. *)
Inductive callback : Type :=
| Resolve (p : handle)          (* [resolve] of promise [p] *)
| Reject (p : handle)           (* [reject] of promise [p] *)
| OnTargetReached (p : handle)  (* the closure [onTargetReached] of a command *)
| Republish (e : event)         (* [data => eventEmitter.emit(e, data)] *)
| OnPortOpen.                   (* [onPortOpen] *)

#[global] Instance event_eq_dec : EqDecision event.
Proof. solve_decision. Defined.

#[global] Instance callback_eq_dec : EqDecision callback.
Proof. solve_decision. Defined.

Inductive outcome : Type := Resolved | Rejected.

#[global] Instance outcome_eq_dec : EqDecision outcome.
Proof. solve_decision. Defined.

Inductive pstate : Type := Pending | Settled (o : outcome).

(** An [EventEmitter]: the listeners in the order of their registration. *)
Abbreviation emitter := (list (event * callback)) (only parsing).

Record serial_port : Type := {
  written : list (list Z);   (* arguments of [write], oldest first *)
  pipes : list nat;          (* parser objects given to [pipe] *)
  port_listeners : emitter;
  flushes : nat
}.

Record state : Type := {
  port : option nat;             (* [let port] *)
  parser : option nat;           (* [let parser] *)
  ports : list serial_port;      (* the [SerialPort] objects made so far *)
  parsers : list emitter;        (* the [Parser] objects made so far *)
  promises : list pstate;        (* the promises made so far *)
  settle_log : list (handle * outcome);  (* calls of [resolve]/[reject] *)
  timers : list (Z * callback);  (* [setTimeout]: delay in ms, callback *)
  emitted : list event           (* [eventEmitter.emit], oldest first *)
}.

Definition initial : state :=
  {| port := None; parser := None; ports := []; parsers := [];
     promises := []; settle_log := []; timers := []; emitted := [] |}.

Definition set_port (v : option nat) (s : state) : state :=
  {| port := v; parser := parser s; ports := ports s; parsers := parsers s;
     promises := promises s; settle_log := settle_log s; timers := timers s;
     emitted := emitted s |}.

Definition set_parser (v : option nat) (s : state) : state :=
  {| port := port s; parser := v; ports := ports s; parsers := parsers s;
     promises := promises s; settle_log := settle_log s; timers := timers s;
     emitted := emitted s |}.

Definition set_ports (v : list serial_port) (s : state) : state :=
  {| port := port s; parser := parser s; ports := v; parsers := parsers s;
     promises := promises s; settle_log := settle_log s; timers := timers s;
     emitted := emitted s |}.

Definition set_parsers (v : list emitter) (s : state) : state :=
  {| port := port s; parser := parser s; ports := ports s; parsers := v;
     promises := promises s; settle_log := settle_log s; timers := timers s;
     emitted := emitted s |}.

Definition set_promises (v : list pstate) (s : state) : state :=
  {| port := port s; parser := parser s; ports := ports s;
     parsers := parsers s; promises := v; settle_log := settle_log s;
     timers := timers s; emitted := emitted s |}.

Definition set_settle_log (v : list (handle * outcome)) (s : state) : state :=
  {| port := port s; parser := parser s; ports := ports s;
     parsers := parsers s; promises := promises s; settle_log := v;
     timers := timers s; emitted := emitted s |}.

Definition set_timers (v : list (Z * callback)) (s : state) : state :=
  {| port := port s; parser := parser s; ports := ports s;
     parsers := parsers s; promises := promises s;
     settle_log := settle_log s; timers := v; emitted := emitted s |}.

Definition set_emitted (v : list event) (s : state) : state :=
  {| port := port s; parser := parser s; ports := ports s;
     parsers := parsers s; promises := promises s;
     settle_log := settle_log s; timers := timers s; emitted := v |}.

(** *** Computations: state passing, with the [TypeError] of a call on an
    undefined variable *)
Inductive result (A : Type) : Type :=
| Ok (a : A) (s : state)
| Throw (s : state).
Arguments Ok {A} a s.
Arguments Throw {A} s.

Definition M (A : Type) : Type := state -> result A.

Definition ret {A} (a : A) : M A := fun s => Ok a s.

Definition bind {A B} (m : M A) (k : A -> M B) : M B :=
  fun s => match m s with
           | Ok a s' => k a s'
           | Throw s' => Throw s'
           end.

Definition throw {A} : M A := fun s => Throw s.

Definition modify (f : state -> state) : M unit := fun s => Ok tt (f s).

Notation "'do' x <- m ; k" := (bind m (fun x => k))
  (at level 10, x name, m at level 100, k at level 200).

Definition final {A} (r : result A) : state :=
  match r with Ok _ s => s | Throw s => s end.

(** *** Emitters *)

Definition on (e : event) (cb : callback) (em : emitter) : emitter :=
  em ++ [(e, cb)].

Fixpoint remove_first (x : event * callback) (l : emitter) : emitter :=
  match l with
  | [] => []
  | y :: l' => if decide (x = y) then l' else y :: remove_first x l'
  end.

(** [off] takes out the instance registered last. *)
Definition off (e : event) (cb : callback) (em : emitter) : emitter :=
  rev (remove_first (e, cb) (rev em)).

Definition listeners (e : event) (em : emitter) : list callback :=
  map snd (filter (fun x => x.1 = e) em).

(** *** Promises and timers *)

Definition settle (o : outcome) (p : handle) : M unit :=
  modify (fun s =>
    set_settle_log (settle_log s ++ [(p, o)])
      (set_promises
         (alter (fun ps => match ps with Pending => Settled o | _ => ps end)
                p (promises s)) s)).

Definition setTimeout (cb : callback) (delay : Z) : M unit :=
  modify (fun s => set_timers (timers s ++ [(delay, cb)]) s).

(** [new Promise(executor)]: the executor runs at once; when it throws, the
    promise is rejected. *)
Definition new_Promise (executor : handle -> M unit) : M handle :=
  fun s =>
    let p := length (promises s) in
    match executor p (set_promises (promises s ++ [Pending]) s) with
    | Ok _ s' => Ok p s'
    | Throw s' => Ok p (final (settle Rejected p s'))
    end.

(** *** Methods called on the objects the two variables refer to *)

Definition add_write (bytes : list Z) (po : serial_port) : serial_port :=
  {| written := written po ++ [bytes]; pipes := pipes po;
     port_listeners := port_listeners po; flushes := flushes po |}.

Definition add_pipe (r : nat) (po : serial_port) : serial_port :=
  {| written := written po; pipes := pipes po ++ [r];
     port_listeners := port_listeners po; flushes := flushes po |}.

Definition add_flush (po : serial_port) : serial_port :=
  {| written := written po; pipes := pipes po;
     port_listeners := port_listeners po; flushes := S (flushes po) |}.

Definition add_port_listener (e : event) (cb : callback) (po : serial_port)
  : serial_port :=
  {| written := written po; pipes := pipes po;
     port_listeners := on e cb (port_listeners po); flushes := flushes po |}.

Definition port_write (bytes : list Z) : M unit :=
  fun s =>
    match port s with
    | Some q =>
        Ok tt (set_ports (alter (add_write bytes) q (ports s)) s)
    | None => Throw s
    end.

Definition port_pipe : M unit :=
  fun s =>
    match port s, parser s with
    | Some q, Some r =>
        Ok tt (set_ports (alter (add_pipe r) q (ports s)) s)
    | _, _ => Throw s
    end.

Definition port_on (e : event) (cb : callback) : M unit :=
  fun s =>
    match port s with
    | Some q =>
        Ok tt (set_ports (alter (add_port_listener e cb) q (ports s)) s)
    | None => Throw s
    end.

Definition port_flush : M unit :=
  fun s =>
    match port s with
    | Some q =>
        Ok tt (set_ports (alter add_flush q (ports s)) s)
    | None => Throw s
    end.

Definition parser_on (e : event) (cb : callback) : M unit :=
  fun s =>
    match parser s with
    | Some r => Ok tt (set_parsers (alter (on e cb) r (parsers s)) s)
    | None => Throw s
    end.

Definition parser_off (e : event) (cb : callback) : M unit :=
  fun s =>
    match parser s with
    | Some r => Ok tt (set_parsers (alter (off e cb) r (parsers s)) s)
    | None => Throw s
    end.

(** [port = new SerialPort(path, { baudRate: 115200 })] *)
Definition assign_new_SerialPort : M unit :=
  modify (fun s =>
    set_port (Some (length (ports s)))
      (set_ports (ports s ++ [{| written := []; pipes := [];
                                 port_listeners := []; flushes := 0 |}]) s)).

(** [parser = new Parser()] *)
Definition assign_new_Parser : M unit :=
  modify (fun s =>
    set_parser (Some (length (parsers s)))
      (set_parsers (parsers s ++ [[]]) s)).

(** *** Running a callback

    What the client has registered on [eventEmitter] is outside the module;
    a republished event is recorded, and the client's listeners are taken
    to return normally. *)

Definition call (cb : callback) : M unit :=
  match cb with
  | Resolve p => settle Resolved p
  | Reject p => settle Rejected p
  | OnTargetReached p =>
      do _ <- parser_off EvTargetReached (OnTargetReached p);
      settle Resolved p
  | Republish e => modify (fun s => set_emitted (emitted s ++ [e]) s)
  | OnPortOpen => port_flush
  end.

Fixpoint call_all (cbs : list callback) : M unit :=
  match cbs with
  | [] => ret tt
  | cb :: rest => do _ <- call cb; call_all rest
  end.

(** [emit] calls the listeners that are registered when it starts. *)
Definition parser_emit (r : nat) (e : event) : M unit :=
  fun s =>
    match parsers s !! r with
    | Some em => call_all (listeners e em) s
    | None => Ok tt s
    end.

Definition port_emit (q : nat) (e : event) : M unit :=
  fun s =>
    match ports s !! q with
    | Some po => call_all (listeners e (port_listeners po)) s
    | None => Ok tt s
    end.

(** A timer runs out: it leaves the queue and its callback runs. *)
Definition timer_fires (i : nat) : M unit :=
  fun s =>
    match timers s !! i with
    | Some (_, cb) => call cb (set_timers (delete i (timers s)) s)
    | None => Ok tt s
    end.

(** *** The functions of [mainController]

    The file holds two revisions of the module.  They differ in the
    direction byte of [rotate] and [turn]; [goToXY], [keepHeading] and
    [resetIMU] are in the first only.  [goToXY] is not part of the model:
    it computes an angle and a distance in floating point, with two more
    helpers of robotlib that are not among the sources, and then calls
    [rotate] and [forward] from an [async] function, the second after the
    promise of the first is resolved. *)
Inductive revision : Type := Rev1 | Rev2.

Section Api.

(** [robotlib.utils.math.numberToHex] is not among the sources: it is a
    parameter, read as the number its result stands for in
    [Buffer.from]. *)
Variable numberToHex : Z -> Z.

Variable rev : revision.

Definition requestStartFlag : Z := 0xA3.

Definition writeToSerialPort (data : list Z) : M unit :=
  port_write (Cobs.encode (Buffer_from data) true).

Definition init : M handle :=
  new_Promise (fun p =>
    do _ <- (fun s => match port s with
                      | Some _ => setTimeout (Reject p) 0 s
                      | None => Ok tt s
                      end);
    do _ <- assign_new_SerialPort;
    do _ <- assign_new_Parser;
    do _ <- port_pipe;
    do _ <- port_on EvError (Republish EvError);
    do _ <- port_on EvDisconnect (Republish EvDisconnect);
    do _ <- port_on EvClose (Republish EvClose);
    do _ <- port_on EvOpen OnPortOpen;
    do _ <- parser_on EvReady (Resolve p);
    do _ <- parser_on EvOdometry (Republish EvOdometry);
    parser_on EvTargetReached (Republish EvTargetReached)).

(** The promise every waiting command returns: its executor registers the
    closure [onTargetReached]. *)
Definition targetReached_promise : M (option handle) :=
  do p <- new_Promise (fun p =>
            parser_on EvTargetReached (OnTargetReached p));
  ret (Some p).

(** A function that ends without [return] gives [undefined], here [None]. *)
Definition keepHeading (speed heading distance : Z) : M (option handle) :=
  let speedByte := numberToHex (Z.abs speed) in
  let headingByte := numberToHex heading in
  let directionByte := numberToHex (if speed >? 0 then 1 else 0) in
  let distanceByte := numberToHex distance in
  do _ <- writeToSerialPort
            [requestStartFlag; 0x16; speedByte; headingByte; directionByte;
             distanceByte];
  if distance =? 0 then ret None else targetReached_promise.

Definition forward (speed distance : Z) : M (option handle) :=
  let speedByte := numberToHex speed in
  let distanceByte := numberToHex distance in
  do _ <- writeToSerialPort
            [requestStartFlag; 0x10; speedByte; distanceByte];
  if distance =? 0 then ret None else targetReached_promise.

Definition reverse (speed distance : Z) : M (option handle) :=
  let speedByte := numberToHex speed in
  let distanceByte := numberToHex distance in
  do _ <- writeToSerialPort
            [requestStartFlag; 0x11; speedByte; distanceByte];
  if distance =? 0 then ret None else targetReached_promise.

(** [angle < 0 ? 1 : 0] in the first revision, [angle < 0 ? 0 : 1] in the
    second. *)
Definition angle_direction (angle : Z) : Z :=
  match rev with
  | Rev1 => if angle <? 0 then 1 else 0
  | Rev2 => if angle <? 0 then 0 else 1
  end.

Definition rotate (speed angle : Z) : M (option handle) :=
  let speedByte := numberToHex speed in
  let angleByte := numberToHex (Z.abs angle) in
  let directionByte := numberToHex (angle_direction angle) in
  do _ <- writeToSerialPort
            [requestStartFlag; 0x12; speedByte; angleByte; directionByte];
  targetReached_promise.

Definition turn (speed angle radius : Z) : M (option handle) :=
  let speedByte := numberToHex speed in
  let angleByte := numberToHex (Z.abs angle) in
  let radiusByte := numberToHex radius in
  let directionByte := numberToHex (angle_direction angle) in
  do _ <- writeToSerialPort
            [requestStartFlag; 0x13; speedByte; angleByte; radiusByte;
             directionByte];
  targetReached_promise.

Definition drive (speedLeft speedRight : Z) : M (option handle) :=
  let speedLeftByte := numberToHex speedLeft in
  let speedRightByte := numberToHex speedRight in
  do _ <- writeToSerialPort
            [requestStartFlag; 0x14; speedLeftByte; speedRightByte];
  ret None.

Definition stop (hard : Z) : M (option handle) :=
  do p <- new_Promise (fun p =>
            do _ <- writeToSerialPort
                      [requestStartFlag; 0x15; numberToHex hard];
            setTimeout (Resolve p) (if hard =? 0 then 1000 else 0));
  ret (Some p).

Definition resetIMU : M (option handle) :=
  do p <- new_Promise (fun p =>
            do _ <- writeToSerialPort [requestStartFlag; 0x20];
            setTimeout (Resolve p) 1000);
  ret (Some p).

(** *** The calls a client can make, and what the event loop can do *)
Inductive command : Type :=
| KeepHeading (speed heading distance : Z)
| Forward (speed distance : Z)
| Reverse (speed distance : Z)
| Rotate (speed angle : Z)
| Turn (speed angle radius : Z)
| Drive (speedLeft speedRight : Z)
| Stop (hard : Z)
| ResetIMU.

(** The second revision does not export [keepHeading] and [resetIMU]:
    calling them throws. *)
Definition run (c : command) : M (option handle) :=
  match c with
  | KeepHeading speed heading distance =>
      match rev with
      | Rev1 => keepHeading speed heading distance
      | Rev2 => throw
      end
  | Forward speed distance => forward speed distance
  | Reverse speed distance => reverse speed distance
  | Rotate speed angle => rotate speed angle
  | Turn speed angle radius => turn speed angle radius
  | Drive speedLeft speedRight => drive speedLeft speedRight
  | Stop hard => stop hard
  | ResetIMU =>
      match rev with
      | Rev1 => resetIMU
      | Rev2 => throw
      end
  end.

Inductive action : Type :=
| Call (c : command)             (* the client calls a command *)
| CallInit                       (* the client calls [init] *)
| ParserEmits (r : nat) (e : event)  (* parser object [r] emits [e] *)
| PortEmits (q : nat) (e : event)    (* port object [q] emits [e] *)
| TimerFires (i : nat).          (* the [i]-th timer of the queue runs out *)

Definition step (a : action) (s : state) : state :=
  match a with
  | Call c => final (run c s)
  | CallInit => final (init s)
  | ParserEmits r e => final (parser_emit r e s)
  | PortEmits q e => final (port_emit q e s)
  | TimerFires i => final (timer_fires i s)
  end.

Definition run_trace (tr : list action) (s : state) : state :=
  fold_left (fun s a => step a s) tr s.

End Api.

(** *** Notions used in the statements *)

(** The opcode table of the protocol description. *)
Definition opcode (c : command) : Z :=
  match c with
  | Forward _ _ => 0x10
  | Reverse _ _ => 0x11
  | Rotate _ _ => 0x12
  | Turn _ _ _ => 0x13
  | Drive _ _ => 0x14
  | Stop _ => 0x15
  | KeepHeading _ _ _ => 0x16
  | ResetIMU => 0x20
  end.

(** The arguments of a command in the order of its parameters, each through
    the conversion the function applies. *)
Definition arguments (numberToHex : Z -> Z) (rev : revision) (c : command)
  : list Z :=
  match c with
  | KeepHeading speed heading distance =>
      [numberToHex (Z.abs speed); numberToHex heading;
       numberToHex (if speed >? 0 then 1 else 0); numberToHex distance]
  | Forward speed distance => [numberToHex speed; numberToHex distance]
  | Reverse speed distance => [numberToHex speed; numberToHex distance]
  | Rotate speed angle =>
      [numberToHex speed; numberToHex (Z.abs angle);
       numberToHex (angle_direction rev angle)]
  | Turn speed angle radius =>
      [numberToHex speed; numberToHex (Z.abs angle); numberToHex radius;
       numberToHex (angle_direction rev angle)]
  | Drive speedLeft speedRight =>
      [numberToHex speedLeft; numberToHex speedRight]
  | Stop hard => [numberToHex hard]
  | ResetIMU => []
  end.

(** The function exists in the revision. *)
Definition exported (rev : revision) (c : command) : bool :=
  match rev, c with
  | Rev2, KeepHeading _ _ _ | Rev2, ResetIMU => false
  | _, _ => true
  end.

(** The byte sequences written on the port the variable refers to. *)
Definition wire (s : state) : list (list Z) :=
  match port s with
  | Some q => match ports s !! q with
              | Some po => written po
              | None => []
              end
  | None => []
  end.

(** Both variables refer to objects of the store. *)
Definition connected (s : state) : Prop :=
  exists q r po em,
    port s = Some q /\ parser s = Some r /\
    ports s !! q = Some po /\ parsers s !! r = Some em.

(** The listeners for [targetReached] on parser object [r]. *)
Definition targetReached_listeners (r : nat) (s : state) : list callback :=
  match parsers s !! r with
  | Some em => listeners EvTargetReached em
  | None => []
  end.

(** A call has come back at once: with [undefined], or with a promise that
    is resolved already. *)
Definition immediate (r : result (option handle)) : Prop :=
  match r with
  | Ok None _ => True
  | Ok (Some p) s => promises s !! p = Some (Settled Resolved)
  | Throw _ => False
  end.

Definition occurrences {A} `{EqDecision A} (x : A) (l : list A) : nat :=
  length (filter (fun y => y = x) l).

(** Calls of [resolve] for promise [p] so far. *)
Definition resolutions (p : handle) (s : state) : nat :=
  occurrences (p, Resolved) (settle_log s).

(** The rule the code follows for waiting: [forward], [reverse] and
    [keepHeading] test [distance]; [rotate] and [turn] test nothing. *)
Definition awaits_target (c : command) : bool :=
  match c with
  | KeepHeading _ _ distance | Forward _ distance | Reverse _ distance =>
      negb (distance =? 0)
  | Rotate _ _ | Turn _ _ _ => true
  | Drive _ _ | Stop _ | ResetIMU => false
  end.

(** The commands with a distance or an angle among their parameters. *)
Definition carries_target (c : command) : bool :=
  match c with
  | KeepHeading _ _ _ | Forward _ _ | Reverse _ _ | Rotate _ _ | Turn _ _ _ =>
      true
  | Drive _ _ | Stop _ | ResetIMU => false
  end.

(** *** Where callbacks are registered *)

Definition cb_handle (cb : callback) : option handle :=
  match cb with
  | Resolve p | Reject p | OnTargetReached p => Some p
  | Republish _ | OnPortOpen => None
  end.

Inductive place : Type :=
| InTimers
| OnParser (r : nat) (e : event)
| OnPort (q : nat) (e : event).

#[global] Instance place_eq_dec : EqDecision place.
Proof. solve_decision. Defined.

(** How many times [cb] is registered at [pl]. *)
Definition occ (pl : place) (cb : callback) (s : state) : nat :=
  match pl with
  | InTimers => occurrences cb (map snd (timers s))
  | OnParser r e =>
      match parsers s !! r with
      | Some em => occurrences (e, cb) em
      | None => O
      end
  | OnPort q e =>
      match ports s !! q with
      | Some po => occurrences (e, cb) (port_listeners po)
      | None => O
      end
  end.

(** The callbacks a step of the event loop runs. *)
Definition called (a : action) (s : state) : list callback :=
  match a with
  | TimerFires i =>
      match timers s !! i with
      | Some (_, cb) => [cb]
      | None => []
      end
  | ParserEmits r e =>
      match parsers s !! r with
      | Some em => listeners e em
      | None => []
      end
  | PortEmits q e =>
      match ports s !! q with
      | Some po => listeners e (port_listeners po)
      | None => []
      end
  | Call _ | CallInit => []
  end.

(** Every registered callback and every call of [resolve] or [reject]
    belongs to a promise that exists. *)
Definition wf (s : state) : Prop :=
  forall p, (length (promises s) <= p)%nat ->
    (forall pl cb, cb_handle cb = Some p -> occ pl cb s = O) /\
    (forall o, occurrences (p, o) (settle_log s) = O).

(** Nothing registered belongs to promise [p]. *)
Definition silent (p : handle) (s : state) : Prop :=
  forall pl cb, cb_handle cb = Some p -> occ pl cb s = O.

(** Promise [p] is pending, and all that belongs to it is callback [cb0],
    registered once at [pl0]. *)
Definition sole (p : handle) (pl0 : place) (cb0 : callback) (s : state)
  : Prop :=
  promises s !! p = Some Pending /\
  forall pl cb,
    cb_handle cb = Some p ->
    occ pl cb s = if decide (pl = pl0 /\ cb = cb0) then 1%nat else O.

(** Promise [p] is pending, and all that belongs to it is one listener
    [onTargetReached] for [targetReached] on parser object [r]. *)
Definition waiting (p : handle) (r : nat) (s : state) : Prop :=
  sole p (OnParser r EvTargetReached) (OnTargetReached p) s.

(** Where a step of the event loop takes its callbacks from. *)
Definition place_of (a : action) : option place :=
  match a with
  | ParserEmits r e => Some (OnParser r e)
  | PortEmits q e => Some (OnPort q e)
  | TimerFires _ => Some InTimers
  | Call _ | CallInit => None
  end.

(** A trace in which nothing registered at [pl] is run. *)
Definition avoids (pl : place) (tr : list action) : Prop :=
  Forall (fun a => place_of a <> Some pl) tr.

(** What a computation leaves alone for an existing promise [p]: its state,
    the calls of its [resolve] and [reject], the registrations of its
    callbacks. *)
Definition same_for (p : handle) (s s' : state) : Prop :=
  promises s' !! p = promises s !! p /\
  (forall o, occurrences (p, o) (settle_log s')
             = occurrences (p, o) (settle_log s)) /\
  (forall pl cb, cb_handle cb = Some p -> occ pl cb s' = occ pl cb s) /\
  (length (promises s) <= length (promises s'))%nat.

(** No promise is ever taken away. *)
Definition grows {A} (m : M A) : Prop :=
  forall s, (length (promises s) <= length (promises (final (m s))))%nat.

(** [p] is not among the promises made between [s] and [s']. *)
Definition not_made (p : handle) (s s' : state) : Prop :=
  (p < length (promises s))%nat \/ (length (promises s') <= p)%nat.

Definition keeps {A} (p : handle) (m : M A) : Prop :=
  forall s, not_made p s (final (m s)) -> same_for p s (final (m s)).

(** Both variables are assigned. *)
Definition vars_set (s : state) : Prop :=
  is_Some (port s) /\ is_Some (parser s).

Definition same_vars (s s' : state) : Prop :=
  port s' = port s /\ parser s' = parser s.

(** A trace without [targetReached] from parser object [r]. *)
Definition no_targetReached (r : nat) (tr : list action) : Prop :=
  avoids (OnParser r EvTargetReached) tr.

(** A trace in which no timer runs out. *)
Definition no_timer (tr : list action) : Prop := avoids InTimers tr.

(** A trace without a call of [init]. *)
Definition no_init (tr : list action) : Prop :=
  Forall (fun a => a <> CallInit) tr.

Definition steady {A} (m : M A) : Prop :=
  forall s, same_vars s (final (m s)).

(** No object of the store is ever taken away. *)
Definition same_objects (s s' : state) : Prop :=
  (length (ports s) <= length (ports s'))%nat
  /\ (length (parsers s) <= length (parsers s'))%nat.

Definition keeps_objects {A} (m : M A) : Prop :=
  forall s, same_objects s (final (m s)).

(** The frame a command hands to [writeToSerialPort], as the protocol
    description lays it out. *)
Definition frame (numberToHex : Z -> Z) (rev : revision) (c : command)
  : list Z :=
  requestStartFlag :: opcode c :: arguments numberToHex rev c.

(** The bytes [writeToSerialPort] sends for a command. *)
Definition wire_frame (numberToHex : Z -> Z) (rev : revision) (c : command)
  : list Z :=
  Cobs.encode (Buffer_from (frame numberToHex rev c)) true.

(** The delay after which the promise of [stop] and [resetIMU] is
    resolved. *)
Definition settling_delay (c : command) : option Z :=
  match c with
  | Stop hard => Some (if hard =? 0 then 1000 else 0)
  | ResetIMU => Some 1000
  | _ => None
  end.

(** Modelled from the spec: a [numberToHex] for the examples.  The
    description has every argument sent as one byte, a magnitude being cut
    to the range 0..255. *)
Definition clamp_byte (n : Z) : Z := Z.max 0 (Z.min 255 n).

Definition is_onTargetReached (cb : callback) : bool :=
  match cb with
  | OnTargetReached _ => true
  | _ => false
  end.

(** The state after the first [init]. *)
Definition opened : state := final (init initial).

(** *** Notions used in further statements *)

(** The port object and the parser object as [init] leaves them. *)
Definition init_port (r : nat) : serial_port :=
  {| written := []; pipes := [r];
     port_listeners :=
       [(EvError, Republish EvError); (EvDisconnect, Republish EvDisconnect);
        (EvClose, Republish EvClose); (EvOpen, OnPortOpen)];
     flushes := 0 |}.

Definition init_parser (p : handle) : emitter :=
  [(EvReady, Resolve p); (EvOdometry, Republish EvOdometry);
   (EvTargetReached, Republish EvTargetReached)].

(** The state [init] leaves: one promise, one port object and one parser
    object more, the variables on the new objects, and the rejection timer
    when a port was assigned already. *)
Definition after_init (s : state) : state :=
  {| port := Some (length (ports s));
     parser := Some (length (parsers s));
     ports := ports s ++ [init_port (length (parsers s))];
     parsers := parsers s ++ [init_parser (length (promises s))];
     promises := promises s ++ [Pending];
     settle_log := settle_log s;
     timers := timers s ++ match port s with
                           | Some _ => [(0, Reject (length (promises s)))]
                           | None => []
                           end;
     emitted := emitted s |}.

(** A computation keeps an invariant of the state. *)
Definition preserves {A} (I : state -> Prop) (m : M A) : Prop :=
  forall s, I s -> I (final (m s)).

(** Promise [p] is settled with outcome [o]. *)
Definition settled_as (p : handle) (o : outcome) (s : state) : Prop :=
  promises s !! p = Some (Settled o).


(** The listeners the waiting commands with promises [ps] attach. *)
Definition onTargetReached_listeners (ps : list handle) : emitter :=
  map (fun p => (EvTargetReached, OnTargetReached p)) ps.

(** The index of the object made last. *)
Definition newest {A} (l : list A) : option nat :=
  match l with
  | [] => None
  | _ :: l' => Some (length l')
  end.

(** A parser object holds the three listeners of [init] and, after them,
    the listeners of waiting commands; a port object holds the four
    listeners of [init]; the variables are on the objects made last. *)
Definition tidy (s : state) : Prop :=
  (forall r em, parsers s !! r = Some em ->
     exists p ps, em = init_parser p ++ onTargetReached_listeners ps)
  /\ (forall q po, ports s !! q = Some po ->
        port_listeners po = port_listeners (init_port 0))
  /\ port s = newest (ports s)
  /\ parser s = newest (parsers s).

(** The events a callback republishes to the clients. *)
Definition republished (cb : callback) : list event :=
  match cb with
  | Republish e => [e]
  | _ => []
  end.

(** The timer that action [a] makes run out in state [s] holds the
    callback [cb]. *)
Definition fires (cb : callback) (a : action) (s : state) : bool :=
  match a with
  | TimerFires i =>
      match timers s !! i with
      | Some (_, cb') => bool_decide (cb' = cb)
      | None => false
      end
  | _ => false
  end.

(** A timer holding [cb] runs out along the trace. *)
Fixpoint runs_out (numberToHex : Z -> Z) (rev : revision) (cb : callback)
    (tr : list action) (s : state) : bool :=
  match tr with
  | [] => false
  | a :: tr' =>
      fires cb a s
      || runs_out numberToHex rev cb tr' (step numberToHex rev a s)
  end.

(** A timer of [d] ms holding [cb] is in the queue. *)
Definition queued (d : Z) (cb : callback) (s : state) : Prop :=
  (d, cb) ∈ timers s.

End Controller.

(** * Proofs *)

(** ** The telemetry decoder *)
Module OdometryFacts.
Import Js Odometry.

Lemma append_assoc' (a b c : string) :
  String.append (String.append a b) c = String.append a (String.append b c).
Proof. induction a as [|x a IH]; simpl; [reflexivity|]. now rewrite IH. Qed.

Lemma length_append' (a b : string) :
  String.length (String.append a b) = (String.length a + String.length b)%nat.
Proof. induction a as [|x a IH]; simpl; [reflexivity|]. now rewrite IH. Qed.

Lemma parse_digits_zeros k rest acc seen :
  parse_digits (String.append (zeros k) rest) acc seen
  = parse_digits rest (acc * 2 ^ Z.of_nat k) (seen || negb (Nat.eqb k 0)).
Proof.
  revert acc seen. induction k as [|k IH]; intros acc seen.
  - simpl. rewrite orb_false_r. f_equal. lia.
  - cbn [zeros String.append parse_digits]. simpl Ascii.eqb. cbv iota.
    rewrite IH. rewrite orb_true_l. simpl. rewrite orb_true_r. f_equal.
    rewrite Nat2Z.inj_succ, Z.pow_succ_r by lia. lia.
Qed.

Lemma parse_digits_pos p rest acc seen :
  parse_digits (String.append (pos_digits p) rest) acc seen
  = parse_digits rest
      (acc * 2 ^ Z.of_nat (String.length (pos_digits p)) + Z.pos p) true.
Proof.
  revert rest acc seen.
  induction p as [q IH|q IH|]; intros rest acc seen; cbn [pos_digits].
  - rewrite append_assoc', IH, length_append'. simpl String.append.
    cbn [parse_digits]. simpl Ascii.eqb. cbv iota. f_equal.
    rewrite Nat2Z.inj_add, Z.pow_add_r by lia. simpl (Z.of_nat (String.length "1")).
    lia.
  - rewrite append_assoc', IH, length_append'. simpl String.append.
    cbn [parse_digits]. simpl Ascii.eqb. cbv iota. f_equal.
    rewrite Nat2Z.inj_add, Z.pow_add_r by lia. simpl (Z.of_nat (String.length "0")).
    lia.
  - simpl. f_equal. lia.
Qed.

Lemma parse_digits_toString2 n rest acc seen :
  0 <= n ->
  parse_digits (String.append (toString2 n) rest) acc seen
  = parse_digits rest
      (acc * 2 ^ Z.of_nat (String.length (toString2 n)) + n) true.
Proof.
  intros Hn. destruct n as [|p|p]; [|apply parse_digits_pos|lia].
  simpl. f_equal. lia.
Qed.

Lemma append_empty_r (a : string) : String.append a EmptyString = a.
Proof. induction a as [|x a IH]; simpl; [reflexivity|]. now rewrite IH. Qed.

Lemma length_zeros k : String.length (zeros k) = k.
Proof. induction k; simpl; congruence. Qed.

Lemma parse_digits_binary_digits8 n rest acc seen :
  0 <= n ->
  parse_digits (String.append (binary_digits8 n) rest) acc seen
  = parse_digits rest
      (acc * 2 ^ Z.of_nat (String.length (binary_digits8 n)) + n) true.
Proof.
  intros Hn. unfold binary_digits8, padStart0.
  rewrite append_assoc', parse_digits_zeros, parse_digits_toString2 by exact Hn.
  f_equal. rewrite length_append', length_zeros, Nat2Z.inj_add, Z.pow_add_r by lia.
  lia.
Qed.

Lemma length_pos_digits p :
  String.length (pos_digits p) = Pos.size_nat p.
Proof.
  induction p as [q IH|q IH|]; cbn [pos_digits Pos.size_nat];
    rewrite ?length_append', ?IH; simpl; lia.
Qed.

Lemma length_binary_digits8 n :
  byte n -> String.length (binary_digits8 n) = 8%nat.
Proof.
  intros [Hlo Hhi]. unfold binary_digits8, padStart0.
  rewrite length_append', length_zeros.
  assert (String.length (toString2 n) <= 8)%nat; [|lia].
  destruct n as [|p|p]; [simpl; lia| |lia].
  cbn [toString2]. rewrite length_pos_digits.
  destruct (le_gt_dec (Pos.size_nat p) 8) as [H|H]; [exact H|exfalso].
  pose proof (Pos.size_nat_monotone) as Hm.
  destruct (Z.eq_dec (Z.pos p) 255) as [He|Hne].
  - injection He as ->. simpl in H. lia.
  - assert (Hp : (p < 255)%positive) by (change (Z.pos p < Z.pos 255); lia).
    apply Hm in Hp. simpl in Hp. lia.
Qed.

(** A text that starts with a binary digit is read from its first
    character. *)
Lemma parseInt2_digit_first c r :
  c = "0"%char \/ c = "1"%char ->
  parseInt2 (String c r) = parse_digits (String c r) 0 false.
Proof. intros [-> | ->]; reflexivity. Qed.

Lemma pos_digits_first p : exists r, pos_digits p = String "1" r.
Proof.
  induction p as [q [r IH]|q [r IH]|]; cbn [pos_digits];
    [rewrite IH|rewrite IH|]; eexists; reflexivity.
Qed.

Lemma toString2_first n :
  0 <= n ->
  exists c r, toString2 n = String c r /\ (c = "0"%char \/ c = "1"%char).
Proof.
  intros Hn. destruct n as [|p|p]; [| |lia].
  - exists "0"%char, EmptyString. auto.
  - destruct (pos_digits_first p) as [r E]. exists "1"%char, r. auto.
Qed.

Lemma binary_digits8_first n rest :
  0 <= n ->
  exists c r, String.append (binary_digits8 n) rest = String c r
              /\ (c = "0"%char \/ c = "1"%char).
Proof.
  intros Hn. unfold binary_digits8, padStart0.
  destruct (8 - String.length (toString2 n))%nat as [|k].
  - destruct (toString2_first n Hn) as (c & r & E & Hc).
    cbn [zeros String.append]. rewrite E. cbn [String.append]. eauto.
  - cbn [zeros String.append]. eauto.
Qed.

Lemma parseInt2_two_bytes m l :
  byte m -> byte l ->
  parseInt2 (String.append (binary_digits8 m) (binary_digits8 l))
  = Some (big_endian16 m l).
Proof.
  intros Hm Hl.
  destruct (binary_digits8_first m (binary_digits8 l) (proj1 Hm))
    as (c & r & E & Hc).
  rewrite E, (parseInt2_digit_first c r Hc), <- E.
  rewrite parse_digits_binary_digits8 by apply Hm.
  rewrite <- (append_empty_r (binary_digits8 l)) at 1.
  rewrite parse_digits_binary_digits8 by apply Hl.
  rewrite !length_binary_digits8 by assumption. simpl parse_digits.
  unfold big_endian16. f_equal; lia.
Qed.

Example binary_digits8_5 : binary_digits8 5 = "00000101"%string.
Proof. reflexivity. Qed.

Example parseInt2_blanks_and_sign :
  parseInt2 "  -101x"%string = Some (-5) /\ parseInt2 "x1"%string = None.
Proof. split; reflexivity. Qed.

Section Heading.
Variable parseDecToBinary : Z -> string.
Variable parseDecToBinary_undefined : option string.

(** For a payload of six entries the helper is handed the two heading
    entries, and the heading is the base-2 reading of the two texts it
    gives, put one after the other, over 100. *)
Lemma heading_reads_the_concatenation
    (leftDir leftDeltaTicks rightDir rightDeltaTicks headingMsb headingLsb : Z) :
  heading
    <$> odometry parseDecToBinary parseDecToBinary_undefined
          [leftDir; leftDeltaTicks; rightDir; rightDeltaTicks;
           headingMsb; headingLsb]
  = Some ((fun n => (n # 100)%Q)
            <$> parseInt2 (String.append (parseDecToBinary headingMsb)
                                         (parseDecToBinary headingLsb))).
Proof. reflexivity. Qed.

End Heading.

(** Whether the heading is the big-endian value of the two bytes depends on
    the helper.  With eight digits for each byte it is, for every pair of
    bytes; *)
Lemma heading_with_eight_digits
    (u : option string)
    (leftDir leftDeltaTicks rightDir rightDeltaTicks headingMsb headingLsb : Z) :
  byte headingMsb -> byte headingLsb ->
  heading
    <$> odometry binary_digits8 u
          [leftDir; leftDeltaTicks; rightDir; rightDeltaTicks;
           headingMsb; headingLsb]
  = Some (Some (big_endian16 headingMsb headingLsb # 100)%Q).
Proof.
  intros Hm Hl. rewrite heading_reads_the_concatenation.
  now rewrite parseInt2_two_bytes.
Qed.

(** with the digits as they are it is not: the bytes 1 and 1 read 3, not
    257. *)
Lemma heading_with_bare_digits (u : option string) :
  heading <$> odometry binary_digits u [1; 10; 0; 5; 1; 1]
  = Some (Some (3 # 100)%Q)
  /\ big_endian16 1 1 = 257.
Proof. split; reflexivity. Qed.

Section Ticks.
Variable parseDecToBinary : Z -> string.
Variable parseDecToBinary_undefined : option string.

(** C4: for every six-byte payload the decoder gives
    [leftTicks = leftDeltaTicks * (-1 if leftDir = 0, else leftDir)], and
    the same for the right side; the payload
    [[1, 10, 0, 5, headingMsb, headingLsb]] gives [leftTicks = 10] and
    [rightTicks = -5].  This holds whatever the helper used for the heading
    returns. *)
Theorem odometry_ticks_sign_rule
    (leftDir leftDeltaTicks rightDir rightDeltaTicks headingMsb headingLsb : Z) :
  leftTicks
    <$> odometry parseDecToBinary parseDecToBinary_undefined
          [leftDir; leftDeltaTicks; rightDir; rightDeltaTicks;
           headingMsb; headingLsb]
  = Some (VNum (leftDeltaTicks * direction_factor leftDir))
  /\ rightTicks
       <$> odometry parseDecToBinary parseDecToBinary_undefined
             [leftDir; leftDeltaTicks; rightDir; rightDeltaTicks;
              headingMsb; headingLsb]
     = Some (VNum (rightDeltaTicks * direction_factor rightDir))
  /\ leftTicks
       <$> odometry parseDecToBinary parseDecToBinary_undefined
             [1; 10; 0; 5; headingMsb; headingLsb]
     = Some (VNum 10)
  /\ rightTicks
       <$> odometry parseDecToBinary parseDecToBinary_undefined
             [1; 10; 0; 5; headingMsb; headingLsb]
     = Some (VNum (-5)).
Proof.
  unfold odometry, binary_of, direction_factor, Js.or, index; cbn.
  split; [destruct (leftDir =? 0); reflexivity|].
  split; [destruct (rightDir =? 0); reflexivity|].
  split; reflexivity.
Qed.

(** C10: a direction byte that is neither 0 nor 1 is itself the factor:
    the tick value is the delta times the raw direction byte, on the left
    and on the right side alike (a direction byte 2 doubles the delta). *)
Theorem odometry_raw_direction_factor
    (dir delta otherDir otherDelta headingMsb headingLsb : Z) :
  dir <> 0 -> dir <> 1 ->
  leftTicks
    <$> odometry parseDecToBinary parseDecToBinary_undefined
          [dir; delta; otherDir; otherDelta; headingMsb; headingLsb]
  = Some (VNum (delta * dir))
  /\ rightTicks
       <$> odometry parseDecToBinary parseDecToBinary_undefined
             [otherDir; otherDelta; dir; delta; headingMsb; headingLsb]
     = Some (VNum (delta * dir)).
Proof.
  intros H0 _. unfold odometry, binary_of, Js.or, index; cbn.
  apply Z.eqb_neq in H0. rewrite H0. cbn. split; reflexivity.
Qed.

End Ticks.

(** A direction byte 2 turns a delta of 10 into 20 ticks. *)
Lemma odometry_raw_direction_factor_witness :
  2 <> 0 /\ 2 <> 1
  /\ leftTicks <$> odometry binary_digits8 None [2; 10; 1; 5; 0; 0]
     = Some (VNum 20)
  /\ rightTicks <$> odometry binary_digits8 None [1; 5; 2; 10; 0; 0]
     = Some (VNum 20).
Proof.
  split; [lia|]. split; [lia|].
  apply (odometry_raw_direction_factor binary_digits8 None 2 10 1 5 0 0); lia.
Defined.

End OdometryFacts.

(** ** The frame codec *)
Module CobsFacts.
Import Cobs.

Lemma stuff_go_no_delimiter buf : forall run,
  no_delimiter run -> no_delimiter (stuff_go buf run).
Proof.
  unfold no_delimiter, delimiter.
  induction buf as [|b rest IH]; intros run Hrun; cbn [stuff_go];
    unfold delimiter.
  - constructor; [lia | exact Hrun].
  - destruct (Z.eqb_spec b 0) as [->|Hb].
    + constructor; [lia|]. apply Forall_app. split; [exact Hrun|].
      apply IH. constructor.
    + assert (Hrun' : Forall (fun b => b <> 0) (run ++ [b])).
      { apply Forall_app. split; [exact Hrun|]. constructor; [exact Hb|constructor]. }
      destruct (Z.eqb_spec (Z.of_nat (length run) + 2) 255).
      * constructor; [lia|]. apply Forall_app. split; [exact Hrun'|].
        apply IH. constructor.
      * apply IH. exact Hrun'.
Qed.

Lemma unstuff_run run : forall rest k z,
  no_delimiter run ->
  unstuff (run ++ rest) (length run + k) z = (run ++.) <$> unstuff rest k z.
Proof.
  unfold no_delimiter, delimiter.
  induction run as [|b run IH]; intros rest k z Hrun.
  - cbn. destruct (unstuff rest k z); reflexivity.
  - inversion Hrun as [|? ? Hb Hrun']; subst.
    cbn [app length Nat.add unstuff]. apply Z.eqb_neq in Hb. 
    change 0 with delimiter in Hb. unfold delimiter in *. rewrite Hb.
    rewrite IH by exact Hrun'.
    destruct (unstuff rest k z); reflexivity.
Qed.

Lemma unstuff_stuff_go buf : forall run z,
  no_delimiter run -> (length run <= 253)%nat ->
  unstuff (stuff_go buf run) 0 z
  = Some ((if z then [delimiter] else []) ++ run ++ buf).
Proof.
  induction buf as [|b rest IH]; intros run z Hrun Hlen; cbn [stuff_go].
  - cbn [unstuff]. unfold delimiter at 1.
    replace (Z.of_nat (length run) + 1 =? 0) with false by lia.
    replace (Z.to_nat (Z.of_nat (length run) + 1 - 1)) with (length run + 0)%nat by lia.
    rewrite <- (app_nil_r run) at 1. rewrite unstuff_run by exact Hrun.
    cbn. rewrite app_nil_r. destruct z; reflexivity.
  - destruct (Z.eqb_spec b delimiter) as [->|Hb].
    + cbn [unstuff]. unfold delimiter at 1.
      replace (Z.of_nat (length run) + 1 =? 0) with false by lia.
      replace (Z.to_nat (Z.of_nat (length run) + 1 - 1)) with (length run + 0)%nat by lia.
      rewrite unstuff_run by exact Hrun.
      replace (Z.of_nat (length run) + 1 <? 255) with true by lia.
      rewrite IH; [|constructor|cbn; lia].
      cbn. destruct z; reflexivity.
    + assert (Hrun' : no_delimiter (run ++ [b])).
      { apply Forall_app. split; [exact Hrun|]. constructor; [exact Hb|constructor]. }
      destruct (Z.eqb_spec (Z.of_nat (length run) + 2) 255) as [Hfull|Hnot].
      * cbn [unstuff]. unfold delimiter at 1. cbn [Z.eqb].
        replace (Z.to_nat (255 - 1)) with (length (run ++ [b]) + 0)%nat
          by (rewrite length_app; cbn; lia).
        rewrite unstuff_run by exact Hrun'.
        rewrite IH; [|constructor|cbn; lia].
        cbn. rewrite <- app_assoc. destruct z; reflexivity.
      * rewrite IH; [|exact Hrun'|rewrite length_app; cbn; lia].
        rewrite <- app_assoc. reflexivity.
Qed.

Lemma skip_delimiters_head b l :
  b <> delimiter -> skip_delimiters (b :: l) = b :: l.
Proof. intros Hb. cbn. apply Z.eqb_neq in Hb. now rewrite Hb. Qed.

Lemma unframe_framed l :
  no_delimiter l -> unframe (delimiter :: l ++ [delimiter]) = l.
Proof.
  intros Hl. unfold unframe. cbn [skip_delimiters]. rewrite Z.eqb_refl.
  destruct l as [|x l]; [reflexivity|].
  inversion Hl as [|? ? Hx Hl']; subst.
  rewrite <- app_comm_cons, skip_delimiters_head by exact Hx.
  rewrite app_comm_cons, rev_app_distr. cbn [rev app skip_delimiters].
  rewrite Z.eqb_refl.
  destruct (rev l ++ [x]) as [|y t] eqn:E.
  - destruct (rev l); discriminate.
  - assert (Hy : y <> delimiter).
    { assert (Hin : In y (x :: l)).
      { apply in_rev. cbn [rev]. rewrite E. left; reflexivity. }
      unfold no_delimiter in Hl. rewrite Forall_forall in Hl. apply Hl. apply list_elem_of_In. exact Hin. }
    rewrite skip_delimiters_head by exact Hy.
    rewrite <- E. change (rev l ++ [x]) with (rev (x :: l)). apply rev_involutive.
Qed.

Example encode_with_delimiter :
  encode [0x11; 0x22; 0x00; 0x33] true = [0; 3; 0x11; 0x22; 2; 0x33; 0].
Proof. reflexivity. Qed.

Example encode_empty : encode [] true = [0; 1; 0].
Proof. reflexivity. Qed.

(** The frame invariant: the delimiter occurs in an encoded frame at its
    two ends only. *)
Lemma encode_no_inner_delimiter (p : list Z) :
  exists body, encode p true = delimiter :: body ++ [delimiter]
               /\ no_delimiter body.
Proof.
  exists (stuff p). split; [reflexivity|].
  apply stuff_go_no_delimiter. constructor.
Qed.

(** C1: for every payload [p], the empty one and those holding the
    delimiter's value included, decoding the encoding of [p] gives [p]
    back. *)
Theorem decode_encode (p : list Z) :
  decode (encode p true) = inl p
  /\ decode (encode [] true) = inl []
  /\ decode (encode (delimiter :: p ++ [delimiter]) true)
     = inl (delimiter :: p ++ [delimiter]).
Proof.
  assert (H : forall p, decode (encode p true) = inl p);
    [clear p; intros p|now rewrite !H].
  unfold decode, encode.
  rewrite unframe_framed by (apply stuff_go_no_delimiter; constructor).
  unfold stuff. rewrite unstuff_stuff_go; [|constructor|cbn; lia].
  reflexivity.
Qed.

End CobsFacts.

(** ** The controller *)
Module ControllerFacts.
Import Controller.

(** ** Counting registrations *)

Arguments occurrences : simpl never.
Arguments occ : simpl never.

Section Occurrences.
Context {A : Type} `{EqDecision A}.
Implicit Types (x y : A) (l : list A).

Lemma occurrences_nil x : occurrences x [] = O.
Proof. reflexivity. Qed.

Lemma occurrences_cons x y l :
  occurrences x (y :: l)
  = ((if decide (y = x) then 1 else 0) + occurrences x l)%nat.
Proof.
  unfold occurrences. rewrite filter_cons.
  destruct (decide (y = x)); reflexivity.
Qed.

Lemma occurrences_app x l1 l2 :
  occurrences x (l1 ++ l2) = (occurrences x l1 + occurrences x l2)%nat.
Proof. unfold occurrences. now rewrite filter_app, length_app. Qed.

Lemma occurrences_rev x l : occurrences x (rev l) = occurrences x l.
Proof.
  induction l as [|y l IH]; [reflexivity|].
  cbn [rev]. rewrite occurrences_app, IH, !occurrences_cons, occurrences_nil.
  lia.
Qed.

Lemma occurrences_delete_ne x y l i :
  l !! i = Some y -> y <> x -> occurrences x (delete i l) = occurrences x l.
Proof.
  revert i. induction l as [|z l IH]; intros [|i] Hi Hne; try discriminate.
  - cbn in Hi. injection Hi as ->. cbn [delete list_delete].
    rewrite occurrences_cons. destruct (decide (y = x)); [contradiction|reflexivity].
  - cbn in Hi. cbn [delete list_delete]. rewrite !occurrences_cons.
    f_equal. now apply IH with (i := i).
Qed.

Lemma occurrences_zero_not_in x l : occurrences x l = O -> x ∉ l.
Proof.
  induction l as [|y l IH]; intros Hz Hin.
  - inversion Hin.
  - rewrite occurrences_cons in Hz. destruct (decide (y = x)) as [->|Hne].
    + discriminate.
    + apply elem_of_cons in Hin as [->|Hin]; [congruence|]. now apply IH.
Qed.

End Occurrences.

Lemma occurrences_remove_first_ne (x y : event * callback) (l : emitter) :
  x <> y -> occurrences y (remove_first x l) = occurrences y l.
Proof.
  intros Hne. induction l as [|z l IH]; [reflexivity|].
  cbn [remove_first]. destruct (decide (x = z)) as [<-|Hz].
  - rewrite occurrences_cons. destruct (decide (x = y)); [contradiction|reflexivity].
  - rewrite !occurrences_cons, IH. reflexivity.
Qed.

Lemma occurrences_remove_first_eq (x : event * callback) (l : emitter) :
  occurrences x (remove_first x l) = Nat.pred (occurrences x l).
Proof.
  induction l as [|z l IH]; [reflexivity|].
  cbn [remove_first]. destruct (decide (x = z)) as [<-|Hz].
  - rewrite occurrences_cons. destruct (decide (x = x)); [reflexivity|contradiction].
  - rewrite !occurrences_cons, IH.
    destruct (decide (z = x)); [congruence|]. reflexivity.
Qed.

Lemma occurrences_off_ne e cb e' cb' (em : emitter) :
  (e, cb) <> (e', cb') ->
  occurrences (e', cb') (off e cb em) = occurrences (e', cb') em.
Proof.
  intros Hne. unfold off.
  now rewrite occurrences_rev, occurrences_remove_first_ne, occurrences_rev.
Qed.

Lemma occurrences_off_eq e cb (em : emitter) :
  occurrences (e, cb) (off e cb em) = Nat.pred (occurrences (e, cb) em).
Proof.
  unfold off.
  now rewrite occurrences_rev, occurrences_remove_first_eq, occurrences_rev.
Qed.

Lemma occurrences_on e cb e' cb' (em : emitter) :
  occurrences (e', cb') (on e cb em)
  = (occurrences (e', cb') em
     + if decide ((e, cb) = (e', cb')) then 1 else 0)%nat.
Proof.
  unfold on. rewrite occurrences_app, occurrences_cons, occurrences_nil.
  destruct (decide ((e, cb) = (e', cb'))); lia.
Qed.

(** ** What a computation leaves alone *)

(** [same_for] is a preorder. *)
Lemma same_for_refl p s : same_for p s s.
Proof. unfold same_for. auto. Qed.

Lemma same_for_trans p s1 s2 s3 :
  same_for p s1 s2 -> same_for p s2 s3 -> same_for p s1 s3.
Proof.
  intros (Ha & Hb & Hc & Hd) (Ha' & Hb' & Hc' & Hd'). repeat split.
  - congruence.
  - intros o. rewrite Hb'. apply Hb.
  - intros pl cb Hcb. rewrite Hc' by exact Hcb. now apply Hc.
  - lia.
Qed.

Lemma keeps_ret {A} p (a : A) : keeps p (ret a).
Proof. intros s _. apply same_for_refl. Qed.

Lemma keeps_throw {A} p : keeps p (@throw A).
Proof. intros s _. apply same_for_refl. Qed.

Lemma grows_ret {A} (a : A) : grows (ret a).
Proof. intros s. cbn. lia. Qed.

Lemma grows_throw {A} : grows (@throw A).
Proof. intros s. cbn. lia. Qed.

Lemma grows_bind {A B} (m : M A) (k : A -> M B) :
  grows m -> (forall a, grows (k a)) -> grows (bind m k).
Proof.
  intros Hm Hk s. unfold bind. specialize (Hm s).
  destruct (m s) as [a s1|s1]; cbn [final] in *; [|exact Hm].
  specialize (Hk a s1). lia.
Qed.

Lemma keeps_bind {A B} p (m : M A) (k : A -> M B) :
  grows m -> (forall a, grows (k a)) ->
  keeps p m -> (forall a, keeps p (k a)) -> keeps p (bind m k).
Proof.
  intros Gm Gk Hm Hk s Hp. unfold bind in *.
  specialize (Hm s). specialize (Gm s).
  destruct (m s) as [a s1|s1]; cbn [final] in *; [|exact (Hm Hp)].
  specialize (Hk a s1). specialize (Gk a s1).
  assert (Hp1 : not_made p s s1) by (unfold not_made in *; lia).
  assert (Hp2 : not_made p s1 (final (k a s1))) by (unfold not_made in *; lia).
  eapply same_for_trans; eauto.
Qed.

(** *** The operations on the store, one by one *)

Ltac split_same_for := unfold same_for; refine (conj _ (conj _ (conj _ _))).

Lemma occ_ext pl cb s s' :
  timers s' = timers s -> parsers s' = parsers s ->
  (forall q, port_listeners <$> ports s' !! q = port_listeners <$> ports s !! q) ->
  occ pl cb s' = occ pl cb s.
Proof.
  intros Ht Hp Hq. destruct pl as [|r e|q e]; unfold occ.
  - now rewrite Ht.
  - now rewrite Hp.
  - specialize (Hq q).
    destruct (ports s' !! q), (ports s !! q); cbn in Hq; congruence.
Qed.

Lemma lookup_alter_port_listeners (f : serial_port -> serial_port)
    (q q' : nat) (l : list serial_port) :
  (forall po, port_listeners (f po) = port_listeners po) ->
  port_listeners <$> alter f q l !! q' = port_listeners <$> l !! q'.
Proof.
  intros Hf. destruct (decide (q = q')) as [->|Hne].
  - rewrite list_lookup_alter_eq. destruct (l !! q'); cbn; [|reflexivity].
    now rewrite Hf.
  - now rewrite list_lookup_alter_ne.
Qed.

Lemma alter_match {B} (f : B -> B) (g : B -> nat) (l : list B) (r r' : nat) :
  (forall x, g (f x) = g x) ->
  match alter f r l !! r' with Some y => g y | None => O end
  = match l !! r' with Some y => g y | None => O end.
Proof.
  intros Hg. destruct (decide (r = r')) as [->|Hne].
  - rewrite list_lookup_alter_eq. destruct (l !! r'); cbn; [apply Hg|reflexivity].
  - now rewrite list_lookup_alter_ne.
Qed.

Lemma keeps_settle p o p' : p' <> p -> keeps p (settle o p').
Proof.
  intros Hne s Hp. unfold settle, modify. cbn. split_same_for; cbn.
  - now rewrite list_lookup_alter_ne.
  - intros o'. rewrite occurrences_app, occurrences_cons, occurrences_nil.
    destruct (decide ((p', o) = (p, o'))); [congruence|lia].
  - intros pl cb _. now apply occ_ext.
  - now rewrite length_alter.
Qed.

Lemma keeps_setTimeout p cb d :
  cb_handle cb <> Some p -> keeps p (setTimeout cb d).
Proof.
  intros Hne s Hp. unfold setTimeout, modify. cbn. split_same_for; cbn; auto.
  intros pl cb' Hcb'. destruct pl; unfold occ; cbn; try reflexivity.
  rewrite map_app, occurrences_app. cbn [map snd].
  rewrite occurrences_cons, occurrences_nil.
  destruct (decide (cb = cb')); [congruence|lia].
Qed.

Lemma keeps_port_write p bytes : keeps p (port_write bytes).
Proof.
  intros s Hp. unfold port_write. destruct (port s) as [q|]; cbn;
    [|apply same_for_refl].
  split_same_for; cbn; auto. intros pl cb _. apply occ_ext; cbn; auto.
  intros q'. now apply lookup_alter_port_listeners.
Qed.

Lemma keeps_port_pipe p : keeps p port_pipe.
Proof.
  intros s Hp. unfold port_pipe.
  destruct (port s) as [q|], (parser s) as [r|]; cbn;
    try apply same_for_refl.
  split_same_for; cbn; auto. intros pl cb _. apply occ_ext; cbn; auto.
  intros q'. now apply lookup_alter_port_listeners.
Qed.

Lemma keeps_port_flush p : keeps p port_flush.
Proof.
  intros s Hp. unfold port_flush. destruct (port s) as [q|]; cbn;
    [|apply same_for_refl].
  split_same_for; cbn; auto. intros pl cb _. apply occ_ext; cbn; auto.
  intros q'. now apply lookup_alter_port_listeners.
Qed.

Lemma keeps_port_on p e cb :
  cb_handle cb <> Some p -> keeps p (port_on e cb).
Proof.
  intros Hne s Hp. unfold port_on. destruct (port s) as [q|]; cbn;
    [|apply same_for_refl].
  split_same_for; cbn; auto. intros pl cb' Hcb'.
  destruct pl as [|r' e'|q' e']; unfold occ; cbn; try reflexivity.
  apply (alter_match _ (fun po => occurrences (e', cb') (port_listeners po))).
  intros po. cbn. rewrite occurrences_on.
  destruct (decide ((e, cb) = (e', cb'))); [congruence|lia].
Qed.

Lemma keeps_parser_on p e cb :
  cb_handle cb <> Some p -> keeps p (parser_on e cb).
Proof.
  intros Hne s Hp. unfold parser_on. destruct (parser s) as [r|]; cbn;
    [|apply same_for_refl].
  split_same_for; cbn; auto. intros pl cb' Hcb'.
  destruct pl as [|r' e'|q' e']; unfold occ; cbn; try reflexivity.
  apply (alter_match _ (fun em => occurrences (e', cb') em)).
  intros em. rewrite occurrences_on.
  destruct (decide ((e, cb) = (e', cb'))); [congruence|lia].
Qed.

Lemma keeps_parser_off p e cb :
  cb_handle cb <> Some p -> keeps p (parser_off e cb).
Proof.
  intros Hne s Hp. unfold parser_off. destruct (parser s) as [r|]; cbn;
    [|apply same_for_refl].
  split_same_for; cbn; auto. intros pl cb' Hcb'.
  destruct pl as [|r' e'|q' e']; unfold occ; cbn; try reflexivity.
  apply (alter_match _ (fun em => occurrences (e', cb') em)).
  intros em. apply occurrences_off_ne. congruence.
Qed.

Lemma lookup_snoc_occ {B} (f : B -> nat) (l : list B) (x : B) i :
  f x = O ->
  match (l ++ [x]) !! i with Some y => f y | None => O end
  = match l !! i with Some y => f y | None => O end.
Proof.
  intros Hx. destruct (lt_eq_lt_dec i (length l)) as [[Hlt| ->]|Hgt].
  - now rewrite lookup_app_l.
  - rewrite list_lookup_middle by reflexivity.
    now rewrite (lookup_ge_None_2 l (length l)) by lia.
  - rewrite !lookup_ge_None_2; [reflexivity|lia|rewrite length_app; cbn; lia].
Qed.

Lemma keeps_assign_new_SerialPort p : keeps p assign_new_SerialPort.
Proof.
  intros s Hp. unfold assign_new_SerialPort, modify. cbn.
  split_same_for; cbn; auto. intros pl cb _.
  destruct pl as [|r' e'|q' e']; unfold occ; cbn; try reflexivity.
  apply (lookup_snoc_occ (fun po => occurrences (e', cb) (port_listeners po))).
  reflexivity.
Qed.

Lemma keeps_assign_new_Parser p : keeps p assign_new_Parser.
Proof.
  intros s Hp. unfold assign_new_Parser, modify. cbn.
  split_same_for; cbn; auto. intros pl cb _.
  destruct pl as [|r' e'|q' e']; unfold occ; cbn; try reflexivity.
  apply (lookup_snoc_occ (fun em => occurrences (e', cb) em)).
  reflexivity.
Qed.

Lemma grows_modify f :
  (forall s, (length (promises s) <= length (promises (f s)))%nat) ->
  grows (modify f).
Proof. intros Hf s. apply Hf. Qed.

Lemma grows_settle o p : grows (settle o p).
Proof. intros s. cbn. now rewrite length_alter. Qed.

Lemma grows_setTimeout cb d : grows (setTimeout cb d).
Proof. intros s. cbn. lia. Qed.

Lemma grows_port_write bytes : grows (port_write bytes).
Proof. intros s. unfold port_write. destruct (port s); cbn; lia. Qed.

Lemma grows_port_pipe : grows port_pipe.
Proof.
  intros s. unfold port_pipe. destruct (port s), (parser s); cbn; lia.
Qed.

Lemma grows_port_flush : grows port_flush.
Proof. intros s. unfold port_flush. destruct (port s); cbn; lia. Qed.

Lemma grows_port_on e cb : grows (port_on e cb).
Proof. intros s. unfold port_on. destruct (port s); cbn; lia. Qed.

Lemma grows_parser_on e cb : grows (parser_on e cb).
Proof. intros s. unfold parser_on. destruct (parser s); cbn; lia. Qed.

Lemma grows_parser_off e cb : grows (parser_off e cb).
Proof. intros s. unfold parser_off. destruct (parser s); cbn; lia. Qed.

Lemma grows_assign_new_SerialPort : grows assign_new_SerialPort.
Proof. intros s. cbn. lia. Qed.

Lemma grows_assign_new_Parser : grows assign_new_Parser.
Proof. intros s. cbn. lia. Qed.

(** A new promise is one more promise. *)
Lemma new_Promise_length executor s :
  (forall q, grows (executor q)) ->
  (S (length (promises s))
   <= length (promises (final (new_Promise executor s))))%nat.
Proof.
  intros Hex. unfold new_Promise.
  set (s0 := set_promises (promises s ++ [Pending]) s).
  assert (H0 : length (promises s0) = S (length (promises s))).
  { cbn. rewrite length_app. cbn. lia. }
  specialize (Hex (length (promises s)) s0).
  destruct (executor (length (promises s)) s0) as [[] s1|s1];
    cbn [final] in *; [lia|].
  cbn. rewrite length_alter. lia.
Qed.

Lemma grows_new_Promise executor :
  (forall q, grows (executor q)) -> grows (new_Promise executor).
Proof.
  intros Hex s. pose proof (new_Promise_length executor s Hex). lia.
Qed.

Lemma keeps_new_Promise p (executor : handle -> M unit) :
  (forall q, grows (executor q)) ->
  (forall q, q <> p -> keeps p (executor q)) ->
  keeps p (new_Promise executor).
Proof.
  intros Gex Hex s Hp.
  pose proof (new_Promise_length executor s Gex) as Hlen.
  assert (Hq : length (promises s) <> p) by (unfold not_made in Hp; lia).
  unfold new_Promise in *.
  set (s0 := set_promises (promises s ++ [Pending]) s) in *.
  assert (H0 : same_for p s s0).
  { split_same_for; cbn; auto.
    - destruct (decide (p < length (promises s))%nat).
      + now rewrite lookup_app_l.
      + rewrite !lookup_ge_None_2; [reflexivity|lia|].
        rewrite length_app. cbn. lia.
    - rewrite length_app. lia. }
  assert (Hl0 : length (promises s0) = S (length (promises s))).
  { cbn. rewrite length_app. cbn. lia. }
  specialize (Hex (length (promises s)) Hq s0).
  specialize (Gex (length (promises s)) s0).
  destruct (executor (length (promises s)) s0) as [[] s1|s1];
    cbn [final] in *.
  - eapply same_for_trans; [exact H0|]. apply Hex.
    unfold not_made in *. lia.
  - assert (Hl1 : length (promises (final (settle Rejected (length (promises s)) s1)))
                  = length (promises s1)) by (cbn; now rewrite length_alter).
    eapply same_for_trans; [exact H0|].
    eapply same_for_trans; [apply Hex; unfold not_made in *; lia|].
    apply (keeps_settle p Rejected (length (promises s)) Hq).
    unfold not_made in *. lia.
Qed.

Lemma grows_call cb : grows (call cb).
Proof.
  destruct cb; cbn [call].
  - apply grows_settle.
  - apply grows_settle.
  - apply grows_bind; [apply grows_parser_off|intros _; apply grows_settle].
  - intros s. cbn. lia.
  - apply grows_port_flush.
Qed.

Lemma grows_call_all cbs : grows (call_all cbs).
Proof.
  induction cbs as [|cb cbs IH]; cbn [call_all].
  - apply grows_ret.
  - apply grows_bind; [apply grows_call|intros _; exact IH].
Qed.

Lemma keeps_call p cb : cb_handle cb <> Some p -> keeps p (call cb).
Proof.
  intros Hne. destruct cb as [p'|p'|p'|e|]; cbn [call].
  - apply keeps_settle. cbn in Hne. congruence.
  - apply keeps_settle. cbn in Hne. congruence.
  - apply keeps_bind;
      [apply grows_parser_off|intros _; apply grows_settle
      |now apply keeps_parser_off|intros _].
    apply keeps_settle. cbn in Hne. congruence.
  - intros s Hp. unfold modify. cbn. split_same_for; cbn; auto.
  - apply keeps_port_flush.
Qed.

Lemma keeps_call_all p cbs :
  Forall (fun cb => cb_handle cb <> Some p) cbs -> keeps p (call_all cbs).
Proof.
  induction 1 as [|cb cbs Hcb _ IH]; cbn [call_all].
  - apply keeps_ret.
  - apply keeps_bind;
      [apply grows_call|intros _; apply grows_call_all
      |now apply keeps_call|intros _; exact IH].
Qed.

(** *** The commands and [init], by combination *)

Ltac solve_grows :=
  repeat lazymatch goal with
    | |- grows (bind _ _) => apply grows_bind; [|intros ?]
    | |- grows (ret _) => apply grows_ret
    | |- grows throw => apply grows_throw
    | |- grows (settle _ _) => apply grows_settle
    | |- grows (setTimeout _ _) => apply grows_setTimeout
    | |- grows (port_write _) => apply grows_port_write
    | |- grows port_pipe => apply grows_port_pipe
    | |- grows port_flush => apply grows_port_flush
    | |- grows (port_on _ _) => apply grows_port_on
    | |- grows (parser_on _ _) => apply grows_parser_on
    | |- grows (parser_off _ _) => apply grows_parser_off
    | |- grows assign_new_SerialPort => apply grows_assign_new_SerialPort
    | |- grows assign_new_Parser => apply grows_assign_new_Parser
    | |- grows (new_Promise _) => apply grows_new_Promise; intros ?
    | |- grows (if ?b then _ else _) => destruct b
    end.

Ltac solve_keeps :=
  repeat lazymatch goal with
    | |- keeps _ (bind _ _) =>
        apply keeps_bind; [solve_grows|intros ?; solve_grows| |intros ?]
    | |- keeps _ (ret _) => apply keeps_ret
    | |- keeps _ throw => apply keeps_throw
    | |- keeps _ (settle _ _) => apply keeps_settle; congruence
    | |- keeps _ (setTimeout _ _) => apply keeps_setTimeout; cbn; congruence
    | |- keeps _ (port_write _) => apply keeps_port_write
    | |- keeps _ port_pipe => apply keeps_port_pipe
    | |- keeps _ port_flush => apply keeps_port_flush
    | |- keeps _ (port_on _ _) => apply keeps_port_on; cbn; congruence
    | |- keeps _ (parser_on _ _) => apply keeps_parser_on; cbn; congruence
    | |- keeps _ assign_new_SerialPort => apply keeps_assign_new_SerialPort
    | |- keeps _ assign_new_Parser => apply keeps_assign_new_Parser
    | |- keeps _ (new_Promise _) =>
        apply keeps_new_Promise; [intros ?; solve_grows|intros ? ?]
    | |- keeps _ (if ?b then _ else _) => destruct b
    end.

Lemma grows_reject_if_open p :
  grows (fun s => match port s with
                  | Some _ => setTimeout (Reject p) 0 s
                  | None => Ok tt s
                  end).
Proof. intros s. destruct (port s); cbn; lia. Qed.

Lemma keeps_reject_if_open p q :
  q <> p ->
  keeps p (fun s => match port s with
                    | Some _ => setTimeout (Reject q) 0 s
                    | None => Ok tt s
                    end).
Proof.
  intros Hq s Hp. destruct (port s) eqn:E.
  - apply (keeps_setTimeout p (Reject q) 0); [cbn; congruence|exact Hp].
  - apply same_for_refl.
Qed.

Lemma grows_init : grows init.
Proof.
  unfold init. apply grows_new_Promise. intros q.
  apply grows_bind; [apply grows_reject_if_open|intros _]. solve_grows.
Qed.

Lemma keeps_init p : keeps p init.
Proof.
  unfold init. apply keeps_new_Promise.
  - intros q. apply grows_bind; [apply grows_reject_if_open|intros _].
    solve_grows.
  - intros q Hq.
    apply keeps_bind;
      [apply grows_reject_if_open|intros _; solve_grows
      |now apply keeps_reject_if_open|intros _].
    solve_keeps.
Qed.

Section Commands.
Variable numberToHex : Z -> Z.
Variable rev : revision.

Lemma grows_run c : grows (run numberToHex rev c).
Proof.
  destruct c; cbn [run]; try destruct rev;
    unfold keepHeading, forward, reverse, rotate, turn, drive, stop, resetIMU,
      targetReached_promise, writeToSerialPort;
    solve_grows.
Qed.

Lemma keeps_run p c : keeps p (run numberToHex rev c).
Proof.
  destruct c; cbn [run]; try destruct rev;
    unfold keepHeading, forward, reverse, rotate, turn, drive, stop, resetIMU,
      targetReached_promise, writeToSerialPort;
    solve_keeps.
Qed.

Lemma occurrences_map_snd_delete (cb cb' : callback) (d : Z)
    (l : list (Z * callback)) (i : nat) :
  l !! i = Some (d, cb) -> cb <> cb' ->
  occurrences cb' (map snd (delete i l)) = occurrences cb' (map snd l).
Proof.
  revert i. induction l as [|[d0 c0] l IH]; intros [|i] Hi Hne;
    try discriminate.
  - cbn in Hi. injection Hi as -> ->. cbn [delete list_delete map snd].
    rewrite occurrences_cons. destruct (decide (cb = cb')); [contradiction|reflexivity].
  - cbn in Hi. cbn [delete list_delete map snd]. rewrite !occurrences_cons.
    f_equal. now apply IH with (i := i).
Qed.

Lemma grows_step a s :
  (length (promises s) <= length (promises (step numberToHex rev a s)))%nat.
Proof.
  destruct a as [c| |r e|q e|i]; cbn [step].
  - apply grows_run.
  - apply grows_init.
  - unfold parser_emit. destruct (parsers s !! r); [|cbn; lia].
    apply grows_call_all.
  - unfold port_emit. destruct (ports s !! q); [|cbn; lia].
    apply grows_call_all.
  - unfold timer_fires. destruct (timers s !! i) as [[d cb]|]; [|cbn; lia].
    apply (grows_call cb (set_timers (delete i (timers s)) s)).
Qed.

Lemma step_same_for p a s :
  not_made p s (step numberToHex rev a s) ->
  Forall (fun cb => cb_handle cb <> Some p) (called a s) ->
  same_for p s (step numberToHex rev a s).
Proof.
  destruct a as [c| |r e|q e|i]; cbn [step called]; intros Hp Hcalled.
  - now apply keeps_run.
  - now apply keeps_init.
  - unfold parser_emit in *. destruct (parsers s !! r); [|apply same_for_refl].
    now apply keeps_call_all.
  - unfold port_emit in *. destruct (ports s !! q); [|apply same_for_refl].
    now apply keeps_call_all.
  - unfold timer_fires in *.
    destruct (timers s !! i) as [[d cb]|] eqn:E; [|apply same_for_refl].
    inversion Hcalled as [|? ? Hcb _]; subst.
    set (s0 := set_timers (delete i (timers s)) s) in *.
    assert (H0 : same_for p s s0).
    { split_same_for; cbn; auto. intros pl cb' Hcb'.
      destruct pl; unfold occ; cbn; try reflexivity.
      apply occurrences_map_snd_delete with (d := d) (cb := cb); [exact E|].
      congruence. }
    eapply same_for_trans; [exact H0|].
    apply keeps_call; [exact Hcb|]. exact Hp.
Qed.

End Commands.

(** ** The two variables *)

Lemma same_vars_refl s : same_vars s s.
Proof. split; reflexivity. Qed.

Lemma same_vars_trans s1 s2 s3 :
  same_vars s1 s2 -> same_vars s2 s3 -> same_vars s1 s3.
Proof. intros [] []. split; congruence. Qed.

Lemma same_vars_set s s' : same_vars s s' -> vars_set s -> vars_set s'.
Proof. intros [Hp Hr] [H1 H2]. split; congruence. Qed.

Lemma steady_ret {A} (a : A) : steady (ret a).
Proof. intros s. apply same_vars_refl. Qed.

Lemma steady_throw {A} : steady (@throw A).
Proof. intros s. apply same_vars_refl. Qed.

Lemma steady_bind {A B} (m : M A) (k : A -> M B) :
  steady m -> (forall a, steady (k a)) -> steady (bind m k).
Proof.
  intros Hm Hk s. unfold bind. specialize (Hm s).
  destruct (m s) as [a s1|s1]; cbn [final] in *; [|exact Hm].
  eapply same_vars_trans; [exact Hm|apply Hk].
Qed.

Lemma steady_settle o p : steady (settle o p).
Proof. intros s. split; reflexivity. Qed.

Lemma steady_setTimeout cb d : steady (setTimeout cb d).
Proof. intros s. split; reflexivity. Qed.

Lemma steady_port_write bytes : steady (port_write bytes).
Proof. intros s. unfold port_write. destruct (port s); split; reflexivity. Qed.

Lemma steady_port_flush : steady port_flush.
Proof. intros s. unfold port_flush. destruct (port s); split; reflexivity. Qed.

Lemma steady_parser_on e cb : steady (parser_on e cb).
Proof. intros s. unfold parser_on. destruct (parser s); split; reflexivity. Qed.

Lemma steady_parser_off e cb : steady (parser_off e cb).
Proof. intros s. unfold parser_off. destruct (parser s); split; reflexivity. Qed.

Lemma steady_new_Promise executor :
  (forall q, steady (executor q)) -> steady (new_Promise executor).
Proof.
  intros Hex s. unfold new_Promise.
  specialize (Hex (length (promises s))
                  (set_promises (promises s ++ [Pending]) s)).
  destruct (executor _ _) as [[] s1|s1]; cbn [final] in *; exact Hex.
Qed.

Lemma steady_call cb : steady (call cb).
Proof.
  destruct cb; cbn [call].
  - apply steady_settle.
  - apply steady_settle.
  - apply steady_bind; [apply steady_parser_off|intros _; apply steady_settle].
  - intros s. split; reflexivity.
  - apply steady_port_flush.
Qed.

Lemma steady_call_all cbs : steady (call_all cbs).
Proof.
  induction cbs as [|cb cbs IH]; cbn [call_all].
  - apply steady_ret.
  - apply steady_bind; [apply steady_call|intros _; exact IH].
Qed.

Lemma steady_port_pipe : steady port_pipe.
Proof.
  intros s. unfold port_pipe. destruct (port s), (parser s); split; reflexivity.
Qed.

Lemma steady_port_on e cb : steady (port_on e cb).
Proof. intros s. unfold port_on. destruct (port s); split; reflexivity. Qed.

Ltac solve_steady :=
  repeat lazymatch goal with
    | |- steady (bind _ _) => apply steady_bind; [|intros ?]
    | |- steady (ret _) => apply steady_ret
    | |- steady throw => apply steady_throw
    | |- steady (settle _ _) => apply steady_settle
    | |- steady (setTimeout _ _) => apply steady_setTimeout
    | |- steady (port_write _) => apply steady_port_write
    | |- steady port_pipe => apply steady_port_pipe
    | |- steady port_flush => apply steady_port_flush
    | |- steady (port_on _ _) => apply steady_port_on
    | |- steady (parser_on _ _) => apply steady_parser_on
    | |- steady (parser_off _ _) => apply steady_parser_off
    | |- steady (new_Promise _) => apply steady_new_Promise; intros ?
    | |- steady (if ?b then _ else _) => destruct b
    end.

Lemma steady_run numberToHex rev c : steady (run numberToHex rev c).
Proof.
  destruct c; cbn [run]; try destruct rev;
    unfold keepHeading, forward, reverse, rotate, turn, drive, stop, resetIMU,
      targetReached_promise, writeToSerialPort;
    solve_steady.
Qed.

(** Calls do not throw once the variables are assigned. *)
Lemma call_ok cb s :
  vars_set s -> exists s', call cb s = Ok tt s'.
Proof.
  intros [[q Hq] [r Hr]].
  destruct cb; cbn [call]; unfold bind, settle, modify, parser_off, port_flush;
    rewrite ?Hr, ?Hq; eauto.
Qed.

Lemma call_all_ok cbs : forall s,
  vars_set s -> exists s', call_all cbs s = Ok tt s'.
Proof.
  induction cbs as [|cb cbs IH]; intros s Hs; cbn [call_all].
  - eexists. reflexivity.
  - unfold bind. destruct (call_ok cb s Hs) as [s1 H1]. rewrite H1.
    apply IH. pose proof (steady_call cb s) as Hv. rewrite H1 in Hv.
    eapply same_vars_set; eauto.
Qed.

Lemma call_all_app cbs1 cbs2 s :
  call_all (cbs1 ++ cbs2) s
  = match call_all cbs1 s with
    | Ok _ s1 => call_all cbs2 s1
    | Throw s1 => Throw s1
    end.
Proof.
  revert s. induction cbs1 as [|cb cbs1 IH]; intros s; cbn [call_all app].
  - reflexivity.
  - unfold bind. destruct (call cb s) as [[] s1|s1]; [apply IH|reflexivity].
Qed.

(** ** The objects the variables refer to *)

Lemma same_objects_refl s : same_objects s s.
Proof. split; reflexivity. Qed.

Lemma same_objects_trans s1 s2 s3 :
  same_objects s1 s2 -> same_objects s2 s3 -> same_objects s1 s3.
Proof. intros [] []. split; lia. Qed.

Lemma keeps_objects_ret {A} (a : A) : keeps_objects (ret a).
Proof. intros s. apply same_objects_refl. Qed.

Lemma keeps_objects_throw {A} : keeps_objects (@throw A).
Proof. intros s. apply same_objects_refl. Qed.

Lemma keeps_objects_bind {A B} (m : M A) (k : A -> M B) :
  keeps_objects m -> (forall a, keeps_objects (k a)) ->
  keeps_objects (bind m k).
Proof.
  intros Hm Hk s. unfold bind. specialize (Hm s).
  destruct (m s) as [a s1|s1]; cbn [final] in *; [|exact Hm].
  eapply same_objects_trans; [exact Hm|apply Hk].
Qed.

Lemma keeps_objects_settle o p : keeps_objects (settle o p).
Proof. intros s. split; reflexivity. Qed.

Lemma keeps_objects_setTimeout cb d : keeps_objects (setTimeout cb d).
Proof. intros s. split; reflexivity. Qed.

Lemma keeps_objects_port_write bytes : keeps_objects (port_write bytes).
Proof.
  intros s. unfold port_write, same_objects.
  destruct (port s); cbn; rewrite ?length_alter; lia.
Qed.

Lemma keeps_objects_port_pipe : keeps_objects port_pipe.
Proof.
  intros s. unfold port_pipe, same_objects.
  destruct (port s), (parser s); cbn; rewrite ?length_alter; lia.
Qed.

Lemma keeps_objects_port_flush : keeps_objects port_flush.
Proof.
  intros s. unfold port_flush, same_objects.
  destruct (port s); cbn; rewrite ?length_alter; lia.
Qed.

Lemma keeps_objects_port_on e cb : keeps_objects (port_on e cb).
Proof.
  intros s. unfold port_on, same_objects.
  destruct (port s); cbn; rewrite ?length_alter; lia.
Qed.

Lemma keeps_objects_parser_on e cb : keeps_objects (parser_on e cb).
Proof.
  intros s. unfold parser_on, same_objects.
  destruct (parser s); cbn; rewrite ?length_alter; lia.
Qed.

Lemma keeps_objects_parser_off e cb : keeps_objects (parser_off e cb).
Proof.
  intros s. unfold parser_off, same_objects.
  destruct (parser s); cbn; rewrite ?length_alter; lia.
Qed.

Lemma keeps_objects_new_Promise executor :
  (forall q, keeps_objects (executor q)) ->
  keeps_objects (new_Promise executor).
Proof.
  intros Hex s. unfold new_Promise.
  specialize (Hex (length (promises s))
                  (set_promises (promises s ++ [Pending]) s)).
  destruct (executor _ _) as [[] s1|s1]; cbn [final] in *; exact Hex.
Qed.

Lemma keeps_objects_call cb : keeps_objects (call cb).
Proof.
  destruct cb; cbn [call].
  - apply keeps_objects_settle.
  - apply keeps_objects_settle.
  - apply keeps_objects_bind;
      [apply keeps_objects_parser_off|intros _; apply keeps_objects_settle].
  - intros s. split; reflexivity.
  - apply keeps_objects_port_flush.
Qed.

Lemma keeps_objects_call_all cbs : keeps_objects (call_all cbs).
Proof.
  induction cbs as [|cb cbs IH]; cbn [call_all].
  - apply keeps_objects_ret.
  - apply keeps_objects_bind; [apply keeps_objects_call|intros _; exact IH].
Qed.

Ltac solve_objects :=
  repeat lazymatch goal with
    | |- keeps_objects (bind _ _) => apply keeps_objects_bind; [|intros ?]
    | |- keeps_objects (ret _) => apply keeps_objects_ret
    | |- keeps_objects throw => apply keeps_objects_throw
    | |- keeps_objects (settle _ _) => apply keeps_objects_settle
    | |- keeps_objects (setTimeout _ _) => apply keeps_objects_setTimeout
    | |- keeps_objects (port_write _) => apply keeps_objects_port_write
    | |- keeps_objects port_pipe => apply keeps_objects_port_pipe
    | |- keeps_objects port_flush => apply keeps_objects_port_flush
    | |- keeps_objects (port_on _ _) => apply keeps_objects_port_on
    | |- keeps_objects (parser_on _ _) => apply keeps_objects_parser_on
    | |- keeps_objects (parser_off _ _) => apply keeps_objects_parser_off
    | |- keeps_objects (new_Promise _) =>
        apply keeps_objects_new_Promise; intros ?
    | |- keeps_objects (if ?b then _ else _) => destruct b
    end.

Lemma keeps_objects_run numberToHex rev c :
  keeps_objects (run numberToHex rev c).
Proof.
  destruct c; cbn [run]; try destruct rev;
    unfold keepHeading, forward, reverse, rotate, turn, drive, stop, resetIMU,
      targetReached_promise, writeToSerialPort;
    solve_objects.
Qed.

Lemma connected_kept s s' :
  same_vars s s' -> same_objects s s' -> connected s -> connected s'.
Proof.
  intros [Hp Hr] [Hlp Hlr] (q & r & po & em & Hq & Hqr & Hpo & Hem).
  apply lookup_lt_Some in Hpo, Hem.
  destruct (lookup_lt_is_Some_2 (ports s') q) as [po' Hpo']; [lia|].
  destruct (lookup_lt_is_Some_2 (parsers s') r) as [em' Hem']; [lia|].
  exists q, r, po', em'. repeat split; congruence.
Qed.

Lemma final_bind {A B} (m : M A) (k : A -> M B) s :
  final (bind m k s)
  = match m s with
    | Ok a s1 => final (k a s1)
    | Throw s1 => s1
    end.
Proof. unfold bind. destruct (m s); reflexivity. Qed.

(** [init] assigns a new port object and a new parser object to the
    variables, whatever they held. *)
Lemma init_assigns s :
  port (final (init s)) = Some (length (ports s))
  /\ parser (final (init s)) = Some (length (parsers s))
  /\ (length (ports s) < length (ports (final (init s))))%nat
  /\ (length (parsers s) < length (parsers (final (init s))))%nat.
Proof.
  unfold init, new_Promise.
  set (p := length (promises s)).
  set (s0 := set_promises (promises s ++ [Pending]) s).
  set (rest := (do _ <- port_pipe; _)).
  assert (Hrest : steady rest) by (subst rest; solve_steady).
  assert (Orest : keeps_objects rest) by (subst rest; solve_objects).
  assert (Hfrom : forall s1,
             ports s1 = ports s -> parsers s1 = parsers s ->
             let s' := final ((do _ <- assign_new_SerialPort;
                               do _ <- assign_new_Parser; rest) s1) in
             port s' = Some (length (ports s))
             /\ parser s' = Some (length (parsers s))
             /\ (length (ports s) < length (ports s'))%nat
             /\ (length (parsers s) < length (parsers s'))%nat).
  { intros s1 Hports Hparsers s'. subst s'.
    unfold bind, assign_new_SerialPort, assign_new_Parser, modify.
    cbv beta iota.
    lazymatch goal with
    | |- context [final (rest ?x)] =>
        destruct (Hrest x) as [Hp Hr]; destruct (Orest x) as [Op Or]
    end.
    rewrite Hp, Hr. cbn in Op, Or |- *.
    rewrite !length_app in Op, Or. cbn in Op, Or.
    rewrite Hports, Hparsers in *. repeat split; lia. }
  assert (Hexec : forall s1,
             s1 = final ((do _ <- (fun s => match port s with
                                            | Some _ => setTimeout (Reject p) 0 s
                                            | None => Ok tt s
                                            end);
                          do _ <- assign_new_SerialPort;
                          do _ <- assign_new_Parser; rest) s0) ->
             port s1 = Some (length (ports s))
             /\ parser s1 = Some (length (parsers s))
             /\ (length (ports s) < length (ports s1))%nat
             /\ (length (parsers s) < length (parsers s1))%nat).
  { intros s1 ->. rewrite final_bind. destruct (port s0).
    - unfold setTimeout, modify. apply Hfrom; reflexivity.
    - apply Hfrom; reflexivity. }
  destruct ((do _ <- _; _) s0) as [[] s1|s1] eqn:E; cbn [final].
  - apply Hexec. reflexivity.
  - unfold settle, modify. cbn. apply Hexec. reflexivity.
Qed.

(** After [init] both variables refer to objects of the store. *)
Lemma init_connected s : connected (final (init s)).
Proof.
  destruct (init_assigns s) as (Hp & Hr & Hlp & Hlr).
  destruct (lookup_lt_is_Some_2 _ _ Hlp) as [po Hpo].
  destruct (lookup_lt_is_Some_2 _ _ Hlr) as [em Hem].
  exists (length (ports s)), (length (parsers s)), po, em. auto.
Qed.

Lemma init_vars_set s : vars_set (final (init s)).
Proof. destruct (init_assigns s) as (Hp & Hr & _). split; eauto. Qed.

Lemma step_vars_set numberToHex rev a s :
  vars_set s -> vars_set (step numberToHex rev a s).
Proof.
  intros Hs. destruct a as [c| |r e|q e|i]; cbn [step].
  - eapply same_vars_set; [apply steady_run|exact Hs].
  - apply init_vars_set.
  - unfold parser_emit. destruct (parsers s !! r); [|exact Hs].
    eapply same_vars_set; [apply steady_call_all|exact Hs].
  - unfold port_emit. destruct (ports s !! q); [|exact Hs].
    eapply same_vars_set; [apply steady_call_all|exact Hs].
  - unfold timer_fires. destruct (timers s !! i) as [[d cb]|]; [|exact Hs].
    eapply same_vars_set;
      [apply (steady_call cb (set_timers (delete i (timers s)) s))|exact Hs].
Qed.

(** Once connected, always connected. *)
Lemma connected_step numberToHex rev a s :
  connected s -> connected (step numberToHex rev a s).
Proof.
  intros Hs. destruct a as [c| |r e|q e|i]; cbn [step].
  - eapply connected_kept; [apply steady_run|apply keeps_objects_run|exact Hs].
  - apply init_connected.
  - unfold parser_emit. destruct (parsers s !! r); [|exact Hs].
    eapply connected_kept;
      [apply steady_call_all|apply keeps_objects_call_all|exact Hs].
  - unfold port_emit. destruct (ports s !! q); [|exact Hs].
    eapply connected_kept;
      [apply steady_call_all|apply keeps_objects_call_all|exact Hs].
  - unfold timer_fires. destruct (timers s !! i) as [[d cb]|]; [|exact Hs].
    eapply connected_kept;
      [apply (steady_call cb (set_timers (delete i (timers s)) s))
      |apply (keeps_objects_call cb (set_timers (delete i (timers s)) s))
      |exact Hs].
Qed.

Lemma connected_run_trace numberToHex rev tr : forall s,
  connected s -> connected (run_trace numberToHex rev tr s).
Proof.
  induction tr as [|a tr IH]; intros s Hs; cbn; [exact Hs|].
  apply IH. now apply connected_step.
Qed.

(** ** What is called is registered *)

Lemma occurrences_pos {A} `{EqDecision A} (x : A) (l : list A) :
  x ∈ l -> (0 < occurrences x l)%nat.
Proof.
  induction l as [|y l IH]; intros Hin.
  - inversion Hin.
  - rewrite occurrences_cons. apply elem_of_cons in Hin as [->|Hin].
    + destruct (decide (y = y)); [lia|contradiction].
    + specialize (IH Hin). lia.
Qed.

Lemma occurrences_listeners e cb (em : emitter) :
  occurrences cb (listeners e em) = occurrences (e, cb) em.
Proof.
  unfold listeners. induction em as [|[e0 c0] em IH]; [reflexivity|].
  rewrite filter_cons. cbn [fst].
  rewrite (occurrences_cons (e, cb)).
  destruct (decide (e0 = e)) as [->|He].
  - cbn [map snd]. rewrite occurrences_cons, IH.
    destruct (decide (c0 = cb)) as [->|Hc].
    + destruct (decide ((e, cb) = (e, cb))); [reflexivity|contradiction].
    + destruct (decide ((e, c0) = (e, cb))); [congruence|reflexivity].
  - rewrite IH. destruct (decide ((e0, c0) = (e, cb))); [congruence|reflexivity].
Qed.

Lemma occurrences_map_snd_lookup (cb : callback) (d : Z)
    (l : list (Z * callback)) (i : nat) :
  l !! i = Some (d, cb) -> (0 < occurrences cb (map snd l))%nat.
Proof.
  revert i. induction l as [|[d0 c0] l IH]; intros [|i] Hi; try discriminate;
    cbn [map snd]; rewrite occurrences_cons.
  - cbn in Hi. injection Hi as -> ->.
    destruct (decide (cb = cb)); [lia|contradiction].
  - cbn in Hi. specialize (IH i Hi). lia.
Qed.

Lemma called_occ a cb s :
  cb ∈ called a s ->
  exists pl, place_of a = Some pl /\ (0 < occ pl cb s)%nat.
Proof.
  destruct a as [c| |r e|q e|i]; cbn [called place_of].
  - intros H. inversion H.
  - intros H. inversion H.
  - destruct (parsers s !! r) as [em|] eqn:E; intros H; [|inversion H].
    eexists. split; [reflexivity|]. unfold occ. rewrite E.
    rewrite <- occurrences_listeners. now apply occurrences_pos.
  - destruct (ports s !! q) as [po|] eqn:E; intros H; [|inversion H].
    eexists. split; [reflexivity|]. unfold occ. rewrite E.
    rewrite <- occurrences_listeners. now apply occurrences_pos.
  - destruct (timers s !! i) as [[d cb']|] eqn:E; intros H; [|inversion H].
    apply list_elem_of_singleton in H as ->.
    eexists. split; [reflexivity|]. unfold occ.
    eapply occurrences_map_snd_lookup; eauto.
Qed.

Lemma sole_lt p pl0 cb0 s :
  sole p pl0 cb0 s -> (p < length (promises s))%nat.
Proof. intros [Hpend _]. now apply lookup_lt_Some in Hpend. Qed.

Section Invariants.
Variable numberToHex : Z -> Z.
Variable rev : revision.

Lemma wf_step a s : wf s -> wf (step numberToHex rev a s).
Proof.
  intros Hwf p Hlen.
  pose proof (grows_step numberToHex rev a s) as Hg.
  assert (Hlen0 : (length (promises s) <= p)%nat) by lia.
  destruct (Hwf p Hlen0) as [Hocc0 Hlog0].
  assert (Hsame : same_for p s (step numberToHex rev a s)).
  { apply step_same_for; [right; exact Hlen|].
    apply Forall_forall. intros cb' Hin Hcb'.
    apply called_occ in Hin as (pl & _ & Hin).
    rewrite (Hocc0 _ _ Hcb') in Hin. lia. }
  destruct Hsame as (_ & Hlog & Hocc & _). split.
  - intros pl cb Hcb. rewrite Hocc by exact Hcb. now apply Hocc0.
  - intros o. rewrite Hlog. apply Hlog0.
Qed.

Lemma wf_initial : wf initial.
Proof.
  intros p _. split; [|reflexivity]. intros pl cb _. destruct pl; reflexivity.
Qed.

Lemma wf_run_trace tr : forall s, wf s -> wf (run_trace numberToHex rev tr s).
Proof.
  induction tr as [|a tr IH]; intros s Hs; cbn; [exact Hs|].
  apply IH. now apply wf_step.
Qed.

Lemma sole_same_for p pl0 cb0 s s' :
  same_for p s s' -> sole p pl0 cb0 s -> sole p pl0 cb0 s'.
Proof.
  intros (Hpr & _ & Hocc & _) [Hpend Hw]. split; [congruence|].
  intros pl cb Hcb. rewrite Hocc by exact Hcb. now apply Hw.
Qed.

Lemma sole_not_called p pl0 cb0 a s :
  sole p pl0 cb0 s -> place_of a <> Some pl0 ->
  Forall (fun cb => cb_handle cb <> Some p) (called a s).
Proof.
  intros [_ Hw] Ha. apply Forall_forall. intros cb Hin Hcb.
  apply called_occ in Hin as (pl & Hpl & Hin). rewrite (Hw _ _ Hcb) in Hin.
  destruct (decide _) as [[-> _]|]; [|lia]. contradiction.
Qed.


Lemma sole_run_trace_same_for p pl0 cb0 tr : forall s,
  sole p pl0 cb0 s -> avoids pl0 tr ->
  same_for p s (run_trace numberToHex rev tr s).
Proof.
  induction tr as [|a tr IH]; intros s Hs Htr; cbn.
  - apply same_for_refl.
  - inversion Htr as [|? ? Ha Htr']; subst.
    assert (H0 : same_for p s (step numberToHex rev a s)).
    { apply step_same_for; [left; eapply sole_lt; eauto|].
      eapply sole_not_called; eauto. }
    eapply same_for_trans; [exact H0|].
    apply IH; [eapply sole_same_for; eauto|exact Htr'].
Qed.

Lemma sole_run_trace p pl0 cb0 tr s :
  sole p pl0 cb0 s -> avoids pl0 tr ->
  sole p pl0 cb0 (run_trace numberToHex rev tr s).
Proof.
  intros Hs Htr. eapply sole_same_for; [|exact Hs].
  now apply sole_run_trace_same_for with (pl0 := pl0) (cb0 := cb0).
Qed.

Lemma step_same_vars a s :
  a <> CallInit -> same_vars s (step numberToHex rev a s).
Proof.
  intros Ha. destruct a as [c| |r e|q e|i]; cbn [step].
  - apply steady_run.
  - contradiction.
  - unfold parser_emit. destruct (parsers s !! r);
      [apply steady_call_all|apply same_vars_refl].
  - unfold port_emit. destruct (ports s !! q);
      [apply steady_call_all|apply same_vars_refl].
  - unfold timer_fires. destruct (timers s !! i) as [[d cb]|];
      [|apply same_vars_refl].
    apply (steady_call cb (set_timers (delete i (timers s)) s)).
Qed.

Lemma run_trace_same_vars tr : forall s,
  no_init tr -> same_vars s (run_trace numberToHex rev tr s).
Proof.
  induction tr as [|a tr IH]; intros s Htr; cbn.
  - apply same_vars_refl.
  - inversion Htr as [|? ? Ha Htr']; subst.
    eapply same_vars_trans; [exact (step_same_vars a s Ha)|now apply IH].
Qed.

Lemma silent_step p a s :
  (p < length (promises s))%nat -> silent p s ->
  same_for p s (step numberToHex rev a s)
  /\ silent p (step numberToHex rev a s).
Proof.
  intros Hp Hs.
  assert (Hsame : same_for p s (step numberToHex rev a s)).
  { apply step_same_for; [left; exact Hp|].
    apply Forall_forall. intros cb Hin Hcb.
    apply called_occ in Hin as (pl & _ & Hin).
    rewrite (Hs _ _ Hcb) in Hin. lia. }
  split; [exact Hsame|].
  intros pl cb Hcb. destruct Hsame as (_ & _ & Hocc & _).
  rewrite Hocc by exact Hcb. now apply Hs.
Qed.

Lemma silent_run_trace p tr : forall s,
  (p < length (promises s))%nat -> silent p s ->
  same_for p s (run_trace numberToHex rev tr s)
  /\ silent p (run_trace numberToHex rev tr s).
Proof.
  induction tr as [|a tr IH]; intros s Hp Hs; cbn.
  - split; [apply same_for_refl|exact Hs].
  - destruct (silent_step p a s Hp Hs) as [Hsame Hs'].
    destruct (IH (step numberToHex rev a s)) as [Hsame' Hs''];
      [destruct Hsame as (_ & _ & _ & Hl); lia|exact Hs'|].
    split; [eapply same_for_trans; eauto|exact Hs''].
Qed.

End Invariants.

(** ** The event a promise waits for *)

Lemma occurrences_one_split {A} `{EqDecision A} (x : A) (l : list A) :
  occurrences x l = 1%nat ->
  exists l1 l2, l = l1 ++ x :: l2
                /\ occurrences x l1 = O /\ occurrences x l2 = O.
Proof.
  induction l as [|y l IH]; intros H1; [discriminate|].
  rewrite occurrences_cons in H1. destruct (decide (y = x)) as [->|Hne].
  - exists [], l. split; [reflexivity|]. split; [reflexivity|lia].
  - destruct (IH H1) as (l1 & l2 & -> & H1' & H2').
    exists (y :: l1), l2. split; [reflexivity|]. split; [|exact H2'].
    rewrite occurrences_cons. destruct (decide (y = x)); [contradiction|exact H1'].
Qed.

Lemma resolutions_settle p s :
  resolutions p (final (settle Resolved p s)) = S (resolutions p s).
Proof.
  unfold resolutions. cbn.
  rewrite occurrences_app, occurrences_cons, occurrences_nil.
  destruct (decide ((p, Resolved) = (p, Resolved))); [lia|contradiction].
Qed.

Lemma call_onTargetReached p r s :
  waiting p r s -> is_Some (parser s) ->
  exists s',
    call (OnTargetReached p) s = Ok tt s'
    /\ promises s' !! p = Some (Settled Resolved)
    /\ resolutions p s' = S (resolutions p s)
    /\ length (promises s') = length (promises s)
    /\ (parser s = Some r -> silent p s').
Proof.
  intros [Hpend Hw] [r0 Hr0]. cbn [call]. unfold bind, parser_off.
  rewrite Hr0. eexists. split; [reflexivity|].
  set (s0 := set_parsers _ s).
  split; [|split; [|split]].
  - cbn. now rewrite list_lookup_alter_eq, Hpend.
  - apply (resolutions_settle p s0).
  - cbn. now rewrite length_alter.
  - intros Hr. assert (r0 = r) as -> by congruence.
    intros pl cb Hcb. specialize (Hw pl cb Hcb).
    destruct pl as [|r' e'|q' e']; unfold occ in *; cbn.
    + destruct (decide _) as [[? _]|]; [discriminate|exact Hw].
    + destruct (decide (r = r')) as [<-|Hr'].
      * rewrite list_lookup_alter_eq.
        destruct (parsers s !! r) as [em|]; cbn; [|reflexivity].
        destruct (decide ((EvTargetReached, OnTargetReached p) = (e', cb)))
          as [Heq|Hneq].
        -- injection Heq as <- <-. rewrite occurrences_off_eq, Hw.
           destruct (decide _) as [|Hn]; [reflexivity|].
           exfalso. apply Hn. split; reflexivity.
        -- rewrite occurrences_off_ne by exact Hneq. rewrite Hw.
           destruct (decide _) as [[Ha Hb]|]; [|reflexivity].
           exfalso. apply Hneq. congruence.
      * rewrite list_lookup_alter_ne by exact Hr'. rewrite Hw.
        destruct (decide _) as [[Ha _]|]; [congruence|reflexivity].
    + destruct (decide _) as [[? _]|]; [discriminate|exact Hw].
Qed.

Section Firing.
Variable numberToHex : Z -> Z.
Variable rev : revision.

Lemma targetReached_fires p r s :
  waiting p r s -> vars_set s ->
  let s' := step numberToHex rev (ParserEmits r EvTargetReached) s in
  promises s' !! p = Some (Settled Resolved)
  /\ resolutions p s' = S (resolutions p s)
  /\ (parser s = Some r -> silent p s').
Proof.
  intros Hw Hv. cbv zeta. cbn [step]. unfold parser_emit.
  pose proof Hw as [Hpend Hocc].
  pose proof (Hocc (OnParser r EvTargetReached) (OnTargetReached p) eq_refl)
    as H1.
  destruct (decide _) as [_|Hn]; [|exfalso; apply Hn; split; reflexivity].
  unfold occ in H1. destruct (parsers s !! r) as [em|] eqn:Eem; [|discriminate].
  rewrite <- occurrences_listeners in H1.
  destruct (occurrences_one_split _ _ H1) as (l1 & l2 & HL & Hl1 & Hl2).
  assert (Hquiet : forall l,
             occurrences (OnTargetReached p) l = O ->
             (forall cb, cb ∈ l -> cb ∈ listeners EvTargetReached em) ->
             Forall (fun cb => cb_handle cb <> Some p) l).
  { intros l Hz Hsub. apply Forall_forall. intros cb Hin Hcb.
    assert (cb = OnTargetReached p) as ->.
    { specialize (Hocc (OnParser r EvTargetReached) cb Hcb).
      destruct (decide _) as [[_ ?]|]; [assumption|].
      unfold occ in Hocc. rewrite Eem, <- occurrences_listeners in Hocc.
      apply Hsub, occurrences_pos in Hin. lia. }
    apply occurrences_pos in Hin. lia. }
  assert (Hq1 : Forall (fun cb => cb_handle cb <> Some p) l1).
  { apply Hquiet; [exact Hl1|]. intros cb Hin. rewrite HL.
    apply elem_of_app. now left. }
  assert (Hq2 : Forall (fun cb => cb_handle cb <> Some p) l2).
  { apply Hquiet; [exact Hl2|]. intros cb Hin. rewrite HL.
    apply elem_of_app. right. apply elem_of_cons. now right. }
  rewrite HL.
  destruct (call_all_ok l1 s Hv) as [s1 E1].
  pose proof (keeps_call_all p l1 Hq1 s) as K1.
  pose proof (steady_call_all l1 s) as V1. rewrite E1 in K1, V1.
  cbn [final] in K1, V1.
  specialize (K1 (or_introl (sole_lt _ _ _ _ Hw))).
  assert (Hw1 : waiting p r s1) by (eapply sole_same_for; eauto).
  assert (Hv1 : vars_set s1) by (eapply same_vars_set; eauto).
  destruct (call_onTargetReached p r s1 Hw1 (proj2 Hv1))
    as (s2 & E2 & Hres2 & Hcount2 & Hlen2 & Hsil2).
  assert (Hv2 : vars_set s2).
  { pose proof (steady_call (OnTargetReached p) s1) as V2. rewrite E2 in V2.
    eapply same_vars_set; eauto. }
  destruct (call_all_ok l2 s2 Hv2) as [s3 E3].
  assert (Hfin : call_all (l1 ++ OnTargetReached p :: l2) s = Ok tt s3).
  { rewrite call_all_app, E1. cbn [call_all]. unfold bind. now rewrite E2. }
  rewrite Hfin. cbn [final].
  pose proof (keeps_call_all p l2 Hq2 s2) as K3. rewrite E3 in K3.
  cbn [final] in K3.
  assert (Hp2 : (p < length (promises s2))%nat).
  { rewrite Hlen2. eapply sole_lt; eauto. }
  specialize (K3 (or_introl Hp2)).
  destruct K3 as (Hpr3 & Hlog3 & Hocc3 & _).
  destruct K1 as (_ & Hlog1 & _ & _).
  split; [congruence|]. split.
  - unfold resolutions in *. rewrite Hlog3, Hcount2, Hlog1. reflexivity.
  - intros Hr. destruct V1 as [_ Hr1]. rewrite <- Hr1 in Hr.
    specialize (Hsil2 Hr). intros pl cb Hcb.
    rewrite Hocc3 by exact Hcb. now apply Hsil2.
Qed.

Lemma timer_resolves p s i d :
  promises s !! p = Some Pending ->
  timers s !! i = Some (d, Resolve p) ->
  promises (step numberToHex rev (TimerFires i) s) !! p
  = Some (Settled Resolved).
Proof.
  intros Hpend Hi. cbn [step]. unfold timer_fires. rewrite Hi. cbn.
  now rewrite list_lookup_alter_eq, Hpend.
Qed.

End Firing.

(** ** What a call does to a connected controller *)

Section Issue.
Variable numberToHex : Z -> Z.
Variable rev : revision.

Lemma run_awaiting c s q r :
  exported rev c = true -> awaits_target c = true ->
  port s = Some q -> parser s = Some r ->
  run numberToHex rev c s
  = Ok (Some (length (promises s)))
      (set_parsers
         (alter (on EvTargetReached (OnTargetReached (length (promises s))))
                r (parsers s))
         (set_promises (promises s ++ [Pending])
            (set_ports
               (alter (add_write (wire_frame numberToHex rev c)) q (ports s))
               s))).
Proof.
  intros Hex Haw Hq Hr.
  destruct c; try discriminate; destruct rev; try discriminate;
    cbn in Haw; try apply negb_true_iff in Haw;
    cbn [run]; unfold keepHeading, forward, reverse, rotate, turn,
      targetReached_promise, writeToSerialPort, port_write, bind, new_Promise,
      parser_on, ret;
    rewrite ?Hq, ?Haw; cbn; rewrite ?Hr; reflexivity.
Qed.

Lemma run_returning c s q :
  exported rev c = true -> awaits_target c = false ->
  settling_delay c = None -> port s = Some q ->
  run numberToHex rev c s
  = Ok None
      (set_ports
         (alter (add_write (wire_frame numberToHex rev c)) q (ports s)) s).
Proof.
  intros Hex Haw Hd Hq.
  destruct c; try discriminate; destruct rev; try discriminate;
    cbn in Haw; try apply negb_false_iff in Haw;
    cbn [run]; unfold keepHeading, forward, reverse, drive,
      writeToSerialPort, port_write, bind, ret;
    rewrite ?Hq, ?Haw; reflexivity.
Qed.

Lemma run_timed c s q d :
  exported rev c = true -> settling_delay c = Some d -> port s = Some q ->
  run numberToHex rev c s
  = Ok (Some (length (promises s)))
      (set_timers (timers s ++ [(d, Resolve (length (promises s)))])
         (set_ports
            (alter (add_write (wire_frame numberToHex rev c)) q (ports s))
            (set_promises (promises s ++ [Pending]) s))).
Proof.
  intros Hex Hd Hq.
  destruct c; try discriminate; destruct rev; try discriminate;
    cbn in Hd; injection Hd as <-;
    cbn [run]; unfold stop, resetIMU, writeToSerialPort, port_write, bind,
      new_Promise, setTimeout, modify, ret; cbn; rewrite ?Hq; reflexivity.
Qed.

Lemma wire_add_write s q po bytes s' :
  port s = Some q -> ports s !! q = Some po ->
  port s' = Some q -> ports s' = alter (add_write bytes) q (ports s) ->
  wire s' = wire s ++ [bytes].
Proof.
  intros Hq Hpo Hq' Hports. unfold wire.
  rewrite Hq, Hq', Hports, list_lookup_alter_eq, Hpo. reflexivity.
Qed.

Lemma wire_after_run c s :
  connected s -> exported rev c = true ->
  wire (final (run numberToHex rev c s))
  = wire s ++ [wire_frame numberToHex rev c].
Proof.
  intros (q & r & po & em & Hq & Hr & Hpo & Hem) Hex.
  destruct (settling_delay c) as [d|] eqn:Hd.
  - rewrite (run_timed c s q d Hex Hd Hq).
    eapply wire_add_write; eauto.
  - destruct (awaits_target c) eqn:Haw.
    + rewrite (run_awaiting c s q r Hex Haw Hq Hr).
      eapply wire_add_write; eauto.
    + rewrite (run_returning c s q Hex Haw Hd Hq).
      eapply wire_add_write; eauto.
Qed.

End Issue.

Lemma listeners_on e cb (em : emitter) :
  listeners e (on e cb em) = listeners e em ++ [cb].
Proof.
  unfold listeners, on. rewrite filter_app, map_app. f_equal.
  rewrite filter_cons. cbn [fst].
  destruct (decide (e = e)); [reflexivity|contradiction].
Qed.

Lemma off_on e cb (em : emitter) : off e cb (on e cb em) = em.
Proof.
  unfold off, on. rewrite rev_app_distr. cbn [rev app remove_first].
  destruct (decide ((e, cb) = (e, cb))); [|contradiction].
  apply rev_involutive.
Qed.

Lemma occurrences_pos_in {A} `{EqDecision A} (x : A) (l : list A) :
  (0 < occurrences x l)%nat -> x ∈ l.
Proof.
  induction l as [|y l IH]; intros H.
  - rewrite occurrences_nil in H. lia.
  - rewrite occurrences_cons in H. destruct (decide (y = x)) as [->|Hne].
    + apply elem_of_cons. now left.
    + apply elem_of_cons. right. apply IH. lia.
Qed.

Lemma occ_targetReached_listeners r cb s :
  occ (OnParser r EvTargetReached) cb s
  = occurrences cb (targetReached_listeners r s).
Proof.
  unfold occ, targetReached_listeners.
  destruct (parsers s !! r); [|reflexivity].
  now rewrite occurrences_listeners.
Qed.

Lemma waiting_attached p r s :
  waiting p r s -> OnTargetReached p ∈ targetReached_listeners r s.
Proof.
  intros [_ Hocc]. apply occurrences_pos_in.
  rewrite <- occ_targetReached_listeners,
    (Hocc (OnParser r EvTargetReached) (OnTargetReached p) eq_refl).
  destruct (decide _) as [|Hn]; [lia|]. exfalso. apply Hn. now split.
Qed.

Lemma silent_detached p r s :
  silent p s -> OnTargetReached p ∉ targetReached_listeners r s.
Proof.
  intros Hs. apply occurrences_zero_not_in.
  rewrite <- occ_targetReached_listeners. now apply Hs.
Qed.

Lemma call_parsers cb s :
  is_onTargetReached cb = false -> parsers (final (call cb s)) = parsers s.
Proof.
  destruct cb; try discriminate; intros _; cbn [call]; try reflexivity.
  unfold port_flush. destruct (port s); reflexivity.
Qed.

Lemma call_all_parsers cbs : forall s,
  Forall (fun cb => is_onTargetReached cb = false) cbs ->
  parsers (final (call_all cbs s)) = parsers s.
Proof.
  induction cbs as [|cb cbs IH]; intros s Hall; [reflexivity|].
  inversion Hall as [|? ? Hcb Hall']; subst. cbn [call_all]. unfold bind.
  pose proof (call_parsers cb s Hcb) as H1.
  destruct (call cb s) as [[] s1|s1]; cbn [final] in *; [|exact H1].
  rewrite IH by exact Hall'. exact H1.
Qed.

Arguments wire_frame : simpl never.

Section Issued.
Variable numberToHex : Z -> Z.
Variable rev : revision.

Lemma waiting_after_run c s r :
  wf s -> connected s -> parser s = Some r ->
  exported rev c = true -> awaits_target c = true ->
  waiting (length (promises s)) r (final (run numberToHex rev c s)).
Proof.
  intros Hwf (q & r' & po & em & Hq & Hr' & Hpo & Hem) Hr Hex Haw.
  assert (r' = r) as -> by congruence.
  rewrite (run_awaiting numberToHex rev c s q r Hex Haw Hq Hr). cbn [final].
  destruct (Hwf (length (promises s)) (le_n _)) as [Hocc _].
  split.
  - cbn. now apply list_lookup_middle.
  - intros pl cb Hcb. specialize (Hocc pl cb Hcb).
    destruct pl as [|r' e'|q' e']; unfold occ in *; cbn.
    + destruct (decide _) as [[? _]|]; [discriminate|exact Hocc].
    + destruct (decide (r = r')) as [<-|Hne].
      * rewrite list_lookup_alter_eq, Hem in *. cbn.
        rewrite occurrences_on, Hocc.
        destruct (decide ((EvTargetReached, OnTargetReached (length (promises s)))
                          = (e', cb))) as [Heq|Hneq].
        -- injection Heq as <- <-.
           destruct (decide _) as [|Hn]; [reflexivity|].
           exfalso. apply Hn. now split.
        -- destruct (decide _) as [[Ha Hb]|]; [|reflexivity].
           exfalso. apply Hneq. congruence.
      * rewrite list_lookup_alter_ne by exact Hne. rewrite Hocc.
        destruct (decide _) as [[Ha _]|]; [congruence|reflexivity].
    + destruct (decide _) as [[? _]|]; [discriminate|].
      etransitivity; [|exact Hocc].
      apply (alter_match _ (fun po => occurrences (e', cb) (port_listeners po))).
      reflexivity.
Qed.

Lemma sole_after_timed c s d :
  wf s -> connected s ->
  exported rev c = true -> settling_delay c = Some d ->
  sole (length (promises s)) InTimers (Resolve (length (promises s)))
       (final (run numberToHex rev c s)).
Proof.
  intros Hwf (q & r & po & em & Hq & Hr & Hpo & Hem) Hex Hd.
  rewrite (run_timed numberToHex rev c s q d Hex Hd Hq). cbn [final].
  destruct (Hwf (length (promises s)) (le_n _)) as [Hocc _].
  split.
  - cbn. now apply list_lookup_middle.
  - intros pl cb Hcb. specialize (Hocc pl cb Hcb).
    destruct pl as [|r' e'|q' e']; unfold occ in *; cbn.
    + rewrite map_app, occurrences_app, Hocc. cbn [map snd].
      rewrite occurrences_cons, occurrences_nil.
      destruct (decide (Resolve (length (promises s)) = cb)) as [<-|Hne].
      * destruct (decide _) as [|Hn]; [reflexivity|].
        exfalso. apply Hn. now split.
      * destruct (decide _) as [[_ Hb]|]; [congruence|reflexivity].
    + destruct (decide _) as [[? _]|]; [discriminate|exact Hocc].
    + destruct (decide _) as [[? _]|]; [discriminate|].
      etransitivity; [|exact Hocc].
      apply (alter_match _ (fun po => occurrences (e', cb) (port_listeners po))).
      reflexivity.
Qed.

Lemma connected_vars_set s : connected s -> vars_set s.
Proof. intros (q & r & po & em & Hq & Hr & _). split; eauto. Qed.

Lemma run_trace_vars_set tr : forall s,
  vars_set s -> vars_set (run_trace numberToHex rev tr s).
Proof.
  induction tr as [|a tr IH]; intros s Hs; cbn; [exact Hs|].
  apply IH. now apply step_vars_set.
Qed.

(** A command completed by its event leaves the parser objects as they
    were, when no other command was waiting on the parser. *)
Lemma parsers_after_cycle c s r :
  connected s -> parser s = Some r ->
  exported rev c = true -> awaits_target c = true ->
  Forall (fun cb => is_onTargetReached cb = false)
         (targetReached_listeners r s) ->
  parsers (step numberToHex rev (ParserEmits r EvTargetReached)
             (final (run numberToHex rev c s)))
  = parsers s.
Proof.
  intros (q & r' & po & em & Hq & Hr' & Hpo & Hem) Hr Hex Haw Hnone.
  assert (r' = r) as -> by congruence.
  rewrite (run_awaiting numberToHex rev c s q r Hex Haw Hq Hr). cbn [final].
  set (p := length (promises s)).
  set (s1 := set_parsers _ _).
  unfold targetReached_listeners in Hnone. rewrite Hem in Hnone.
  cbn [step]. unfold parser_emit.
  assert (Hem1 : parsers s1 !! r
                 = Some (on EvTargetReached (OnTargetReached p) em)).
  { subst s1. cbn. now rewrite list_lookup_alter_eq, Hem. }
  rewrite Hem1, listeners_on, call_all_app.
  pose proof (call_all_parsers (listeners EvTargetReached em) s1 Hnone) as Hp1.
  pose proof (steady_call_all (listeners EvTargetReached em) s1) as [_ Hv1].
  destruct (call_all (listeners EvTargetReached em) s1) as [[] s2|s2] eqn:E;
    cbn [final] in *.
  - cbn [call_all call]. unfold bind, parser_off, ret.
    rewrite Hv1. subst s1. cbn in Hv1 |- *. rewrite Hr. cbn.
    rewrite Hp1. cbn. rewrite list_alter_alter_eq.
    apply list_alter_id. intros em'. apply off_on.
  - exfalso.
    destruct (call_all_ok (listeners EvTargetReached em) s1) as [s' Hs'];
      [|congruence].
    subst s1. split; cbn; eauto.
Qed.

End Issued.

(** ** The state after the first [init] *)

Lemma wf_init s : wf s -> wf (final (init s)).
Proof. intros Hwf. exact (wf_step (fun n => n) Rev1 CallInit s Hwf). Qed.

Lemma wf_opened : wf opened.
Proof. unfold opened. apply wf_init, wf_initial. Qed.

Lemma connected_opened : connected opened.
Proof.
  exists O, O. do 2 eexists. repeat split; vm_compute; reflexivity.
Qed.

Lemma clamp_byte_id n : 0 <= n <= 255 -> clamp_byte n = n.
Proof. unfold clamp_byte. lia. Qed.

Example wire_forward_20_100 :
  wire (final (forward clamp_byte 20 100 opened))
  = [[0x00; 0x05; 0xA3; 0x10; 20; 100; 0x00]].
Proof. vm_compute. reflexivity. Qed.

(** On the wire the stuffing makes the two rotations differ in the code
    bytes; it is the frames before stuffing that differ in one byte. *)
Example wire_rotate_20_90 :
  wire (final (rotate clamp_byte Rev1 20 (-90) opened))
  = [[0x00; 0x06; 0xA3; 0x12; 20; 90; 0x01; 0x00]]
  /\ wire (final (rotate clamp_byte Rev1 20 90 opened))
     = [[0x00; 0x05; 0xA3; 0x12; 20; 90; 0x01; 0x00]].
Proof. split; vm_compute; reflexivity. Qed.

Example stop_hard_timer :
  timers (final (stop clamp_byte 1 opened)) = [(0, Resolve 1%nat)]
  /\ timers (final (stop clamp_byte 0 opened)) = [(1000, Resolve 1%nat)].
Proof. split; vm_compute; reflexivity. Qed.

(** Without [init] a command throws: [port] is undefined. *)
Example forward_before_init :
  forward clamp_byte 20 100 initial = Throw initial.
Proof. vm_compute. reflexivity. Qed.

(** The assumptions of the statements below hold in every state a
    controller reaches once [init] has been called. *)
Lemma ready_after_init numberToHex rev tr tr' :
  let s := run_trace numberToHex rev (tr ++ CallInit :: tr') initial in
  wf s /\ connected s.
Proof.
  cbv zeta. unfold run_trace. rewrite fold_left_app. cbn [fold_left step].
  split.
  - apply wf_run_trace, wf_init, wf_run_trace, wf_initial.
  - apply connected_run_trace, init_connected.
Qed.

(** * The claims *)

Section Claims.
Variable numberToHex : Z -> Z.
Variable rev : revision.

(** C2, amended: [forward], [reverse] and [keepHeading] called with a zero
    distance come back at once with nothing to wait for; called with a
    nonzero distance they return a promise that stays pending along every
    run of the event loop without [targetReached] from the parser and is
    resolved when that event comes.  [rotate] and [turn] return such a
    promise for every angle, zero included. *)
Theorem completion_follows_the_distance_test (c : command) (s : state) :
  wf s -> connected s ->
  exported rev c = true -> carries_target c = true ->
  let s1 := final (run numberToHex rev c s) in
  if awaits_target c then
    exists p r,
      parser s = Some r
      /\ run numberToHex rev c s = Ok (Some p) s1
      /\ promises s1 !! p = Some Pending
      /\ forall tr,
           no_targetReached r tr ->
           let s2 := run_trace numberToHex rev tr s1 in
           promises s2 !! p = Some Pending
           /\ promises
                (step numberToHex rev (ParserEmits r EvTargetReached) s2) !! p
              = Some (Settled Resolved)
  else
    immediate (run numberToHex rev c s)
    /\ run numberToHex rev c s = Ok None s1
    /\ parsers s1 = parsers s
    /\ promises s1 = promises s
    /\ timers s1 = timers s.
Proof.
  intros Hwf Hconn Hex Hcar s1. subst s1.
  destruct (awaits_target c) eqn:Haw.
  - pose proof Hconn as (q & r & po & em & Hq & Hr & Hpo & Hem).
    exists (length (promises s)), r.
    pose proof (waiting_after_run numberToHex rev c s r Hwf Hconn Hr Hex Haw)
      as Hw.
    split; [exact Hr|]. split.
    { rewrite (run_awaiting numberToHex rev c s q r Hex Haw Hq Hr).
      reflexivity. }
    split; [apply Hw|].
    intros tr Htr s2. subst s2.
    pose proof (sole_run_trace numberToHex rev _ _ _ tr _ Hw Htr) as Hw2.
    split; [apply Hw2|].
    apply targetReached_fires; [exact Hw2|].
    apply run_trace_vars_set.
    eapply same_vars_set; [apply steady_run|].
    now apply connected_vars_set.
  - pose proof Hconn as (q & r & po & em & Hq & Hr & Hpo & Hem).
    assert (Hd : settling_delay c = None) by (destruct c; try discriminate; reflexivity).
    rewrite (run_returning numberToHex rev c s q Hex Haw Hd Hq).
    cbn. repeat split; reflexivity.
Qed.

(** C5: [rotate(20, -90)] writes the frame with opcode [0x12], speed byte
    20 and magnitude byte 90; for every speed and every nonzero angle the
    frames of [rotate(s, a)] and [rotate(s, -a)] agree in every byte but the
    direction byte, which is 0 in one and 1 in the other.  In both
    revisions. *)
Theorem rotate_sign_flips_direction_byte (speed angle : Z) (s : state) :
  (forall n, 0 <= n <= 255 -> numberToHex n = n) ->
  connected s -> angle <> 0 ->
  let d := angle_direction rev angle in
  (d = 0 \/ d = 1)
  /\ wire (final (rotate numberToHex rev speed angle s))
     = wire s ++ [Cobs.encode
                    (Buffer_from [0xA3; 0x12; numberToHex speed;
                                  numberToHex (Z.abs angle); d]) true]
  /\ wire (final (rotate numberToHex rev speed (- angle) s))
     = wire s ++ [Cobs.encode
                    (Buffer_from [0xA3; 0x12; numberToHex speed;
                                  numberToHex (Z.abs angle); 1 - d]) true]
  /\ wire (final (rotate numberToHex rev 20 (-90) s))
     = wire s ++ [Cobs.encode
                    [0xA3; 0x12; 20; 90; angle_direction rev (-90)] true]
  /\ wire (final (rotate numberToHex rev 20 90 s))
     = wire s ++ [Cobs.encode
                    [0xA3; 0x12; 20; 90; 1 - angle_direction rev (-90)] true].
Proof.
  intros Hbyte Hconn Hangle d.
  assert (Hd : d = 0 \/ d = 1).
  { subst d. unfold angle_direction.
    destruct rev, (angle <? 0); auto. }
  assert (Hflip : angle_direction rev (- angle) = 1 - d).
  { subst d. unfold angle_direction.
    destruct rev, (Z.ltb_spec angle 0), (Z.ltb_spec (- angle) 0); lia. }
  assert (Hwire : forall sp a,
             wire (final (rotate numberToHex rev sp a s))
             = wire s ++ [Cobs.encode
                            (Buffer_from
                               [0xA3; 0x12; numberToHex sp;
                                numberToHex (Z.abs a);
                                numberToHex (angle_direction rev a)]) true]).
  { intros sp a.
    apply (wire_after_run numberToHex rev (Rotate sp a) s Hconn).
    destruct rev; reflexivity. }
  assert (Hdir : forall a, numberToHex (angle_direction rev a)
                           = angle_direction rev a).
  { intros a. apply Hbyte. unfold angle_direction.
    destruct rev, (a <? 0); lia. }
  split; [exact Hd|]. split; [rewrite Hwire, Hdir; reflexivity|].
  split.
  { rewrite Hwire, Hdir, Hflip.
    replace (Z.abs (- angle)) with (Z.abs angle) by lia. reflexivity. }
  split.
  - rewrite Hwire, Hdir. cbn [Z.abs Z.opp]. rewrite !Hbyte by lia.
    destruct rev; reflexivity.
  - rewrite Hwire, Hdir. cbn [Z.abs Z.opp]. rewrite !Hbyte by lia.
    destruct rev; reflexivity.
Qed.

(** C6: every command writes one frame; before stuffing it is the start
    marker [0xA3], the opcode of the table ([0x10] forward, [0x11] reverse,
    [0x12] rotate, [0x13] turn, [0x14] drive, [0x15] stop, [0x16]
    keepHeading, [0x20] resetIMU) and then the argument bytes. *)
Theorem frame_is_marker_opcode_arguments (c : command) (s : state) :
  connected s -> exported rev c = true ->
  wire (final (run numberToHex rev c s))
  = wire s ++ [Cobs.encode
                 (0xA3 :: opcode c
                    :: Buffer_from (arguments numberToHex rev c)) true].
Proof.
  intros Hconn Hex.
  rewrite (wire_after_run numberToHex rev c s Hconn Hex).
  unfold wire_frame, frame. destruct c; reflexivity.
Qed.

(** A command that waits attaches exactly one listener to the parser.
    Nothing in the module cancels it: along every run of the event loop
    without [targetReached] from that parser the listener stays attached
    and the promise unresolved.  When the event comes, no [init] having
    been called in between, the listener is detached and [resolve] is
    called once, and never again afterwards.  A command completed by its
    event, with no other command waiting, leaves the parser objects as they
    were before the call. *)
Theorem one_listener_per_waiting_command (c : command) (s : state) (r : nat) :
  wf s -> connected s -> parser s = Some r ->
  exported rev c = true -> awaits_target c = true ->
  let p := length (promises s) in
  let s1 := final (run numberToHex rev c s) in
  run numberToHex rev c s = Ok (Some p) s1
  /\ targetReached_listeners r s1
     = targetReached_listeners r s ++ [OnTargetReached p]
  /\ (forall tr,
        no_targetReached r tr ->
        let s2 := run_trace numberToHex rev tr s1 in
        (OnTargetReached p ∈ targetReached_listeners r s2)
        /\ resolutions p s2 = O
        /\ (no_init tr ->
            let s3 := step numberToHex rev (ParserEmits r EvTargetReached) s2
            in
            (OnTargetReached p ∉ targetReached_listeners r s3)
            /\ resolutions p s3 = 1%nat
            /\ forall tr' r',
                 (OnTargetReached p
                    ∉ targetReached_listeners r'
                        (run_trace numberToHex rev tr' s3))
                 /\ resolutions p (run_trace numberToHex rev tr' s3) = 1%nat))
  /\ (Forall (fun cb => is_onTargetReached cb = false)
             (targetReached_listeners r s) ->
      parsers (step numberToHex rev (ParserEmits r EvTargetReached) s1)
      = parsers s).
Proof.
  intros Hwf Hconn Hr Hex Haw p s1.
  pose proof Hconn as (q & r' & po & em & Hq & Hr' & Hpo & Hem).
  assert (r' = r) as -> by congruence.
  pose proof (waiting_after_run numberToHex rev c s r Hwf Hconn Hr Hex Haw)
    as Hw. fold p s1 in Hw.
  pose proof (run_awaiting numberToHex rev c s q r Hex Haw Hq Hr) as Hrun.
  fold p in Hrun.
  assert (Hv1 : vars_set s1).
  { eapply same_vars_set; [apply steady_run|]. now apply connected_vars_set. }
  assert (Hr1 : parser s1 = Some r).
  { destruct (steady_run numberToHex rev c s) as [_ H]. fold s1 in H.
    congruence. }
  assert (Hres1 : resolutions p s1 = O).
  { subst s1. rewrite Hrun. cbn. apply (Hwf p (le_n _)). }
  split; [subst s1; rewrite Hrun; reflexivity|].
  split.
  { subst s1. rewrite Hrun. unfold targetReached_listeners. cbn.
    rewrite list_lookup_alter_eq, Hem. cbn. apply listeners_on. }
  split.
  { intros tr Htr s2.
    pose proof (sole_run_trace numberToHex rev _ _ _ tr _ Hw Htr) as Hw2.
    pose proof (sole_run_trace_same_for numberToHex rev _ _ _ tr _ Hw Htr)
      as (_ & Hlog & _ & _).
    fold s2 in Hw2, Hlog.
    assert (Hres2 : resolutions p s2 = O).
    { unfold resolutions in *. now rewrite Hlog. }
    split; [now apply waiting_attached|]. split; [exact Hres2|].
    intros Hni s3.
    assert (Hv2 : vars_set s2) by now apply run_trace_vars_set.
    assert (Hr2 : parser s2 = Some r).
    { destruct (run_trace_same_vars numberToHex rev tr s1 Hni) as [_ H].
      fold s2 in H. congruence. }
    destruct (targetReached_fires numberToHex rev p r s2 Hw2 Hv2)
      as (Hres & Hcount & Hsil). fold s3 in Hres, Hcount, Hsil.
    specialize (Hsil Hr2).
    assert (Hp3 : (p < length (promises s3))%nat)
      by (now apply lookup_lt_Some in Hres).
    split; [now apply silent_detached|].
    split; [rewrite Hcount, Hres2; reflexivity|].
    intros tr' r0.
    destruct (silent_run_trace numberToHex rev p tr' s3 Hp3 Hsil)
      as [(_ & Hlog' & _ & _) Hsil'].
    split; [now apply silent_detached|].
    unfold resolutions in *. rewrite Hlog', Hcount, Hres2. reflexivity. }
  intros Hnone. subst s1.
  now apply parsers_after_cycle.
Qed.

(** C9: [stop(hard)] writes its frame at once and returns a promise that
    a timer resolves: the timer is set to 0 ms when [hard] is nonzero and
    to 1000 ms when it is 0.  No listener is attached, the promise stays
    pending whatever the parser and the port emit, and it is resolved when
    the timer runs out. *)
Theorem stop_is_resolved_by_its_timer (hard : Z) (s : state) :
  wf s -> connected s ->
  let p := length (promises s) in
  let s1 := final (stop numberToHex hard s) in
  stop numberToHex hard s = Ok (Some p) s1
  /\ wire s1
     = wire s ++ [Cobs.encode
                    (Buffer_from [0xA3; 0x15; numberToHex hard]) true]
  /\ timers s1
     = timers s ++ [(if hard =? 0 then 1000 else 0, Resolve p)]
  /\ parsers s1 = parsers s
  /\ promises s1 !! p = Some Pending
  /\ (forall tr,
        no_timer tr ->
        promises (run_trace numberToHex rev tr s1) !! p = Some Pending)
  /\ promises (step numberToHex rev (TimerFires (length (timers s))) s1) !! p
     = Some (Settled Resolved).
Proof.
  intros Hwf Hconn p s1.
  pose proof Hconn as (q & r & po & em & Hq & Hr & Hpo & Hem).
  assert (Hex : exported rev (Stop hard) = true) by (destruct rev; reflexivity).
  pose proof (run_timed numberToHex rev (Stop hard) s q _ Hex eq_refl Hq)
    as Hrun. cbn [run] in Hrun. fold p in Hrun.
  pose proof (sole_after_timed numberToHex rev (Stop hard) s _ Hwf Hconn Hex
                eq_refl) as Hsole.
  cbn [run] in Hsole. fold p s1 in Hsole.
  pose proof (wire_after_run numberToHex rev (Stop hard) s Hconn Hex) as Hwire.
  cbn [run] in Hwire. fold s1 in Hwire.
  split; [subst s1; rewrite Hrun; reflexivity|].
  split; [exact Hwire|].
  split; [subst s1; rewrite Hrun; reflexivity|].
  split; [subst s1; rewrite Hrun; reflexivity|].
  split; [apply Hsole|].
  split.
  - intros tr Htr.
    apply (sole_run_trace numberToHex rev _ _ _ tr _ Hsole Htr).
  - apply timer_resolves with (d := if hard =? 0 then 1000 else 0);
      [apply Hsole|].
    subst s1. rewrite Hrun. cbn. now apply list_lookup_middle.
Qed.

End Claims.

(** C8: what the code does.  A second [init] schedules the rejection of
    its promise at once, and then goes on as the first did: both variables
    are assigned new objects, so the connection that was active is
    replaced. *)
Theorem init_again_replaces_the_connection :
  (forall s, port (final (init s)) = Some (length (ports s))
             /\ parser (final (init s)) = Some (length (parsers s)))
  /\ port opened = Some O /\ parser opened = Some O
  /\ init opened = Ok 1%nat (final (init opened))
  /\ timers (final (init opened)) = [(0, Reject 1%nat)]
  /\ promises (final (timer_fires 0 (final (init opened)))) !! 1%nat
     = Some (Settled Rejected)
  /\ port (final (init opened)) = Some 1%nat
  /\ parser (final (init opened)) = Some 1%nat
  /\ port (final (init opened)) <> port opened
  /\ parser (final (init opened)) <> parser opened.
Proof.
  split; [intros s; destruct (init_assigns s) as (Hp & Hr & _); now split|].
  split; [vm_compute; reflexivity|]. split; [vm_compute; reflexivity|].
  split; [vm_compute; reflexivity|]. split; [vm_compute; reflexivity|].
  split; [vm_compute; reflexivity|]. split; [vm_compute; reflexivity|].
  split; [vm_compute; reflexivity|].
  split; vm_compute; discriminate.
Qed.

(** C7: what the code does when [init] is called again while a command
    waits.  [forward(20, 100)] has attached its listener to the first
    parser object.  The second [init] assigns a new parser to the variable
    [parser], which the closure reads when it runs: the [targetReached]
    event of the first parser resolves the promise, [parser.off] finds
    nothing on the new parser, and the listener stays where it was; the
    next event calls [resolve] a second time. *)
Theorem listener_is_not_detached_after_init_again :
  let s1 := final (forward clamp_byte 20 100 opened) in
  let s2 := final (init s1) in
  let s3 := step clamp_byte Rev1 (ParserEmits 0 EvTargetReached) s2 in
  let s4 := step clamp_byte Rev1 (ParserEmits 0 EvTargetReached) s3 in
  forward clamp_byte 20 100 opened = Ok (Some 1%nat) s1
  /\ parser s1 = Some O
  /\ targetReached_listeners 0 s1
     = [Republish EvTargetReached; OnTargetReached 1]
  /\ parser s2 = Some 1%nat
  /\ promises s2 !! 1%nat = Some Pending
  /\ promises s3 !! 1%nat = Some (Settled Resolved)
  /\ targetReached_listeners 0 s3
     = [Republish EvTargetReached; OnTargetReached 1]
  /\ resolutions 1 s3 = 1%nat
  /\ targetReached_listeners 0 s4
     = [Republish EvTargetReached; OnTargetReached 1]
  /\ resolutions 1 s4 = 2%nat.
Proof.
  cbv zeta.
  split; [vm_compute; reflexivity|]. split; [vm_compute; reflexivity|].
  split; [vm_compute; reflexivity|]. split; [vm_compute; reflexivity|].
  split; [vm_compute; reflexivity|]. split; [vm_compute; reflexivity|].
  split; [vm_compute; reflexivity|]. split; [vm_compute; reflexivity|].
  split; vm_compute; reflexivity.
Qed.

(** C2, as stated, fails for [rotate]: with a zero angle it still returns
    a pending promise. *)
Lemma rotate_zero_angle_waits :
  rotate clamp_byte Rev1 20 0 opened
  = Ok (Some 1%nat) (final (rotate clamp_byte Rev1 20 0 opened))
  /\ promises (final (rotate clamp_byte Rev1 20 0 opened)) !! 1%nat
     = Some Pending
  /\ ~ immediate (rotate clamp_byte Rev1 20 0 opened)
  /\ ~ immediate (rotate clamp_byte Rev2 20 0 opened).
Proof.
  split; [vm_compute; reflexivity|]. split; [vm_compute; reflexivity|].
  split; vm_compute; intros H; discriminate H.
Qed.

(** Two calls before the event leave two listeners on the parser, one for
    each of the two promises. *)
Lemma listeners_add_up_until_the_event :
  let s1 := final (forward clamp_byte 20 100 opened) in
  let s2 := final (forward clamp_byte 20 100 s1) in
  targetReached_listeners 0 s2
  = [Republish EvTargetReached; OnTargetReached 1; OnTargetReached 2]
  /\ ~ (length (filter (fun cb => is_onTargetReached cb = true)
                       (targetReached_listeners 0 s2)) <= 1)%nat.
Proof.
  split; [vm_compute; reflexivity|]. vm_compute. lia.
Qed.

(** [forward(20, 100)] on a controller just opened returns a pending
    promise. *)
Lemma completion_follows_the_distance_test_witness :
  wf opened /\ connected opened
  /\ exported Rev1 (Forward 20 100) = true
  /\ carries_target (Forward 20 100) = true
  /\ exists p r,
       parser opened = Some r
       /\ run clamp_byte Rev1 (Forward 20 100) opened
          = Ok (Some p) (final (run clamp_byte Rev1 (Forward 20 100) opened))
       /\ promises (final (run clamp_byte Rev1 (Forward 20 100) opened)) !! p
          = Some Pending.
Proof.
  split; [exact wf_opened|]. split; [exact connected_opened|].
  split; [reflexivity|]. split; [reflexivity|].
  pose proof (completion_follows_the_distance_test clamp_byte Rev1
                (Forward 20 100) opened wf_opened connected_opened
                eq_refl eq_refl) as H.
  cbv zeta in H. cbn [awaits_target Z.eqb negb] in H.
  destruct H as (p & r & Hr & Hrun & Hpend & _).
  exists p, r. split; [exact Hr|]. split; [exact Hrun|exact Hpend].
Defined.

(** The frames of [rotate(20, -90)] and [rotate(20, 90)] in the first
    revision. *)
Lemma rotate_sign_flips_direction_byte_witness :
  (forall n, 0 <= n <= 255 -> clamp_byte n = n)
  /\ connected opened /\ -90 <> 0
  /\ wire (final (rotate clamp_byte Rev1 20 (-90) opened))
     = wire opened ++ [Cobs.encode [0xA3; 0x12; 20; 90; 1] true]
  /\ wire (final (rotate clamp_byte Rev1 20 90 opened))
     = wire opened ++ [Cobs.encode [0xA3; 0x12; 20; 90; 0] true].
Proof.
  split; [exact clamp_byte_id|]. split; [exact connected_opened|].
  split; [lia|].
  pose proof (rotate_sign_flips_direction_byte clamp_byte Rev1 20 (-90)
                opened clamp_byte_id connected_opened ltac:(lia)) as H.
  cbv zeta in H. destruct H as (_ & _ & _ & Hneg & Hpos).
  split; [exact Hneg|exact Hpos].
Defined.

(** The frame of [keepHeading(-20, 90, 100)]. *)
Lemma frame_is_marker_opcode_arguments_witness :
  connected opened /\ exported Rev1 (KeepHeading (-20) 90 100) = true
  /\ wire (final (run clamp_byte Rev1 (KeepHeading (-20) 90 100) opened))
     = wire opened
       ++ [Cobs.encode
             (0xA3 :: opcode (KeepHeading (-20) 90 100)
                :: Buffer_from
                     (arguments clamp_byte Rev1 (KeepHeading (-20) 90 100)))
             true].
Proof.
  split; [exact connected_opened|]. split; [reflexivity|].
  exact (frame_is_marker_opcode_arguments clamp_byte Rev1
           (KeepHeading (-20) 90 100) opened connected_opened eq_refl).
Defined.

(** [rotate(20, -90)] in the second revision: one listener more, one call
    of [resolve] when the event comes. *)
Lemma one_listener_per_waiting_command_witness :
  wf opened /\ connected opened /\ parser opened = Some O
  /\ exported Rev2 (Rotate 20 (-90)) = true
  /\ awaits_target (Rotate 20 (-90)) = true
  /\ targetReached_listeners 0
       (final (run clamp_byte Rev2 (Rotate 20 (-90)) opened))
     = targetReached_listeners 0 opened
       ++ [OnTargetReached (length (promises opened))]
  /\ resolutions (length (promises opened))
       (step clamp_byte Rev2 (ParserEmits 0 EvTargetReached)
          (run_trace clamp_byte Rev2 []
             (final (run clamp_byte Rev2 (Rotate 20 (-90)) opened))))
     = 1%nat.
Proof.
  split; [exact wf_opened|]. split; [exact connected_opened|].
  split; [vm_compute; reflexivity|]. split; [reflexivity|].
  split; [reflexivity|].
  pose proof (one_listener_per_waiting_command clamp_byte Rev2
                (Rotate 20 (-90)) opened O wf_opened connected_opened
                eq_refl eq_refl eq_refl) as H.
  cbv zeta in H. destruct H as (_ & Hl & Htr & _).
  split; [exact Hl|].
  destruct (Htr [] ltac:(constructor)) as (_ & _ & Hfire).
  destruct (Hfire ltac:(constructor)) as (_ & Hres & _).
  exact Hres.
Defined.

(** [stop(0)]: a timer of 1000 ms, which resolves the promise. *)
Lemma stop_is_resolved_by_its_timer_witness :
  wf opened /\ connected opened
  /\ timers (final (stop clamp_byte 0 opened))
     = timers opened
       ++ [(if 0 =? 0 then 1000 else 0, Resolve (length (promises opened)))]
  /\ promises
       (step clamp_byte Rev1 (TimerFires (length (timers opened)))
          (final (stop clamp_byte 0 opened))) !! length (promises opened)
     = Some (Settled Resolved).
Proof.
  split; [exact wf_opened|]. split; [exact connected_opened|].
  pose proof (stop_is_resolved_by_its_timer clamp_byte Rev1 0 opened
                wf_opened connected_opened) as H.
  cbv zeta in H. destruct H as (_ & _ & Ht & _ & _ & _ & Hfire).
  split; [exact Ht|exact Hfire].
Defined.

End ControllerFacts.

(** * Further properties of the parser *)

Module OdometryBounds.
Import Js Odometry OdometryFacts.

Section Payloads.
Variable parseDecToBinary : Z -> string.
Variable parseDecToBinary_undefined : option string.

Lemma binary_of_short data i :
  (length data <= i)%nat ->
  binary_of parseDecToBinary parseDecToBinary_undefined data i
  = parseDecToBinary_undefined.
Proof.
  intros H. unfold binary_of. now rewrite lookup_ge_None_2.
Qed.

Lemma binary_of_long data i :
  (i < length data)%nat ->
  is_Some (binary_of parseDecToBinary parseDecToBinary_undefined data i).
Proof.
  intros H. unfold binary_of.
  destruct (lookup_lt_is_Some_2 data i H) as [n ->]. eauto.
Qed.

Lemma index_short data i : (length data <= i)%nat -> index data i = VUndefined.
Proof. intros H. unfold index. now rewrite lookup_ge_None_2. Qed.

Lemma index_long data i :
  (i < length data)%nat -> exists n, index data i = VNum n.
Proof.
  intros H. unfold index.
  destruct (lookup_lt_is_Some_2 data i H) as [n ->]. eauto.
Qed.

Lemma or_default_is_a_number v : exists n, Js.or v (VNum (-1)) = VNum n.
Proof.
  unfold Js.or. destruct v as [|n|]; cbn; eauto.
  destruct (negb (n =? 0)); eauto.
Qed.

(** X1: a payload with fewer than six entries hands [undefined] to the
    helper, and the decoder fails exactly when the helper throws on it; a
    payload of six entries or more is always decoded.  Whenever the decoder
    returns, [leftTicks] is NaN exactly when the payload has fewer than two
    entries, and [rightTicks] exactly when it has fewer than four. *)
Theorem ticks_need_their_bytes (data : list Z) :
  ((length data < 6)%nat ->
   (odometry parseDecToBinary parseDecToBinary_undefined data = None
    <-> parseDecToBinary_undefined = None))
  /\ ((6 <= length data)%nat ->
      is_Some (odometry parseDecToBinary parseDecToBinary_undefined data))
  /\ (forall t,
        odometry parseDecToBinary parseDecToBinary_undefined data = Some t ->
        (leftTicks t = VNaN <-> (length data < 2)%nat)
        /\ (rightTicks t = VNaN <-> (length data < 4)%nat)).
Proof.
  split; [|split].
  - intros Hlen. unfold odometry.
    rewrite (binary_of_short data 5) by lia.
    destruct (binary_of _ _ data 4) as [msb|] eqn:E4.
    + destruct parseDecToBinary_undefined; split; congruence.
    + destruct (le_lt_dec (length data) 4) as [H4|H4].
      * rewrite binary_of_short in E4 by exact H4. rewrite E4. tauto.
      * destruct (binary_of_long data 4 H4) as [x Hx]. congruence.
  - intros Hlen. unfold odometry.
    destruct (binary_of_long data 4 ltac:(lia)) as [msb ->].
    destruct (binary_of_long data 5 ltac:(lia)) as [lsb ->]. eauto.
  - intros t Ht. unfold odometry in Ht.
    destruct (binary_of _ _ data 4); [|discriminate].
    destruct (binary_of _ _ data 5); [|discriminate].
    injection Ht as <-. cbn [leftTicks rightTicks].
    destruct (or_default_is_a_number (index data 0)) as [l ->].
    destruct (or_default_is_a_number (index data 2)) as [r ->].
    split.
    + destruct (le_lt_dec (length data) 1) as [H|H].
      * rewrite index_short by exact H. cbn. split; [lia|reflexivity].
      * destruct (index_long data 1 H) as [n ->]. cbn.
        split; [discriminate|lia].
    + destruct (le_lt_dec (length data) 3) as [H|H].
      * rewrite index_short by exact H. cbn. split; [lia|reflexivity].
      * destruct (index_long data 3 H) as [n ->]. cbn.
        split; [discriminate|lia].
Qed.

Lemma ticks_of_payload
    (leftDir leftDelta rightDir rightDelta headingMsb headingLsb : Z)
    (rest : list Z) :
  exists t,
    odometry parseDecToBinary parseDecToBinary_undefined
      (leftDir :: leftDelta :: rightDir :: rightDelta
         :: headingMsb :: headingLsb :: rest) = Some t
    /\ leftTicks t = VNum (leftDelta * direction_factor leftDir)
    /\ rightTicks t = VNum (rightDelta * direction_factor rightDir).
Proof.
  unfold odometry, binary_of, direction_factor, Js.or, index; cbn.
  eexists. split; [reflexivity|]. cbn.
  destruct (leftDir =? 0), (rightDir =? 0); split; reflexivity.
Qed.

(** X2: for a payload of bytes the tick counts lie between -255 and
    255 * 255; a count is negative exactly when the direction byte is 0 and
    the delta is positive, and it is 0 exactly when the delta is 0. *)
Theorem ticks_of_bytes_are_bounded
    (leftDir leftDelta rightDir rightDelta headingMsb headingLsb : Z)
    (rest : list Z) :
  byte leftDir -> byte leftDelta -> byte rightDir -> byte rightDelta ->
  exists t l r,
    odometry parseDecToBinary parseDecToBinary_undefined
      (leftDir :: leftDelta :: rightDir :: rightDelta
         :: headingMsb :: headingLsb :: rest) = Some t
    /\ leftTicks t = VNum l /\ rightTicks t = VNum r
    /\ -255 <= l <= 255 * 255 /\ -255 <= r <= 255 * 255
    /\ (l < 0 <-> leftDir = 0 /\ 0 < leftDelta)
    /\ (r < 0 <-> rightDir = 0 /\ 0 < rightDelta)
    /\ (l = 0 <-> leftDelta = 0) /\ (r = 0 <-> rightDelta = 0).
Proof.
  unfold byte. intros Hld Hl Hrd Hr.
  destruct (ticks_of_payload leftDir leftDelta rightDir rightDelta
              headingMsb headingLsb rest) as (t & Et & El & Er).
  exists t, (leftDelta * direction_factor leftDir),
         (rightDelta * direction_factor rightDir).
  split; [exact Et|]. split; [exact El|]. split; [exact Er|].
  unfold direction_factor.
  destruct (Z.eqb_spec leftDir 0), (Z.eqb_spec rightDir 0); nia.
Qed.

End Payloads.

Lemma ticks_of_bytes_are_bounded_witness :
  byte 0 /\ byte 5 /\ byte 1 /\ byte 10
  /\ exists t l r,
       odometry binary_digits8 None [0; 5; 1; 10; 0; 0] = Some t
       /\ leftTicks t = VNum l /\ rightTicks t = VNum r
       /\ l < 0 /\ 0 < r.
Proof.
  assert (H0 : byte 0) by (unfold byte; lia).
  assert (H5 : byte 5) by (unfold byte; lia).
  assert (H1 : byte 1) by (unfold byte; lia).
  assert (H10 : byte 10) by (unfold byte; lia).
  split; [exact H0|]. split; [exact H5|]. split; [exact H1|].
  split; [exact H10|].
  destruct (ticks_of_bytes_are_bounded binary_digits8 None 0 5 1 10 0 0 []
              H0 H5 H1 H10)
    as (t & l & r & Et & El & Er & _ & _ & Hl & Hr & _ & Hr0).
  exists t, l, r. split; [exact Et|]. split; [exact El|]. split; [exact Er|].
  split; [apply Hl; lia|].
  assert (r <> 0) by (intros Hz; apply Hr0 in Hz; lia).
  assert (~ r < 0) by (intros Hn; apply Hr in Hn; lia).
  lia.
Defined.

(** With a helper that throws on [undefined] the empty payload is not
    decoded; with one that answers, both tick counts are NaN. *)
Lemma ticks_need_their_bytes_witness :
  (length ([] : list Z) < 6)%nat
  /\ odometry binary_digits8 None [] = None
  /\ forall t,
       odometry binary_digits8 (Some "NaN"%string) [] = Some t ->
       leftTicks t = VNaN /\ rightTicks t = VNaN.
Proof.
  assert (Hlen : (length ([] : list Z) < 6)%nat) by (cbn; lia).
  split; [exact Hlen|]. split.
  - apply (ticks_need_their_bytes binary_digits8 None []);
      [exact Hlen|reflexivity].
  - intros t Ht.
    destruct (ticks_need_their_bytes binary_digits8 (Some "NaN"%string) [])
      as (_ & _ & H).
    destruct (H t Ht) as [Hl Hr].
    split; [apply Hl|apply Hr]; cbn; lia.
Defined.

End OdometryBounds.

(** * Further properties of the controller *)

Module ControllerRuns.
Import Controller ControllerFacts.

(** ** The effect of [init] *)

Lemma alter_snoc {B} (f : B -> B) (l : list B) (x : B) :
  alter f (length l) (l ++ [x]) = l ++ [f x].
Proof.
  induction l as [|y l IH]; [reflexivity|]. cbn. f_equal. exact IH.
Qed.

Lemma init_effect s : init s = Ok (length (promises s)) (after_init s).
Proof.
  unfold init, new_Promise, after_init.
  unfold bind, assign_new_SerialPort, assign_new_Parser, port_pipe, port_on,
    parser_on, setTimeout.
  unfold modify.
  unfold set_port, set_parser, set_ports, set_parsers, set_promises,
    set_settle_log, set_timers, set_emitted.
  cbn [port parser ports parsers promises settle_log timers emitted].
  destruct (port s) as [q|];
    cbn [port parser ports parsers promises settle_log timers emitted];
    rewrite !alter_snoc, ?app_nil_r; reflexivity.
Qed.

Lemma final_init s : final (init s) = after_init s.
Proof. now rewrite init_effect. Qed.

Lemma lookup_snoc_new {B} (l : list B) (x : B) :
  (l ++ [x]) !! length l = Some x.
Proof. now apply list_lookup_middle. Qed.

(** ** Invariants kept by every computation *)

Lemma preserves_ret {A} I (a : A) : preserves I (ret a).
Proof. intros s Hs. exact Hs. Qed.

Lemma preserves_throw {A} I : preserves I (@throw A).
Proof. intros s Hs. exact Hs. Qed.

Lemma preserves_bind {A B} I (m : M A) (k : A -> M B) :
  preserves I m -> (forall a, preserves I (k a)) -> preserves I (bind m k).
Proof.
  intros Hm Hk s Hs. unfold bind. specialize (Hm s Hs).
  destruct (m s) as [a s1|s1]; cbn [final] in *; [|exact Hm].
  now apply Hk.
Qed.

Lemma preserves_new_Promise I executor :
  (forall s, I s -> I (set_promises (promises s ++ [Pending]) s)) ->
  (forall q, preserves I (settle Rejected q)) ->
  (forall q, preserves I (executor q)) ->
  preserves I (new_Promise executor).
Proof.
  intros Happ Hrej Hex s Hs. unfold new_Promise.
  specialize (Hex (length (promises s)) _ (Happ s Hs)).
  destruct (executor _ _) as [[] s1|s1]; cbn [final] in *; [exact Hex|].
  now apply Hrej.
Qed.

Lemma preserves_call_all I cbs :
  (forall cb, preserves I (call cb)) -> preserves I (call_all cbs).
Proof.
  intros Hcall. induction cbs as [|cb cbs IH]; cbn [call_all].
  - apply preserves_ret.
  - apply preserves_bind; [apply Hcall|intros _; exact IH].
Qed.

(** An invariant kept by the calls of the clients, by [init] and by the
    callbacks is kept by every step of the event loop. *)
Lemma preserves_step I numberToHex rev a s :
  (forall c, preserves I (run numberToHex rev c)) ->
  (forall s, I s -> I (after_init s)) ->
  (forall cb, preserves I (call cb)) ->
  (forall s v, I s -> I (set_timers v s)) ->
  I s -> I (step numberToHex rev a s).
Proof.
  intros Hrun Hinit Hcall Htimers Hs.
  destruct a as [c| |r e|q e|i]; cbn [step].
  - now apply Hrun.
  - rewrite final_init. now apply Hinit.
  - unfold parser_emit. destruct (parsers s !! r); [|exact Hs].
    now apply preserves_call_all.
  - unfold port_emit. destruct (ports s !! q); [|exact Hs].
    now apply preserves_call_all.
  - unfold timer_fires. destruct (timers s !! i) as [[d cb]|]; [|exact Hs].
    apply Hcall. now apply Htimers.
Qed.

Lemma preserves_run_trace I numberToHex rev tr :
  (forall a s, I s -> I (step numberToHex rev a s)) ->
  forall s, I s -> I (run_trace numberToHex rev tr s).
Proof.
  intros Hstep. induction tr as [|a tr IH]; intros s Hs; cbn; [exact Hs|].
  apply IH. now apply Hstep.
Qed.

(** *** A settled promise keeps its outcome *)

Section Settled.
Variable p : nat.
Variable o : outcome.

Lemma settled_same_promises {A} (m : M A) :
  (forall s, promises (final (m s)) = promises s) ->
  preserves (settled_as p o) m.
Proof. intros Hm s Hs. unfold settled_as in *. now rewrite Hm. Qed.

Lemma settled_settle o' q : preserves (settled_as p o) (settle o' q).
Proof.
  intros s Hs. unfold settled_as in *. cbn.
  destruct (decide (q = p)) as [->|Hne].
  - now rewrite list_lookup_alter_eq, Hs.
  - now rewrite list_lookup_alter_ne.
Qed.

Lemma settled_append s :
  settled_as p o s ->
  settled_as p o (set_promises (promises s ++ [Pending]) s).
Proof.
  unfold settled_as. intros Hs. cbn.
  rewrite lookup_app_l; [exact Hs|]. now apply lookup_lt_Some in Hs.
Qed.

Lemma settled_port_write bytes : preserves (settled_as p o) (port_write bytes).
Proof.
  apply settled_same_promises. intros s. unfold port_write.
  destruct (port s); reflexivity.
Qed.

Lemma settled_port_flush : preserves (settled_as p o) port_flush.
Proof.
  apply settled_same_promises. intros s. unfold port_flush.
  destruct (port s); reflexivity.
Qed.

Lemma settled_parser_on e cb : preserves (settled_as p o) (parser_on e cb).
Proof.
  apply settled_same_promises. intros s. unfold parser_on.
  destruct (parser s); reflexivity.
Qed.

Lemma settled_parser_off e cb : preserves (settled_as p o) (parser_off e cb).
Proof.
  apply settled_same_promises. intros s. unfold parser_off.
  destruct (parser s); reflexivity.
Qed.

Lemma settled_setTimeout cb d : preserves (settled_as p o) (setTimeout cb d).
Proof. apply settled_same_promises. reflexivity. Qed.

Ltac solve_settled :=
  repeat lazymatch goal with
    | |- preserves _ (bind _ _) => apply preserves_bind; [|intros ?]
    | |- preserves _ (ret _) => apply preserves_ret
    | |- preserves _ throw => apply preserves_throw
    | |- preserves _ (settle _ _) => apply settled_settle
    | |- preserves _ (setTimeout _ _) => apply settled_setTimeout
    | |- preserves _ (port_write _) => apply settled_port_write
    | |- preserves _ port_flush => apply settled_port_flush
    | |- preserves _ (parser_on _ _) => apply settled_parser_on
    | |- preserves _ (parser_off _ _) => apply settled_parser_off
    | |- preserves _ (new_Promise _) =>
        apply preserves_new_Promise;
        [exact settled_append|intros ?; apply settled_settle|intros ?]
    | |- preserves _ (if ?b then _ else _) => destruct b
    end.


Lemma settled_call cb : preserves (settled_as p o) (call cb).
Proof.
  destruct cb; cbn [call]; solve_settled.
  apply settled_same_promises. reflexivity.
Qed.



End Settled.

Section Frames.
Variable numberToHex : Z -> Z.

Lemma angle_direction_cases rev angle :
  angle_direction rev angle = 0 \/ angle_direction rev angle = 1.
Proof. unfold angle_direction. destruct rev, (angle <? 0); auto. Qed.

Lemma angle_direction_opp rev angle :
  angle <> 0 ->
  angle_direction rev (- angle) = 1 - angle_direction rev angle.
Proof.
  intros Hne. unfold angle_direction.
  destruct rev, (Z.ltb_spec angle 0), (Z.ltb_spec (- angle) 0); lia.
Qed.

Lemma angle_direction_revisions angle :
  angle_direction Rev2 angle = 1 - angle_direction Rev1 angle.
Proof. unfold angle_direction. destruct (angle <? 0); reflexivity. Qed.

(** X3: [turn] sends the magnitude of the angle and a direction byte that
    is 0 or 1; negating a nonzero angle changes the direction byte to the
    other value and nothing else in the frame.  Holds in both
    revisions. *)
Theorem turn_sign_flips_direction_byte
    (rev : revision) (speed angle radius : Z) (s : state) :
  (forall n, 0 <= n <= 255 -> numberToHex n = n) ->
  connected s -> angle <> 0 ->
  let d := angle_direction rev angle in
  (d = 0 \/ d = 1)
  /\ wire (final (turn numberToHex rev speed angle radius s))
     = wire s ++ [Cobs.encode
                    (Buffer_from [0xA3; 0x13; numberToHex speed;
                                  numberToHex (Z.abs angle);
                                  numberToHex radius; d]) true]
  /\ wire (final (turn numberToHex rev speed (- angle) radius s))
     = wire s ++ [Cobs.encode
                    (Buffer_from [0xA3; 0x13; numberToHex speed;
                                  numberToHex (Z.abs angle);
                                  numberToHex radius; 1 - d]) true].
Proof.
  intros Hbyte Hconn Hangle d.
  assert (Hwire : forall a,
             wire (final (turn numberToHex rev speed a radius s))
             = wire s ++ [Cobs.encode
                            (Buffer_from
                               [0xA3; 0x13; numberToHex speed;
                                numberToHex (Z.abs a); numberToHex radius;
                                numberToHex (angle_direction rev a)]) true]).
  { intros a.
    apply (wire_after_run numberToHex rev (Turn speed a radius) s Hconn).
    destruct rev; reflexivity. }
  assert (Hdir : forall a, numberToHex (angle_direction rev a)
                           = angle_direction rev a).
  { intros a. apply Hbyte. destruct (angle_direction_cases rev a); lia. }
  split; [apply angle_direction_cases|].
  split; [rewrite Hwire, Hdir; reflexivity|].
  rewrite Hwire, Hdir, angle_direction_opp by exact Hangle.
  replace (Z.abs (- angle)) with (Z.abs angle) by lia. reflexivity.
Qed.

(** X4: the two revisions of the file send opposite direction bytes.  For
    the same angle the first revision of [rotate] and [turn] sends 1 for a
    negative angle and 0 otherwise, the second sends 0 for a negative angle
    and 1 otherwise; the rest of the frame is the same. *)
Theorem revisions_differ_in_the_direction_byte
    (speed angle radius : Z) (s : state) :
  connected s ->
  let d := angle_direction Rev1 angle in
  (d = if angle <? 0 then 1 else 0)
  /\ wire (final (rotate numberToHex Rev1 speed angle s))
     = wire s ++ [Cobs.encode
                    (Buffer_from [0xA3; 0x12; numberToHex speed;
                                  numberToHex (Z.abs angle);
                                  numberToHex d]) true]
  /\ wire (final (rotate numberToHex Rev2 speed angle s))
     = wire s ++ [Cobs.encode
                    (Buffer_from [0xA3; 0x12; numberToHex speed;
                                  numberToHex (Z.abs angle);
                                  numberToHex (1 - d)]) true]
  /\ wire (final (turn numberToHex Rev1 speed angle radius s))
     = wire s ++ [Cobs.encode
                    (Buffer_from [0xA3; 0x13; numberToHex speed;
                                  numberToHex (Z.abs angle);
                                  numberToHex radius; numberToHex d]) true]
  /\ wire (final (turn numberToHex Rev2 speed angle radius s))
     = wire s ++ [Cobs.encode
                    (Buffer_from [0xA3; 0x13; numberToHex speed;
                                  numberToHex (Z.abs angle);
                                  numberToHex radius;
                                  numberToHex (1 - d)]) true].
Proof.
  intros Hconn d. subst d. rewrite <- angle_direction_revisions.
  split; [reflexivity|].
  split; [exact (wire_after_run numberToHex Rev1 (Rotate speed angle) s
                   Hconn eq_refl)|].
  split; [exact (wire_after_run numberToHex Rev2 (Rotate speed angle) s
                   Hconn eq_refl)|].
  split; [exact (wire_after_run numberToHex Rev1 (Turn speed angle radius) s
                   Hconn eq_refl)|].
  exact (wire_after_run numberToHex Rev2 (Turn speed angle radius) s
           Hconn eq_refl).
Qed.

(** X5: [keepHeading] sends the magnitude of the speed and a direction
    byte, 1 for a positive speed and 0 otherwise; negating a nonzero speed
    changes the direction byte only. *)
Theorem keepHeading_sends_magnitude_and_direction
    (speed heading distance : Z) (s : state) :
  connected s ->
  let d := if speed >? 0 then 1 else 0 in
  wire (final (keepHeading numberToHex speed heading distance s))
  = wire s ++ [Cobs.encode
                 (Buffer_from [0xA3; 0x16; numberToHex (Z.abs speed);
                               numberToHex heading; numberToHex d;
                               numberToHex distance]) true]
  /\ (speed <> 0 ->
      wire (final (keepHeading numberToHex (- speed) heading distance s))
      = wire s ++ [Cobs.encode
                     (Buffer_from [0xA3; 0x16; numberToHex (Z.abs speed);
                                   numberToHex heading; numberToHex (1 - d);
                                   numberToHex distance]) true]).
Proof.
  intros Hconn d.
  assert (Hwire : forall sp,
             wire (final (keepHeading numberToHex sp heading distance s))
             = wire s ++ [Cobs.encode
                            (Buffer_from
                               [0xA3; 0x16; numberToHex (Z.abs sp);
                                numberToHex heading;
                                numberToHex (if sp >? 0 then 1 else 0);
                                numberToHex distance]) true]).
  { intros sp.
    exact (wire_after_run numberToHex Rev1 (KeepHeading sp heading distance)
             s Hconn eq_refl). }
  split; [apply Hwire|]. intros Hne. rewrite Hwire.
  replace (Z.abs (- speed)) with (Z.abs speed) by lia.
  replace (if - speed >? 0 then 1 else 0) with (1 - d); [reflexivity|].
  subst d. destruct (Z.gtb_spec speed 0), (Z.gtb_spec (- speed) 0); lia.
Qed.

End Frames.

(** ** Calls before [init] *)

Section BeforeInit.
Variable numberToHex : Z -> Z.
Variable rev : revision.

(** X6: a command called before [init].  No port is assigned, so the
    write fails: the commands that write before they make their promise
    throw and leave the state as it was; [stop] and [resetIMU], which write
    inside the executor of their promise, return a promise that is rejected
    at once, and set no timer. *)
Theorem commands_before_init (c : command) (s : state) :
  port s = None -> exported rev c = true ->
  match settling_delay c with
  | None => run numberToHex rev c s = Throw s
  | Some _ =>
      let p := length (promises s) in
      exists s',
        run numberToHex rev c s = Ok (Some p) s'
        /\ promises s' = promises s ++ [Settled Rejected]
        /\ settle_log s' = settle_log s ++ [(p, Rejected)]
        /\ timers s' = timers s /\ ports s' = ports s
        /\ parsers s' = parsers s /\ emitted s' = emitted s
  end.
Proof.
  intros Hport Hex.
  destruct c; try discriminate; destruct rev; try discriminate;
    cbn [settling_delay run];
    unfold keepHeading, forward, reverse, rotate, turn, drive, stop, resetIMU,
      writeToSerialPort, port_write, bind, new_Promise;
    cbn [port set_promises]; rewrite ?Hport; try reflexivity;
    (eexists; split; [reflexivity|]; cbn;
     rewrite alter_snoc; repeat split; reflexivity).
Qed.

End BeforeInit.

(** ** The promise of [init] *)

Ltac occ_absurd :=
  exfalso;
  repeat match goal with H : _ /\ _ |- _ => destruct H end;
  simplify_eq; try lia;
  match goal with
  | H : ~ _ |- _ => solve [apply H; repeat split; (congruence || lia)]
  end.

Lemma occ_after_init pl cb s :
  cb_handle cb <> None ->
  occ pl cb (after_init s)
  = (occ pl cb s
     + (if decide (pl = OnParser (length (parsers s)) EvReady
                   /\ cb = Resolve (length (promises s)))
        then 1 else 0)
     + (if decide (pl = InTimers /\ cb = Reject (length (promises s))
                   /\ port s <> None)
        then 1 else 0))%nat.
Proof.
  intros Hcb. destruct pl as [|r e|q e]; unfold occ, after_init; cbn.
  - rewrite map_app, occurrences_app.
    destruct (port s) as [q|]; cbn [map snd];
      rewrite ?occurrences_cons, ?occurrences_nil;
      repeat case_decide; try lia; occ_absurd.
  - destruct (lt_eq_lt_dec r (length (parsers s))) as [[Hlt| ->]|Hgt].
    + rewrite lookup_app_l by exact Hlt.
      repeat case_decide; try lia; occ_absurd.
    + rewrite lookup_snoc_new, (lookup_ge_None_2 (parsers s)) by lia.
      unfold init_parser. rewrite !occurrences_cons, occurrences_nil.
      destruct cb; cbn in Hcb; try congruence;
        repeat case_decide; try lia; occ_absurd.
    + rewrite !lookup_ge_None_2; [|lia|rewrite length_app; cbn; lia].
      repeat case_decide; try lia; occ_absurd.
  - transitivity
      (match ports s !! q with
       | Some po => occurrences (e, cb) (port_listeners po)
       | None => O
       end); [|repeat case_decide; try lia; occ_absurd].
    apply (lookup_snoc_occ
             (fun po => occurrences (e, cb) (port_listeners po))).
    cbn. rewrite !occurrences_cons, occurrences_nil.
    destruct cb; cbn in Hcb; try congruence;
      repeat case_decide; try lia; occ_absurd.
Qed.

(** Running the listeners of an event settles a pending promise whose
    single callback is among them. *)
Lemma call_all_fires p cb0 L s :
  cb0 = Resolve p \/ cb0 = OnTargetReached p ->
  occurrences cb0 L = 1%nat ->
  (forall cb, cb ∈ L -> cb_handle cb = Some p -> cb = cb0) ->
  vars_set s -> promises s !! p = Some Pending ->
  promises (final (call_all L s)) !! p = Some (Settled Resolved).
Proof.
  intros Hcb0 Hone Honly Hv Hpend.
  destruct (occurrences_one_split _ _ Hone) as (l1 & l2 & -> & Hl1 & Hl2).
  assert (Hq1 : Forall (fun cb => cb_handle cb <> Some p) l1).
  { apply Forall_forall. intros cb Hin Hcb.
    assert (cb = cb0) as ->
      by (apply Honly; [apply elem_of_app; now left|exact Hcb]).
    apply occurrences_pos in Hin. lia. }
  destruct (call_all_ok l1 s Hv) as [s1 E1].
  pose proof (keeps_call_all p l1 Hq1 s) as K1.
  pose proof (steady_call_all l1 s) as V1. rewrite E1 in K1, V1.
  cbn [final] in K1, V1.
  specialize (K1 (or_introl (lookup_lt_Some _ _ _ Hpend))).
  destruct K1 as (Hpr1 & _).
  assert (Hv1 : vars_set s1) by (eapply same_vars_set; eauto).
  destruct (call_ok cb0 s1 Hv1) as [s2 E2].
  assert (Hres2 : settled_as p Resolved s2).
  { pose proof (f_equal final E2) as F2. cbn [final] in F2. rewrite <- F2.
    destruct Hcb0 as [-> | ->]; cbn [call].
    - unfold settled_as. cbn. now rewrite list_lookup_alter_eq, Hpr1, Hpend.
    - destruct Hv1 as [_ [r0 Hr0]]. unfold bind, parser_off. rewrite Hr0.
      unfold settled_as. cbn. now rewrite list_lookup_alter_eq, Hpr1, Hpend. }
  rewrite call_all_app, E1. cbn [call_all]. unfold bind at 1. rewrite E2.
  apply (preserves_call_all (settled_as p Resolved) l2
           (settled_call p Resolved) s2 Hres2).
Qed.

Lemma sole_fires numberToHex rev p r e cb0 s :
  cb0 = Resolve p \/ cb0 = OnTargetReached p ->
  sole p (OnParser r e) cb0 s -> vars_set s ->
  promises (step numberToHex rev (ParserEmits r e) s) !! p
  = Some (Settled Resolved).
Proof.
  intros Hcb0 [Hpend Hocc] Hv. cbn [step]. unfold parser_emit.
  assert (Hh : cb_handle cb0 = Some p) by (destruct Hcb0 as [-> | ->]; reflexivity).
  pose proof (Hocc (OnParser r e) cb0 Hh) as H1.
  destruct (decide _) as [_|Hn]; [|exfalso; apply Hn; split; reflexivity].
  unfold occ in H1. destruct (parsers s !! r) as [em|] eqn:Eem; [|discriminate].
  rewrite <- occurrences_listeners in H1.
  apply call_all_fires with (cb0 := cb0); auto.
  intros cb Hin Hcb. specialize (Hocc (OnParser r e) cb Hcb).
  destruct (decide _) as [[_ ?]|]; [assumption|].
  unfold occ in Hocc. rewrite Eem, <- occurrences_listeners in Hocc.
  apply occurrences_pos in Hin. lia.
Qed.


Section InitPromise.
Variable numberToHex : Z -> Z.
Variable rev : revision.

Lemma sole_after_first_init s :
  wf s -> port s = None ->
  sole (length (promises s)) (OnParser (length (parsers s)) EvReady)
       (Resolve (length (promises s))) (after_init s).
Proof.
  intros Hwf Hport. split.
  - unfold after_init. cbn. apply lookup_snoc_new.
  - intros pl cb Hcb.
    rewrite occ_after_init by congruence.
    destruct (Hwf (length (promises s)) (le_n _)) as [Hocc _].
    rewrite (Hocc pl cb Hcb).
    destruct (decide (pl = InTimers /\ _)) as [(_ & _ & Hn)|_];
      [congruence|].
    destruct (decide _); reflexivity.
Qed.

Lemma after_init_vars_set s : vars_set (after_init s).
Proof. split; cbn; eauto. Qed.

(** X7: the promise of a first [init].  No timer is set; the promise is
    pending as long as the new parser has not emitted [ready], whatever else
    happens, and the [ready] event of the new parser resolves it. *)
Theorem first_init_is_resolved_by_ready (s : state) :
  wf s -> port s = None ->
  let p := length (promises s) in
  let r := length (parsers s) in
  let s1 := final (init s) in
  init s = Ok p s1
  /\ timers s1 = timers s
  /\ promises s1 !! p = Some Pending
  /\ forall tr,
       avoids (OnParser r EvReady) tr ->
       let s2 := run_trace numberToHex rev tr s1 in
       promises s2 !! p = Some Pending
       /\ promises (step numberToHex rev (ParserEmits r EvReady) s2) !! p
          = Some (Settled Resolved).
Proof.
  intros Hwf Hport p r s1. subst s1. rewrite final_init.
  pose proof (sole_after_first_init s Hwf Hport) as Hsole. fold p r in Hsole.
  split; [apply init_effect|].
  split; [unfold after_init; cbn; rewrite Hport; apply app_nil_r|].
  split; [apply Hsole|].
  intros tr Htr s2.
  pose proof (sole_run_trace numberToHex rev _ _ _ tr _ Hsole Htr) as Hs2.
  fold s2 in Hs2. split; [apply Hs2|].
  apply sole_fires with (cb0 := Resolve p); [now left|exact Hs2|].
  apply run_trace_vars_set, after_init_vars_set.
Qed.


End InitPromise.

(** ** Several waiting commands and one event *)

Lemma avoids_calls pl cs : avoids pl (map Call cs).
Proof.
  unfold avoids. induction cs as [|c cs IH]; cbn; constructor; auto.
Qed.

Section ManyCommands.
Variable numberToHex : Z -> Z.
Variable rev : revision.

Lemma run_trace_app tr1 tr2 s :
  run_trace numberToHex rev (tr1 ++ tr2) s
  = run_trace numberToHex rev tr2 (run_trace numberToHex rev tr1 s).
Proof. unfold run_trace. apply fold_left_app. Qed.

Lemma calls_keep_connection cs : forall s r,
  wf s -> connected s -> parser s = Some r ->
  Forall (fun c => exported rev c = true /\ awaits_target c = true) cs ->
  let s1 := run_trace numberToHex rev (map Call cs) s in
  wf s1 /\ connected s1 /\ parser s1 = Some r
  /\ length (promises s1) = (length (promises s) + length cs)%nat.
Proof.
  induction cs as [|c cs IH]; intros s r Hwf Hconn Hr Hall; cbv zeta;
    cbn [map length].
  - change (run_trace numberToHex rev [] s) with s.
    split; [exact Hwf|split; [exact Hconn|split; [exact Hr|lia]]].
  - change (run_trace numberToHex rev (Call c :: map Call cs) s)
      with (run_trace numberToHex rev (map Call cs)
              (final (run numberToHex rev c s))).
    inversion Hall as [|? ? [Hex Haw] Hall']; subst.
    pose proof Hconn as (q & r' & po & em & Hq & Hr' & _).
    pose proof (run_awaiting numberToHex rev c s q r Hex Haw Hq Hr) as Hrun.
    destruct (IH (final (run numberToHex rev c s)) r) as (H1 & H2 & H3 & H4).
    + exact (wf_step numberToHex rev (Call c) s Hwf).
    + exact (connected_step numberToHex rev (Call c) s Hconn).
    + rewrite Hrun. exact Hr.
    + exact Hall'.
    + split; [exact H1|split; [exact H2|split; [exact H3|]]].
      rewrite H4, Hrun. cbn. rewrite length_app. cbn. lia.
Qed.

(** X9: commands that wait do not queue.  After any number of waiting
    commands called in a row, the i-th call has returned the i-th new
    promise, all of them are pending, and one [targetReached] event resolves
    every one of them, each exactly once, and detaches every listener. *)
Theorem one_event_completes_every_waiting_command
    (cs : list command) (s : state) (r : nat) :
  wf s -> connected s -> parser s = Some r ->
  Forall (fun c => exported rev c = true /\ awaits_target c = true) cs ->
  let s1 := run_trace numberToHex rev (map Call cs) s in
  let s2 := step numberToHex rev (ParserEmits r EvTargetReached) s1 in
  forall i c,
    cs !! i = Some c ->
    let p := (length (promises s) + i)%nat in
    (exists s',
       run numberToHex rev c
         (run_trace numberToHex rev (map Call (take i cs)) s)
       = Ok (Some p) s')
    /\ promises s1 !! p = Some Pending
    /\ promises s2 !! p = Some (Settled Resolved)
    /\ resolutions p s2 = 1%nat
    /\ (OnTargetReached p ∉ targetReached_listeners r s2).
Proof.
  intros Hwf Hconn Hr Hall s1 s2 i c Hi p.
  assert (Hsplit : cs = take i cs ++ c :: drop (S i) cs).
  { symmetry. now apply take_drop_middle. }
  assert (Hall_i : Forall (fun c => exported rev c = true
                                    /\ awaits_target c = true) (take i cs)).
  { rewrite Hsplit in Hall. now apply Forall_app in Hall as [H _]. }
  assert (Hc : exported rev c = true /\ awaits_target c = true).
  { rewrite Forall_forall in Hall. apply Hall.
    eapply list_elem_of_lookup_2; eauto. }
  destruct Hc as [Hex Haw].
  set (si := run_trace numberToHex rev (map Call (take i cs)) s).
  destruct (calls_keep_connection (take i cs) s r Hwf Hconn Hr Hall_i)
    as (Hwfi & Hconni & Hri & Hleni). fold si in Hwfi, Hconni, Hri, Hleni.
  assert (Hlen_take : length (take i cs) = i).
  { rewrite length_take. apply lookup_lt_Some in Hi. lia. }
  rewrite Hlen_take in Hleni.
  pose proof Hconni as (q & r' & po & em & Hq & _).
  pose proof (run_awaiting numberToHex rev c si q r Hex Haw Hq Hri) as Hrun.
  rewrite Hleni in Hrun. fold p in Hrun.
  pose proof (waiting_after_run numberToHex rev c si r Hwfi Hconni Hri Hex Haw)
    as Hw.
  rewrite Hleni in Hw. fold p in Hw.
  assert (Hres_i : resolutions p (final (run numberToHex rev c si)) = O).
  { rewrite Hrun. cbn. apply (Hwfi p). lia. }
  assert (Hs1 : s1 = run_trace numberToHex rev (map Call (drop (S i) cs))
                       (final (run numberToHex rev c si))).
  { subst s1 si. rewrite Hsplit at 1.
    rewrite map_app, run_trace_app. reflexivity. }
  pose proof (avoids_calls (OnParser r EvTargetReached) (drop (S i) cs))
    as Hav.
  pose proof (sole_run_trace numberToHex rev _ _ _ _ _ Hw Hav) as Hw1.
  pose proof (sole_run_trace_same_for numberToHex rev _ _ _ _ _ Hw Hav)
    as (_ & Hlog & _ & _).
  rewrite <- Hs1 in Hw1, Hlog.
  destruct (calls_keep_connection cs s r Hwf Hconn Hr Hall)
    as (_ & Hconn1 & Hr1 & _). fold s1 in Hconn1, Hr1.
  destruct (targetReached_fires numberToHex rev p r s1 Hw1
              (connected_vars_set s1 Hconn1)) as (Hres & Hcount & Hsil).
  fold s2 in Hres, Hcount, Hsil.
  split; [eexists; exact Hrun|].
  split; [apply Hw1|]. split; [exact Hres|].
  split.
  - rewrite Hcount. unfold resolutions in *. now rewrite Hlog, Hres_i.
  - apply silent_detached. now apply Hsil.
Qed.

End ManyCommands.

(** ** A listener left behind by a second [init] *)


Section Stale.
Variable numberToHex : Z -> Z.
Variable rev : revision.




End Stale.

(** ** [resetIMU] *)

Section ResetIMU.
Variable numberToHex : Z -> Z.

(** X11: [resetIMU] writes its two-byte frame and returns a promise that
    a timer of 1000 ms resolves.  No listener is attached; the promise is
    pending as long as no timer runs out, whatever the parser and the port
    emit, and it is resolved when its timer runs out. *)
Theorem resetIMU_is_resolved_by_its_timer (s : state) :
  wf s -> connected s ->
  let p := length (promises s) in
  let s1 := final (resetIMU s) in
  resetIMU s = Ok (Some p) s1
  /\ wire s1 = wire s ++ [Cobs.encode (Buffer_from [0xA3; 0x20]) true]
  /\ timers s1 = timers s ++ [(1000, Resolve p)]
  /\ parsers s1 = parsers s
  /\ (forall tr,
        no_timer tr ->
        promises (run_trace numberToHex Rev1 tr s1) !! p = Some Pending)
  /\ (forall tr,
        no_timer tr ->
        let s2 := run_trace numberToHex Rev1 tr s1 in
        forall i,
          timers s2 !! i = Some (1000, Resolve p) ->
          promises (step numberToHex Rev1 (TimerFires i) s2) !! p
          = Some (Settled Resolved)).
Proof.
  intros Hwf Hconn p s1.
  pose proof Hconn as (q & r & po & em & Hq & Hr & Hpo & Hem).
  pose proof (run_timed numberToHex Rev1 ResetIMU s q _ eq_refl eq_refl Hq)
    as Hrun. cbn [run] in Hrun. fold p in Hrun.
  pose proof (sole_after_timed numberToHex Rev1 ResetIMU s _ Hwf Hconn eq_refl
                eq_refl) as Hsole.
  cbn [run] in Hsole. fold p s1 in Hsole.
  pose proof (wire_after_run numberToHex Rev1 ResetIMU s Hconn eq_refl)
    as Hwire.
  cbn [run] in Hwire. fold s1 in Hwire.
  split; [subst s1; rewrite Hrun; reflexivity|].
  split; [exact Hwire|].
  split; [subst s1; rewrite Hrun; reflexivity|].
  split; [subst s1; rewrite Hrun; reflexivity|].
  split.
  - intros tr Htr.
    apply (sole_run_trace numberToHex Rev1 _ _ _ tr _ Hsole Htr).
  - intros tr Htr s2 i Hi.
    apply timer_resolves with (d := 1000); [|exact Hi].
    apply (sole_run_trace numberToHex Rev1 _ _ _ tr _ Hsole Htr).
Qed.

End ResetIMU.

(** ** Earlier promises *)

Section Earlier.
Variable numberToHex : Z -> Z.
Variable rev : revision.

Lemma same_for_user p s s' :
  same_for p s s' ->
  promises s' !! p = promises s !! p
  /\ resolutions p s' = resolutions p s
  /\ (forall r, occurrences (OnTargetReached p) (targetReached_listeners r s')
                = occurrences (OnTargetReached p)
                    (targetReached_listeners r s)).
Proof.
  intros (Hpr & Hlog & Hocc & _).
  split; [exact Hpr|]. split; [apply Hlog|].
  intros r. rewrite <- !occ_targetReached_listeners. now apply Hocc.
Qed.

(** X12: neither [init] nor a command touches an earlier promise: its
    state, the number of times it has been resolved and its listeners on
    every parser object are as before the call. *)
Theorem calls_leave_earlier_promises_alone (s : state) (p : nat) :
  (p < length (promises s))%nat ->
  forall s',
    (s' = final (init s) \/ exists c, s' = final (run numberToHex rev c s)) ->
    promises s' !! p = promises s !! p
    /\ resolutions p s' = resolutions p s
    /\ (forall r,
          occurrences (OnTargetReached p) (targetReached_listeners r s')
          = occurrences (OnTargetReached p) (targetReached_listeners r s)).
Proof.
  intros Hp s' [->|[c ->]]; apply same_for_user.
  - apply keeps_init. now left.
  - apply keeps_run. now left.
Qed.

End Earlier.

(** ** The listeners of every reachable state *)

Lemma remove_first_notin x (l : list (event * callback)) :
  x ∉ l -> remove_first x l = l.
Proof.
  induction l as [|y l IH]; intros Hx; [reflexivity|]. cbn.
  apply not_elem_of_cons in Hx as [Hne Hx].
  destruct (decide (x = y)); [contradiction|]. now rewrite IH.
Qed.

Lemma remove_first_app_notin x (l1 l2 : list (event * callback)) :
  x ∉ l2 -> remove_first x (l1 ++ l2) = remove_first x l1 ++ l2.
Proof.
  intros Hx. induction l1 as [|y l1 IH]; cbn.
  - now apply remove_first_notin.
  - destruct (decide (x = y)); [reflexivity|]. now rewrite IH.
Qed.

Lemma remove_first_onTargetReached p0 ps :
  exists ps',
    remove_first (EvTargetReached, OnTargetReached p0)
      (onTargetReached_listeners ps)
    = onTargetReached_listeners ps'.
Proof.
  unfold onTargetReached_listeners.
  induction ps as [|p ps [ps' IH]]; [now exists []|].
  cbn [map remove_first]. destruct (decide _).
  - now exists ps.
  - exists (p :: ps'). cbn [map]. now rewrite IH.
Qed.

Lemma off_init_parser p0 p ps :
  exists ps',
    off EvTargetReached (OnTargetReached p0)
      (init_parser p ++ onTargetReached_listeners ps)
    = init_parser p ++ onTargetReached_listeners ps'.
Proof.
  unfold off. rewrite rev_app_distr.
  rewrite remove_first_app_notin.
  - unfold onTargetReached_listeners at 1. rewrite <- map_rev.
    destruct (remove_first_onTargetReached p0 (rev ps)) as [ps' E].
    unfold onTargetReached_listeners at 1 in E. rewrite E.
    exists (rev ps'). rewrite rev_app_distr, rev_involutive.
    unfold onTargetReached_listeners. now rewrite map_rev.
  - cbn. rewrite !elem_of_cons, elem_of_nil.
    intros [H|[H|[H|[]]]]; discriminate.
Qed.

Lemma newest_alter {A} (f : A -> A) i (l : list A) :
  newest (alter f i l) = newest l.
Proof.
  destruct l as [|x l]; [reflexivity|].
  destruct i; cbn; now rewrite ?length_alter.
Qed.

Lemma newest_snoc {A} (l : list A) x : newest (l ++ [x]) = Some (length l).
Proof.
  destruct l as [|y l]; cbn; [reflexivity|].
  rewrite length_app. cbn. f_equal. lia.
Qed.

Lemma tidy_alter_port (f : serial_port -> serial_port) q s :
  (forall po, port_listeners (f po) = port_listeners po) ->
  tidy s -> tidy (set_ports (alter f q (ports s)) s).
Proof.
  intros Hf (Hpa & Hpo & Hq & Hr).
  split; [exact Hpa|]. split; [|split; [|exact Hr]].
  - intros q' po. cbn. destruct (decide (q = q')) as [<-|Hne].
    + rewrite list_lookup_alter_eq.
      destruct (ports s !! q) as [po0|] eqn:E; [|discriminate].
      cbn. intros [= <-]. rewrite Hf. now apply (Hpo q).
    + rewrite list_lookup_alter_ne by exact Hne. apply Hpo.
  - cbn. now rewrite newest_alter.
Qed.

Lemma tidy_alter_parser (f : list (event * callback)
                             -> list (event * callback)) r s :
  (forall p ps, exists p' ps',
      f (init_parser p ++ onTargetReached_listeners ps)
      = init_parser p' ++ onTargetReached_listeners ps') ->
  tidy s -> tidy (set_parsers (alter f r (parsers s)) s).
Proof.
  intros Hf (Hpa & Hpo & Hq & Hr).
  split; [|split; [exact Hpo|split; [exact Hq|]]].
  - intros r' em. cbn. destruct (decide (r = r')) as [<-|Hne].
    + rewrite list_lookup_alter_eq.
      destruct (parsers s !! r) as [em0|] eqn:E; [|discriminate].
      cbn. intros [= <-].
      destruct (Hpa r em0 E) as (p & ps & ->). apply Hf.
    + rewrite list_lookup_alter_ne by exact Hne. apply Hpa.
  - cbn. now rewrite newest_alter.
Qed.

Lemma tidy_settle o q : preserves tidy (settle o q).
Proof. intros s Hs. exact Hs. Qed.

Lemma tidy_setTimeout cb d : preserves tidy (setTimeout cb d).
Proof. intros s Hs. exact Hs. Qed.

Lemma tidy_port_write bytes : preserves tidy (port_write bytes).
Proof.
  intros s Hs. unfold port_write. destruct (port s); [|exact Hs].
  now apply tidy_alter_port.
Qed.

Lemma tidy_port_flush : preserves tidy port_flush.
Proof.
  intros s Hs. unfold port_flush. destruct (port s); [|exact Hs].
  now apply tidy_alter_port.
Qed.

Lemma tidy_parser_on p :
  preserves tidy (parser_on EvTargetReached (OnTargetReached p)).
Proof.
  intros s Hs. unfold parser_on. destruct (parser s); [|exact Hs].
  apply tidy_alter_parser; [|exact Hs].
  intros p0 ps. exists p0, (ps ++ [p]). unfold on, onTargetReached_listeners.
  now rewrite map_app, app_assoc.
Qed.

Lemma tidy_parser_off p :
  preserves tidy (parser_off EvTargetReached (OnTargetReached p)).
Proof.
  intros s Hs. unfold parser_off. destruct (parser s); [|exact Hs].
  apply tidy_alter_parser; [|exact Hs].
  intros p0 ps. exists p0. apply off_init_parser.
Qed.

Ltac solve_tidy :=
  repeat lazymatch goal with
    | |- preserves _ (bind _ _) => apply preserves_bind; [|intros ?]
    | |- preserves _ (ret _) => apply preserves_ret
    | |- preserves _ throw => apply preserves_throw
    | |- preserves _ (settle _ _) => apply tidy_settle
    | |- preserves _ (setTimeout _ _) => apply tidy_setTimeout
    | |- preserves _ (port_write _) => apply tidy_port_write
    | |- preserves _ port_flush => apply tidy_port_flush
    | |- preserves _ (parser_on _ _) => apply tidy_parser_on
    | |- preserves _ (parser_off _ _) => apply tidy_parser_off
    | |- preserves _ (new_Promise _) =>
        apply preserves_new_Promise;
        [intros ? ?; assumption|intros ?; apply tidy_settle|intros ?]
    | |- preserves _ (if ?b then _ else _) => destruct b
    end.

Lemma tidy_run numberToHex rev c : preserves tidy (run numberToHex rev c).
Proof.
  destruct c; cbn [run]; try destruct rev;
    unfold keepHeading, forward, reverse, rotate, turn, drive, stop, resetIMU,
      targetReached_promise, writeToSerialPort;
    solve_tidy.
Qed.

Lemma tidy_call cb : preserves tidy (call cb).
Proof.
  destruct cb; cbn [call]; solve_tidy.
  intros s Hs. exact Hs.
Qed.

Lemma tidy_after_init s : tidy s -> tidy (after_init s).
Proof.
  intros (Hpa & Hpo & Hq & Hr). unfold after_init.
  split; [|split; [|split]]; cbn [parsers ports port parser].
  - intros r em Hl. apply lookup_app_Some in Hl as [Hl|[_ Hl]].
    + now apply (Hpa r).
    + apply list_lookup_singleton_Some in Hl as [_ <-].
      now exists (length (promises s)), [].
  - intros q po Hl. apply lookup_app_Some in Hl as [Hl|[_ Hl]].
    + now apply (Hpo q).
    + now apply list_lookup_singleton_Some in Hl as [_ <-].
  - now rewrite newest_snoc.
  - now rewrite newest_snoc.
Qed.

Lemma tidy_initial : tidy initial.
Proof.
  split; [|split; [|split]]; try reflexivity; intros ? ? H; discriminate.
Qed.

Lemma tidy_step numberToHex rev a s :
  tidy s -> tidy (step numberToHex rev a s).
Proof.
  apply preserves_step.
  - apply tidy_run.
  - apply tidy_after_init.
  - apply tidy_call.
  - intros s0 v Hs. exact Hs.
Qed.

Lemma tidy_run_trace numberToHex rev tr s :
  tidy s -> tidy (run_trace numberToHex rev tr s).
Proof. apply preserves_run_trace. intros a s0. apply tidy_step. Qed.

(** ** What reaches the clients *)

Lemma call_emitted cb s :
  republished cb = [] -> emitted (final (call cb s)) = emitted s.
Proof.
  destruct cb as [p|p|p|e|]; try discriminate; intros _; cbn [call];
    try reflexivity.
  - unfold bind, parser_off. destruct (parser s); reflexivity.
  - unfold port_flush. destruct (port s); reflexivity.
Qed.

Lemma call_all_emitted cbs : forall s,
  Forall (fun cb => republished cb = []) cbs ->
  emitted (final (call_all cbs s)) = emitted s.
Proof.
  induction cbs as [|cb cbs IH]; intros s Hall; [reflexivity|].
  inversion Hall as [|? ? Hcb Hall']; subst. cbn [call_all]. unfold bind.
  pose proof (call_emitted cb s Hcb) as H1.
  destruct (call cb s) as [[] s1|s1]; cbn [final] in *; [|exact H1].
  now rewrite IH.
Qed.

Lemma listeners_app e (em1 em2 : list (event * callback)) :
  listeners e (em1 ++ em2) = listeners e em1 ++ listeners e em2.
Proof. unfold listeners. now rewrite filter_app, map_app. Qed.

Lemma listeners_onTargetReached e ps :
  listeners e (onTargetReached_listeners ps)
  = if decide (e = EvTargetReached) then map OnTargetReached ps else [].
Proof.
  unfold listeners, onTargetReached_listeners.
  induction ps as [|p ps IH]; [now destruct (decide _)|].
  cbn [map]. rewrite filter_cons. cbn [fst].
  destruct (decide (EvTargetReached = e)) as [<-|Hne].
  - cbn [map snd]. rewrite IH. now rewrite !decide_True by reflexivity.
  - rewrite IH. now rewrite !decide_False by congruence.
Qed.

Section Republish.
Variable numberToHex : Z -> Z.
Variable rev : revision.

(** X14: in every state the module can reach, an [odometry] event of a
    parser object is passed on to the clients once and changes nothing
    else, a [targetReached] event is passed on once however many commands
    are waiting, a [ready] event is not passed on, and any other event of a
    parser has no listener. *)
Theorem parser_events_reach_the_clients_once (tr : list action) (r : nat) :
  let s := run_trace numberToHex rev tr initial in
  (r < length (parsers s))%nat ->
  step numberToHex rev (ParserEmits r EvOdometry) s
  = set_emitted (emitted s ++ [EvOdometry]) s
  /\ emitted (step numberToHex rev (ParserEmits r EvTargetReached) s)
     = emitted s ++ [EvTargetReached]
  /\ emitted (step numberToHex rev (ParserEmits r EvReady) s) = emitted s
  /\ (forall e,
        e <> EvReady -> e <> EvOdometry -> e <> EvTargetReached ->
        step numberToHex rev (ParserEmits r e) s = s).
Proof.
  intros s Hr.
  destruct (tidy_run_trace numberToHex rev tr initial tidy_initial)
    as (Hpa & _). fold s in Hpa.
  destruct (lookup_lt_is_Some_2 _ _ Hr) as [em Hem].
  destruct (Hpa r em Hem) as (p & ps & ->).
  cbn [step]. unfold parser_emit. rewrite Hem.
  rewrite !listeners_app, !listeners_onTargetReached.
  split; [reflexivity|]. split; [|split].
  - rewrite decide_True by reflexivity.
    change (listeners EvTargetReached (init_parser p))
      with [Republish EvTargetReached].
    cbn [app call_all call]. unfold bind, modify.
    rewrite call_all_emitted; [reflexivity|].
    apply Forall_forall. intros cb Hin.
    apply list_elem_of_fmap in Hin as (p' & -> & _). reflexivity.
  - reflexivity.
  - intros e H1 H2 H3.
    rewrite listeners_app, listeners_onTargetReached.
    rewrite decide_False by exact H3.
    destruct e; try contradiction; reflexivity.
Qed.

(** X15: in every state the module can reach, the [error], [disconnect]
    and [close] events of a port object are passed on to the clients once
    and change nothing else.  An [open] event flushes the port that is
    assigned at that moment, which is the one made last, whichever port
    object has emitted the event. *)
Theorem port_events_reach_the_clients_once (tr : list action) (q : nat) :
  let s := run_trace numberToHex rev tr initial in
  (q < length (ports s))%nat ->
  (forall e,
     e = EvError \/ e = EvDisconnect \/ e = EvClose ->
     step numberToHex rev (PortEmits q e) s
     = set_emitted (emitted s ++ [e]) s)
  /\ port s = Some (pred (length (ports s)))
  /\ step numberToHex rev (PortEmits q EvOpen) s
     = set_ports (alter add_flush (pred (length (ports s))) (ports s)) s
  /\ (forall e,
        e = EvReady \/ e = EvOdometry \/ e = EvTargetReached ->
        step numberToHex rev (PortEmits q e) s = s).
Proof.
  intros s Hq.
  destruct (tidy_run_trace numberToHex rev tr initial tidy_initial)
    as (_ & Hpo & Hport & _). fold s in Hpo, Hport.
  destruct (lookup_lt_is_Some_2 _ _ Hq) as [po Hl].
  pose proof (Hpo q po Hl) as Hli.
  assert (Hnew : port s = Some (pred (length (ports s)))).
  { rewrite Hport. destruct (ports s); [cbn in Hq; lia|reflexivity]. }
  cbn [step]. unfold port_emit. rewrite Hl, Hli.
  split; [intros e [->|[->| ->]]; reflexivity|].
  split; [exact Hnew|]. split.
  - change (listeners EvOpen (port_listeners (init_port 0)))
      with [OnPortOpen].
    cbn [call_all call]. unfold bind, port_flush. now rewrite Hnew.
  - intros e [->|[->| ->]]; reflexivity.
Qed.

End Republish.

(** ** A timer runs once *)

Lemma occurrences_map_snd_delete_eq (cb : callback) (d : Z)
    (l : list (Z * callback)) (i : nat) :
  l !! i = Some (d, cb) ->
  occurrences cb (map snd (delete i l))
  = pred (occurrences cb (map snd l)).
Proof.
  revert i. induction l as [|[d0 c0] l IH]; intros [|i] Hi;
    try discriminate.
  - cbn in Hi. injection Hi as -> ->. cbn [delete list_delete map snd].
    rewrite occurrences_cons. now rewrite decide_True by reflexivity.
  - cbn in Hi. pose proof (IH i Hi) as E.
    cbn [delete list_delete map snd] in E |- *. rewrite !occurrences_cons.
    assert (0 < occurrences cb (map snd l))%nat.
    { apply occurrences_pos. apply list_elem_of_fmap.
      exists (d, cb). split; [reflexivity|].
      eapply list_elem_of_lookup_2; eauto. }
    destruct (decide (c0 = cb)); cbn [Nat.add]; [|exact E].
    transitivity (S (pred (occurrences cb (map snd l))));
      [exact (f_equal S E)|lia].
Qed.

Lemma elem_of_delete_other {B} (x y : B) (l : list B) (i : nat) :
  x ∈ l -> l !! i = Some y -> y <> x -> x ∈ delete i l.
Proof.
  revert i. induction l as [|z l IH]; intros i Hin Hi Hne;
    [inversion Hin|].
  destruct i as [|i]; cbn in Hi; cbn [delete list_delete].
  - injection Hi as ->. apply elem_of_cons in Hin as [->|Hin];
      [contradiction|exact Hin].
  - apply elem_of_cons in Hin as [->|Hin]; [now left|].
    right. now apply (IH i).
Qed.

(** *** A queued timer stays queued until it runs out *)

Section Queued.
Variable d : Z.
Variable cb : callback.

Lemma queued_same_timers {A} (m : M A) :
  (forall s, timers (final (m s)) = timers s) ->
  preserves (queued d cb) m.
Proof. intros Hm s Hs. unfold queued in *. now rewrite Hm. Qed.

Lemma queued_settle o q : preserves (queued d cb) (settle o q).
Proof. apply queued_same_timers. reflexivity. Qed.

Lemma queued_port_write bytes : preserves (queued d cb) (port_write bytes).
Proof.
  apply queued_same_timers. intros s. unfold port_write.
  destruct (port s); reflexivity.
Qed.

Lemma queued_port_flush : preserves (queued d cb) port_flush.
Proof.
  apply queued_same_timers. intros s. unfold port_flush.
  destruct (port s); reflexivity.
Qed.

Lemma queued_parser_on e cb' : preserves (queued d cb) (parser_on e cb').
Proof.
  apply queued_same_timers. intros s. unfold parser_on.
  destruct (parser s); reflexivity.
Qed.

Lemma queued_parser_off e cb' : preserves (queued d cb) (parser_off e cb').
Proof.
  apply queued_same_timers. intros s. unfold parser_off.
  destruct (parser s); reflexivity.
Qed.

Lemma queued_setTimeout cb' d' : preserves (queued d cb) (setTimeout cb' d').
Proof.
  intros s Hs. unfold queued in *. cbn. apply elem_of_app. now left.
Qed.

Ltac solve_queued :=
  repeat lazymatch goal with
    | |- preserves _ (bind _ _) => apply preserves_bind; [|intros ?]
    | |- preserves _ (ret _) => apply preserves_ret
    | |- preserves _ throw => apply preserves_throw
    | |- preserves _ (settle _ _) => apply queued_settle
    | |- preserves _ (setTimeout _ _) => apply queued_setTimeout
    | |- preserves _ (port_write _) => apply queued_port_write
    | |- preserves _ port_flush => apply queued_port_flush
    | |- preserves _ (parser_on _ _) => apply queued_parser_on
    | |- preserves _ (parser_off _ _) => apply queued_parser_off
    | |- preserves _ (new_Promise _) =>
        apply preserves_new_Promise;
        [intros ? ?; assumption|intros ?; apply queued_settle|intros ?]
    | |- preserves _ (if ?b then _ else _) => destruct b
    end.

Lemma queued_run numberToHex rev c :
  preserves (queued d cb) (run numberToHex rev c).
Proof.
  destruct c; cbn [run]; try destruct rev;
    unfold keepHeading, forward, reverse, rotate, turn, drive, stop, resetIMU,
      targetReached_promise, writeToSerialPort;
    solve_queued.
Qed.

Lemma queued_call cb' : preserves (queued d cb) (call cb').
Proof.
  destruct cb'; cbn [call]; solve_queued.
  apply queued_same_timers. reflexivity.
Qed.

Lemma queued_step numberToHex rev a s :
  queued d cb s -> fires cb a s = false ->
  queued d cb (step numberToHex rev a s).
Proof.
  intros Hs Ha. destruct a as [c| |r e|q e|i]; cbn [step].
  - now apply queued_run.
  - rewrite final_init. unfold queued, after_init in *. cbn.
    apply elem_of_app. now left.
  - unfold parser_emit. destruct (parsers s !! r); [|exact Hs].
    apply preserves_call_all; [apply queued_call|exact Hs].
  - unfold port_emit. destruct (ports s !! q); [|exact Hs].
    apply preserves_call_all; [apply queued_call|exact Hs].
  - unfold timer_fires. cbn [fires] in Ha.
    destruct (timers s !! i) as [[d' cb']|] eqn:Hi; [|exact Hs].
    apply queued_call. unfold queued in *. cbn.
    apply bool_decide_eq_false in Ha.
    apply (elem_of_delete_other _ (d', cb') _ i Hs Hi). congruence.
Qed.

End Queued.

Section Timers.
Variable numberToHex : Z -> Z.
Variable rev : revision.

Lemma timer_fires_once p s i d :
  sole p InTimers (Resolve p) s ->
  timers s !! i = Some (d, Resolve p) ->
  let s' := step numberToHex rev (TimerFires i) s in
  silent p s'
  /\ promises s' !! p = Some (Settled Resolved)
  /\ resolutions p s' = S (resolutions p s).
Proof.
  intros [Hpend Hocc] Hi. cbv zeta. cbn [step]. unfold timer_fires.
  rewrite Hi. cbn [call].
  set (s0 := set_timers (delete i (timers s)) s).
  split; [|split].
  - intros pl cb Hcb. specialize (Hocc pl cb Hcb).
    destruct pl as [|r e|q e]; unfold occ in *; cbn.
    + destruct (decide (Resolve p = cb)) as [<-|Hne].
      * rewrite (occurrences_map_snd_delete_eq _ d _ _ Hi), Hocc.
        case_decide; reflexivity.
      * rewrite (occurrences_map_snd_delete _ _ d _ _ Hi Hne), Hocc.
        case_decide as Hd; [destruct Hd; congruence|reflexivity].
    + rewrite Hocc. case_decide as Hd; [destruct Hd; discriminate|].
      reflexivity.
    + rewrite Hocc. case_decide as Hd; [destruct Hd; discriminate|].
      reflexivity.
  - cbn. now rewrite list_lookup_alter_eq, Hpend.
  - apply (resolutions_settle p s0).
Qed.

(** As long as the timer of [p] has not run out, nothing that runs belongs
    to [p]. *)
Lemma sole_timer_not_called p a s :
  sole p InTimers (Resolve p) s -> fires (Resolve p) a s = false ->
  Forall (fun cb => cb_handle cb <> Some p) (called a s).
Proof.
  intros [_ Hw] Ha. apply Forall_forall. intros cb Hin Hcb.
  pose proof Hin as Hin'.
  apply called_occ in Hin' as (pl & Hpl & Hpos).
  rewrite (Hw _ _ Hcb) in Hpos.
  destruct (decide _) as [[-> ->]|]; [|lia].
  destruct a as [c| |r e|q e|i]; try discriminate.
  cbn [called fires] in *.
  destruct (timers s !! i) as [[d' cb']|]; [|inversion Hin].
  apply list_elem_of_singleton in Hin. subst cb'.
  now rewrite bool_decide_eq_true_2 in Ha.
Qed.

Lemma sole_timer_step p a s :
  sole p InTimers (Resolve p) s -> fires (Resolve p) a s = false ->
  sole p InTimers (Resolve p) (step numberToHex rev a s)
  /\ resolutions p (step numberToHex rev a s) = resolutions p s.
Proof.
  intros Hs Ha.
  assert (Hsame : same_for p s (step numberToHex rev a s)).
  { apply step_same_for.
    - left. eapply sole_lt; eauto.
    - now apply sole_timer_not_called. }
  split; [eapply sole_same_for; eauto|].
  destruct Hsame as (_ & Hlog & _). apply Hlog.
Qed.

Lemma timer_decides p d tr : forall s,
  sole p InTimers (Resolve p) s -> resolutions p s = O ->
  queued d (Resolve p) s ->
  let s' := run_trace numberToHex rev tr s in
  if runs_out numberToHex rev (Resolve p) tr s
  then silent p s'
       /\ promises s' !! p = Some (Settled Resolved)
       /\ resolutions p s' = 1%nat
  else sole p InTimers (Resolve p) s'
       /\ resolutions p s' = O
       /\ queued d (Resolve p) s'.
Proof.
  induction tr as [|a tr IH]; intros s Hs Hres Hq; cbv zeta.
  - cbn. auto.
  - change (run_trace numberToHex rev (a :: tr) s)
      with (run_trace numberToHex rev tr (step numberToHex rev a s)).
    cbn [runs_out].
    destruct (fires (Resolve p) a s) eqn:Ha; cbn [orb].
    + destruct a as [c| |r e|q e|i]; try discriminate. cbn [fires] in Ha.
      destruct (timers s !! i) as [[d' cb']|] eqn:Hi; [|discriminate].
      apply bool_decide_eq_true in Ha. subst cb'.
      destruct (timer_fires_once p s i d' Hs Hi) as (Hsil & Hpr & Hcount).
      set (s3 := step numberToHex rev (TimerFires i) s) in *.
      assert (Hp3 : (p < length (promises s3))%nat)
        by (now apply lookup_lt_Some in Hpr).
      destruct (silent_run_trace numberToHex rev p tr s3 Hp3 Hsil)
        as [(Hpr' & Hlog' & _ & _) Hsil'].
      split; [exact Hsil'|]. split; [now rewrite Hpr'|].
      unfold resolutions in *. now rewrite Hlog', Hcount, Hres.
    + destruct (sole_timer_step p a s Hs Ha) as [Hs' Hres'].
      apply IH; [exact Hs'|now rewrite Hres'|].
      now apply queued_step.
Qed.

(** X16: the promise of [stop] and of [resetIMU] is resolved exactly
    once.  Along every run after the call, other timers included, it is
    pending with its timer queued and [resolve] not called, until its own
    timer runs out; from then on it is resolved, [resolve] has been called
    once, and no timer for it is left. *)
Theorem timed_command_is_resolved_exactly_once
    (c : command) (d : Z) (s : state) (tr : list action) :
  wf s -> connected s ->
  exported rev c = true -> settling_delay c = Some d ->
  let p := length (promises s) in
  let s1 := final (run numberToHex rev c s) in
  let s2 := run_trace numberToHex rev tr s1 in
  if runs_out numberToHex rev (Resolve p) tr s1
  then promises s2 !! p = Some (Settled Resolved)
       /\ resolutions p s2 = 1%nat
       /\ (forall j d' cb, timers s2 !! j = Some (d', cb) -> cb <> Resolve p)
  else promises s2 !! p = Some Pending
       /\ resolutions p s2 = O
       /\ queued d (Resolve p) s2
       /\ occurrences (Resolve p) (map snd (timers s2)) = 1%nat.
Proof.
  intros Hwf Hconn Hex Hd p s1 s2.
  pose proof (sole_after_timed numberToHex rev c s d Hwf Hconn Hex Hd)
    as Hsole. fold p s1 in Hsole.
  pose proof Hconn as (q & _ & _ & _ & Hq & _).
  pose proof (run_timed numberToHex rev c s q d Hex Hd Hq) as Hrun.
  fold p in Hrun.
  assert (Hres1 : resolutions p s1 = O).
  { subst s1. rewrite Hrun. cbn. apply (Hwf p (le_n _)). }
  assert (Hq1 : queued d (Resolve p) s1).
  { subst s1. rewrite Hrun. unfold queued. cbn.
    apply elem_of_app. right. now left. }
  pose proof (timer_decides p d tr s1 Hsole Hres1 Hq1) as H.
  cbv zeta in H. fold s2 in H.
  destruct (runs_out numberToHex rev (Resolve p) tr s1).
  - destruct H as (Hsil & Hpr & Hcount).
    split; [exact Hpr|]. split; [exact Hcount|].
    intros j d' cb Hj ->.
    specialize (Hsil InTimers (Resolve p) eq_refl). unfold occ in Hsil.
    assert (0 < occurrences (Resolve p) (map snd (timers s2)))%nat; [|lia].
    apply occurrences_pos. apply list_elem_of_fmap.
    exists (d', Resolve p). split; [reflexivity|].
    eapply list_elem_of_lookup_2; eauto.
  - destruct H as ([Hpend Hocc] & Hcount & Hqueued).
    split; [exact Hpend|]. split; [exact Hcount|]. split; [exact Hqueued|].
    specialize (Hocc InTimers (Resolve p) eq_refl). unfold occ in Hocc.
    rewrite Hocc. apply decide_True. now split.
Qed.

End Timers.

(** ** The statements at concrete inputs *)

Lemma turn_sign_flips_direction_byte_witness :
  (forall n, 0 <= n <= 255 -> clamp_byte n = n)
  /\ connected opened /\ 90 <> 0
  /\ wire (final (turn clamp_byte Rev1 20 90 10 opened))
     = wire opened ++ [Cobs.encode [0xA3; 0x13; 20; 90; 10; 0] true]
  /\ wire (final (turn clamp_byte Rev1 20 (-90) 10 opened))
     = wire opened ++ [Cobs.encode [0xA3; 0x13; 20; 90; 10; 1] true].
Proof.
  split; [exact clamp_byte_id|]. split; [exact connected_opened|].
  split; [lia|].
  pose proof (turn_sign_flips_direction_byte clamp_byte Rev1 20 90 10
                opened clamp_byte_id connected_opened ltac:(lia)) as H.
  cbv zeta in H. destruct H as (_ & Hpos & Hneg).
  split; [exact Hpos|exact Hneg].
Defined.

Lemma revisions_differ_in_the_direction_byte_witness :
  connected opened
  /\ wire (final (rotate clamp_byte Rev1 20 (-90) opened))
     = wire opened ++ [Cobs.encode [0xA3; 0x12; 20; 90; 1] true]
  /\ wire (final (rotate clamp_byte Rev2 20 (-90) opened))
     = wire opened ++ [Cobs.encode [0xA3; 0x12; 20; 90; 0] true].
Proof.
  split; [exact connected_opened|].
  pose proof (revisions_differ_in_the_direction_byte clamp_byte 20 (-90) 10
                opened connected_opened) as H.
  cbv zeta in H. destruct H as (_ & H1 & H2 & _).
  split; [exact H1|exact H2].
Defined.

Lemma keepHeading_sends_magnitude_and_direction_witness :
  connected opened
  /\ wire (final (keepHeading clamp_byte (-20) 90 100 opened))
     = wire opened ++ [Cobs.encode [0xA3; 0x16; 20; 90; 0; 100] true].
Proof.
  split; [exact connected_opened|].
  pose proof (keepHeading_sends_magnitude_and_direction clamp_byte (-20) 90
                100 opened connected_opened) as H.
  cbv zeta in H. destruct H as [H _]. exact H.
Defined.

Lemma commands_before_init_witness :
  port initial = None /\ exported Rev1 (Forward 20 100) = true
  /\ run clamp_byte Rev1 (Forward 20 100) initial = Throw initial.
Proof.
  split; [reflexivity|]. split; [reflexivity|].
  exact (commands_before_init clamp_byte Rev1 (Forward 20 100) initial
           eq_refl eq_refl).
Defined.

Lemma first_init_is_resolved_by_ready_witness :
  wf initial /\ port initial = None
  /\ promises
       (step clamp_byte Rev1 (ParserEmits 0 EvReady)
          (run_trace clamp_byte Rev1 [] (final (init initial)))) !! O
     = Some (Settled Resolved).
Proof.
  split; [exact wf_initial|]. split; [reflexivity|].
  pose proof (first_init_is_resolved_by_ready clamp_byte Rev1 initial
                wf_initial eq_refl) as H.
  cbv zeta in H. destruct H as (_ & _ & _ & Htr).
  destruct (Htr [] ltac:(constructor)) as [_ Hfire]. exact Hfire.
Defined.


Lemma one_event_completes_every_waiting_command_witness :
  wf opened /\ connected opened /\ parser opened = Some O
  /\ Forall (fun c => exported Rev1 c = true /\ awaits_target c = true)
       [Forward 20 100; Rotate 20 90]
  /\ [Forward 20 100; Rotate 20 90] !! 1%nat = Some (Rotate 20 90)
  /\ promises
       (step clamp_byte Rev1 (ParserEmits 0 EvTargetReached)
          (run_trace clamp_byte Rev1
             (map Call [Forward 20 100; Rotate 20 90]) opened))
       !! (length (promises opened) + 1)%nat
     = Some (Settled Resolved).
Proof.
  assert (Hr : parser opened = Some O) by (vm_compute; reflexivity).
  assert (Hall : Forall (fun c => exported Rev1 c = true
                                  /\ awaits_target c = true)
                   [Forward 20 100; Rotate 20 90]).
  { constructor; [split; reflexivity|].
    constructor; [split; reflexivity|]. constructor. }
  split; [exact wf_opened|]. split; [exact connected_opened|].
  split; [exact Hr|]. split; [exact Hall|]. split; [reflexivity|].
  pose proof (one_event_completes_every_waiting_command clamp_byte Rev1
                [Forward 20 100; Rotate 20 90] opened O wf_opened
                connected_opened Hr Hall 1%nat (Rotate 20 90) eq_refl) as H.
  cbv zeta in H. destruct H as (_ & _ & Hres & _). exact Hres.
Defined.


Lemma resetIMU_is_resolved_by_its_timer_witness :
  wf opened /\ connected opened
  /\ timers (final (resetIMU opened))
     = timers opened ++ [(1000, Resolve (length (promises opened)))].
Proof.
  split; [exact wf_opened|]. split; [exact connected_opened|].
  pose proof (resetIMU_is_resolved_by_its_timer clamp_byte opened wf_opened
                connected_opened) as H.
  cbv zeta in H. destruct H as (_ & _ & Ht & _). exact Ht.
Defined.

Lemma calls_leave_earlier_promises_alone_witness :
  (0 < length (promises opened))%nat
  /\ promises (final (init opened)) !! O = promises opened !! O.
Proof.
  assert (Hp : (0 < length (promises opened))%nat) by (vm_compute; lia).
  split; [exact Hp|].
  destruct (calls_leave_earlier_promises_alone clamp_byte Rev1 opened O Hp
              (final (init opened)) (or_introl eq_refl)) as [H _].
  exact H.
Defined.

Lemma parser_events_reach_the_clients_once_witness :
  (0 < length (parsers (run_trace clamp_byte Rev1 [CallInit] initial)))%nat
  /\ emitted
       (step clamp_byte Rev1 (ParserEmits 0 EvTargetReached)
          (run_trace clamp_byte Rev1 [CallInit] initial))
     = emitted (run_trace clamp_byte Rev1 [CallInit] initial)
       ++ [EvTargetReached].
Proof.
  assert (Hr : (0 < length (parsers (run_trace clamp_byte Rev1 [CallInit]
                                       initial)))%nat)
    by (vm_compute; lia).
  split; [exact Hr|].
  pose proof (parser_events_reach_the_clients_once clamp_byte Rev1
                [CallInit] O) as H.
  cbv zeta in H. destruct (H Hr) as (_ & Htr & _). exact Htr.
Defined.

Lemma port_events_reach_the_clients_once_witness :
  (0 < length (ports (run_trace clamp_byte Rev1 [CallInit] initial)))%nat
  /\ step clamp_byte Rev1 (PortEmits 0 EvClose)
       (run_trace clamp_byte Rev1 [CallInit] initial)
     = set_emitted
         (emitted (run_trace clamp_byte Rev1 [CallInit] initial)
          ++ [EvClose])
         (run_trace clamp_byte Rev1 [CallInit] initial).
Proof.
  assert (Hq : (0 < length (ports (run_trace clamp_byte Rev1 [CallInit]
                                     initial)))%nat)
    by (vm_compute; lia).
  split; [exact Hq|].
  pose proof (port_events_reach_the_clients_once clamp_byte Rev1
                [CallInit] O) as H.
  cbv zeta in H. destruct (H Hq) as (Hrep & _).
  exact (Hrep EvClose (or_intror (or_intror eq_refl))).
Defined.

(** [stop(0)], then [stop(1)]: the timer of the second call runs out first
    and leaves the first promise pending; its own timer resolves it. *)
Lemma timed_command_is_resolved_exactly_once_witness :
  wf opened /\ connected opened
  /\ exported Rev1 (Stop 0) = true /\ settling_delay (Stop 0) = Some 1000
  /\ promises
       (run_trace clamp_byte Rev1 [Call (Stop 1); TimerFires 1]
          (final (run clamp_byte Rev1 (Stop 0) opened)))
       !! length (promises opened)
     = Some Pending
  /\ resolutions (length (promises opened))
       (run_trace clamp_byte Rev1
          [Call (Stop 1); TimerFires 1; TimerFires 0]
          (final (run clamp_byte Rev1 (Stop 0) opened)))
     = 1%nat.
Proof.
  split; [exact wf_opened|]. split; [exact connected_opened|].
  split; [reflexivity|]. split; [reflexivity|].
  split.
  - pose proof (timed_command_is_resolved_exactly_once clamp_byte Rev1
                  (Stop 0) 1000 opened [Call (Stop 1); TimerFires 1]
                  wf_opened connected_opened eq_refl eq_refl) as H.
    cbv zeta in H.
    assert (E : runs_out clamp_byte Rev1 (Resolve (length (promises opened)))
                  [Call (Stop 1); TimerFires 1]
                  (final (run clamp_byte Rev1 (Stop 0) opened)) = false)
      by (vm_compute; reflexivity).
    rewrite E in H. destruct H as (Hpend & _). exact Hpend.
  - pose proof (timed_command_is_resolved_exactly_once clamp_byte Rev1
                  (Stop 0) 1000 opened
                  [Call (Stop 1); TimerFires 1; TimerFires 0]
                  wf_opened connected_opened eq_refl eq_refl) as H.
    cbv zeta in H.
    assert (E : runs_out clamp_byte Rev1 (Resolve (length (promises opened)))
                  [Call (Stop 1); TimerFires 1; TimerFires 0]
                  (final (run clamp_byte Rev1 (Stop 0) opened)) = true)
      by (vm_compute; reflexivity).
    rewrite E in H. destruct H as (_ & Hone & _). exact Hone.
Defined.

End ControllerRuns.
